(** * lapack-ts: the DGESV solver and its strided matrix views

    A shallow embedding of [src/utils/matrix.ts] (matrix views over typed
    arrays) and [src/linear-equations/dgesv.ts] (LU factorisation with partial
    pivoting and the triangular solves), with the properties of the design
    document proved or refuted on the embedding.

    Modelling choices, top down:
    - a JavaScript [number] holding a float is a [spec_float] of the Standard
      Library, with the binary64 operations of [SpecFloat] (round to nearest
      even, a single NaN without payload);
    - a [number] holding a dimension, an index or a status code is a [Z]
      (exact as long as it stays a safe integer);
    - typed arrays live in a heap and are referred to by location, so that two
      matrix views may share one buffer; reading outside a typed array yields
      [undefined] and writing outside it is ignored, as in JavaScript, and
      either event raises the ghost flag [oob] of the heap;
    - functions that mutate or throw run in the monad [M], a state monad over
      the heap with exceptions.

    The proofs come in three layers: Hoare triples for [M] and its loops; one
    walk through the text of the solver for an arbitrary invariant, used for
    the frame property and for bounds safety; and a second walk for two runs
    in lockstep, used for layout independence. The last part holds further
    properties of the matrix utilities, of the factorisation and the solve,
    and of the driver. *)

From Stdlib Require Import ZArith Lia Bool String.
From Stdlib Require Import Floats.SpecFloat.
From stdpp Require Import base tactics option list.

#[local] Open Scope Z_scope.

(** ** IEEE-754 numbers *)

Definition float : Type := spec_float.

Definition prec64 : Z := 53.
Definition emax64 : Z := 1024.
Definition prec32 : Z := 24.
Definition emax32 : Z := 128.

Definition NaN : float := S754_nan.
Definition fzero : float := S754_zero false.
Definition fnegzero : float := S754_zero true.

(** The number literal [z] for an integer [z] (rounded if it needs more than
    53 bits). *)
Definition float_of_Z (z : Z) : float := binary_normalize prec64 emax64 z 0 false.

Definition fadd : float -> float -> float := SFadd prec64 emax64.
Definition fsub : float -> float -> float := SFsub prec64 emax64.
Definition fmul : float -> float -> float := SFmul prec64 emax64.
Definition fdiv : float -> float -> float := SFdiv prec64 emax64.

(** [Math.abs x], [x > y], [x === y] and [x !== y] on numbers. *)
Definition Math_abs : float -> float := SFabs.
Definition fgt (x y : float) : bool := SFltb y x.
Definition feq (x y : float) : bool := SFeqb x y.
Definition fneq (x y : float) : bool := negb (SFeqb x y).

(** [Math.fround]: the binary64 number nearest to [x] among the binary32
    numbers, which is what a [Float32Array] cell holds after a store. *)
Definition fround (x : float) : float :=
  match x with
  | S754_finite s m e =>
      match binary_round prec32 emax32 s m e with
      | S754_finite s' m' e' => binary_round prec64 emax64 s' m' e'
      | y => y
      end
  | _ => x
  end.

(** ** Typed arrays and the heap *)

Inductive precision := Single | Double.

(** A [Float32Array] ([Single]) or a [Float64Array] ([Double]). *)
Record FloatArray := { elt : precision; cells : list float }.

(** A location is the index of a typed array in the heap. *)
Abbreviation loc := nat (only parsing).

(** [farrays] holds the float arrays and [iarrays] the [Int32Array]s; a
    location is an index in the list and allocation appends, so that a
    location obtained from the heap always names an array (the primitives
    treat a location that names none as an array without cells). [oob] is a
    ghost flag: it is raised by every typed-array access outside the array
    and never lowered, and no function of the program reads it. *)
Record heap := {
  farrays : list FloatArray;
  iarrays : list (list Z);
  oob : bool
}.

Definition empty_heap : heap := {| farrays := []; iarrays := []; oob := false |}.

Definition flag_oob (h : heap) : heap :=
  {| farrays := farrays h; iarrays := iarrays h; oob := true |}.

Definition fcells (h : heap) (l : loc) : list float :=
  match farrays h !! l with Some a => cells a | None => [] end.

Definition icells (h : heap) (l : loc) : list Z :=
  match iarrays h !! l with Some a => a | None => [] end.

(** The value a cell of the array takes when [v] is stored in it. *)
Definition coerce (p : precision) (v : float) : float :=
  match p with Single => fround v | Double => v end.

Definition set_farray (h : heap) (l : loc) (a : FloatArray) : heap :=
  {| farrays := <[l := a]> (farrays h); iarrays := iarrays h; oob := oob h |}.

Definition set_iarray (h : heap) (l : loc) (a : list Z) : heap :=
  {| farrays := farrays h; iarrays := <[l := a]> (iarrays h); oob := oob h |}.

(** Allocation: the new array takes the next location. *)
Definition push_farray (h : heap) (a : FloatArray) : heap :=
  {| farrays := farrays h ++ [a]; iarrays := iarrays h; oob := oob h |}.

Definition push_iarray (h : heap) (a : list Z) : heap :=
  {| farrays := farrays h; iarrays := iarrays h ++ [a]; oob := oob h |}.

Definition in_range (i : Z) (len : nat) : bool :=
  (0 <=? i) && (i <? Z.of_nat len).

(** [ToInt32]: what an [Int32Array] cell holds after an integer is stored. *)
Definition to_int32 (z : Z) : Z := (z + 2 ^ 31) mod 2 ^ 32 - 2 ^ 31.

(** ** Exceptions and the monad *)

(** [LapackError] carries [info] and [functionName]; its message is
    interpolated text that no caller inspects, and is left out. [RangeError]
    is the engine's error for an invalid typed-array length or offset. *)
Inductive exn :=
  | LapackError (info : Z) (functionName : string)
  | RangeError.

Inductive outcome (A : Type) :=
  | Val (a : A)
  | Throw (e : exn).
Arguments Val {A} a.
Arguments Throw {A} e.

Definition M (A : Type) : Type := heap -> heap * outcome A.

Definition ret {A} (a : A) : M A := fun h => (h, Val a).

Definition bind {A B} (m : M A) (k : A -> M B) : M B :=
  fun h =>
    match m h with
    | (h', Val a) => k a h'
    | (h', Throw e) => (h', Throw e)
    end.

Definition throw {A} (e : exn) : M A := fun h => (h, Throw e).

(** [try { m } catch (error) { handler error }] *)
Definition try_catch {A} (m : M A) (handler : exn -> M A) : M A :=
  fun h =>
    match m h with
    | (h', Val a) => (h', Val a)
    | (h', Throw e) => handler e h'
    end.

Notation "'let*' x ':=' m 'in' k" := (bind m (fun x => k))
  (at level 10, x pattern, m at level 100, k at level 200).
Notation "m ';;' k" := (bind m (fun _ => k))
  (at level 100, k at level 200, right associativity).

(** [for (let k = lo; k < lo + cnt; k++) s = body(k, s)], where [s] stands
    for the local variables the body assigns. *)
Fixpoint loop_up {S} (body : Z -> S -> M S) (k : Z) (cnt : nat) (s : S) : M S :=
  match cnt with
  | O => ret s
  | Datatypes.S c => let* s' := body k s in loop_up body (k + 1) c s'
  end.

Definition for_range {S} (lo hi : Z) (body : Z -> S -> M S) (s : S) : M S :=
  loop_up body lo (Z.to_nat (hi - lo)) s.

(** [for (let k = lo; k < hi; k++) body(k)] for a body without locals. *)
Definition for_each (lo hi : Z) (body : Z -> M unit) : M unit :=
  for_range lo hi (fun k _ => body k) tt.

(** [for (let k = hi - 1; k >= hi - cnt; k--) body(k)] *)
Fixpoint loop_down (body : Z -> M unit) (hi : Z) (cnt : nat) : M unit :=
  match cnt with
  | O => ret tt
  | Datatypes.S c => body (hi - 1) ;; loop_down body (hi - 1) c
  end.

(** [for (let k = n - 1; k >= 0; k--) body(k)] *)
Definition for_down (n : Z) (body : Z -> M unit) : M unit :=
  loop_down body n (Z.to_nat n).

(** A loop whose body may [return] from the enclosing function: the body
    yields [Some r] to return [r] and [None] to go on. *)
Fixpoint loop_ret {R} (body : Z -> M (option R)) (k : Z) (cnt : nat) : M (option R) :=
  match cnt with
  | O => ret None
  | Datatypes.S c =>
      let* r := body k in
      match r with
      | Some x => ret (Some x)
      | None => loop_ret body (k + 1) c
      end
  end.

Definition for_ret {R} (lo hi : Z) (body : Z -> M (option R)) : M (option R) :=
  loop_ret body lo (Z.to_nat (hi - lo)).

(** ** Typed-array primitives *)

(** [new Float64Array(len)] and [new Float32Array(len)]: zero-filled; a
    negative length is a [RangeError]. (Running out of memory is not
    modelled.) *)
Definition new_FloatArray (p : precision) (len : Z) : M loc :=
  fun h =>
    if len <? 0 then (h, Throw RangeError)
    else (push_farray h {| elt := p; cells := replicate (Z.to_nat len) fzero |},
          Val (length (farrays h))).

(** [new Int32Array(len)] *)
Definition new_Int32Array (len : Z) : M loc :=
  fun h =>
    if len <? 0 then (h, Throw RangeError)
    else (push_iarray h (replicate (Z.to_nat len) 0), Val (length (iarrays h))).

(** [data.length] *)
Definition ta_length (l : loc) : M Z :=
  fun h => (h, Val (Z.of_nat (length (fcells h l)))).

(** [data[i]]: [None] is [undefined]. *)
Definition ta_read (l : loc) (i : Z) : M (option float) :=
  fun h =>
    if in_range i (length (fcells h l))
    then (h, Val (fcells h l !! Z.to_nat i))
    else (flag_oob h, Val None).

(** [data[i] = v]: ignored outside the array. *)
Definition ta_write (l : loc) (i : Z) (v : float) : M unit :=
  fun h =>
    match farrays h !! l with
    | Some a =>
        if in_range i (length (cells a))
        then (set_farray h l {| elt := elt a;
                                cells := <[Z.to_nat i := coerce (elt a) v]> (cells a) |},
              Val tt)
        else (flag_oob h, Val tt)
    | None => (flag_oob h, Val tt)
    end.

(** [data.fill(v)] *)
Definition ta_fill (l : loc) (v : float) : M unit :=
  fun h =>
    match farrays h !! l with
    | Some a =>
        (set_farray h l {| elt := elt a;
                           cells := replicate (length (cells a)) (coerce (elt a) v) |},
         Val tt)
    | None => (h, Val tt)
    end.

(** The cells of [data.subarray(0, stop)]: a negative [stop] counts from the
    end of the array, and both ends are clamped to the array. *)
Definition subarray_to (c : list float) (stop : Z) : list float :=
  let len := Z.of_nat (length c) in
  let e := if stop <? 0 then Z.max (len + stop) 0 else Z.min stop len in
  take (Z.to_nat e) c.

(** [target.set(source.subarray(0, stop))]: a [RangeError] when the source
    view is longer than the target. *)
Definition ta_set_from (target source : loc) (stop : Z) : M unit :=
  fun h =>
    let src := subarray_to (fcells h source) stop in
    match farrays h !! target with
    | Some a =>
        if (length (cells a) <? length src)%nat then (h, Throw RangeError)
        else (set_farray h target
                {| elt := elt a;
                   cells := (coerce (elt a) <$> src) ++ drop (length src) (cells a) |},
              Val tt)
    | None =>
        match src with
        | [] => (h, Val tt)
        | _ => (h, Throw RangeError)
        end
    end.

(** [ipiv[i]] and [ipiv[i] = z] on an [Int32Array]. *)
Definition ia_read (l : loc) (i : Z) : M (option Z) :=
  fun h =>
    if in_range i (length (icells h l))
    then (h, Val (icells h l !! Z.to_nat i))
    else (flag_oob h, Val None).

Definition ia_write (l : loc) (i : Z) (z : Z) : M unit :=
  fun h =>
    match iarrays h !! l with
    | Some a =>
        if in_range i (length a)
        then (set_iarray h l (<[Z.to_nat i := to_int32 z]> a), Val tt)
        else (flag_oob h, Val tt)
    | None => (flag_oob h, Val tt)
    end.

(** [ToNumber] of a value read from a typed array: [undefined] becomes NaN. *)
Definition to_number (o : option float) : float :=
  match o with Some v => v | None => NaN end.

(** ** [src/types/index.ts] *)

Inductive MatrixLayout := RowMajor | ColumnMajor.

Record Matrix := {
  data : loc;
  rows : Z;
  cols : Z;
  layout : MatrixLayout;
  leadingDimension : Z
}.

Record LapackResult := { info : Z }.

Record MatrixCreateOptions := {
  opt_layout : option MatrixLayout;
  opt_initialValue : option float
}.


Definition layout_eqb (a b : MatrixLayout) : bool :=
  match a, b with
  | RowMajor, RowMajor | ColumnMajor, ColumnMajor => true
  | _, _ => false
  end.

(** The offset both modules compute for the logical position [(i, j)]. *)
Definition offset (m : Matrix) (i j : Z) : Z :=
  match layout m with
  | ColumnMajor => j * leadingDimension m + i
  | RowMajor => i * leadingDimension m + j
  end.

(** [LapackResultWithData<T>] extends [LapackResult]; the empty object
    [{} as T] that the failure paths return is [None]. *)
Record LapackResultWithData (T : Type) := {
  lapack_result :> LapackResult;
  result : option T
}.
Arguments lapack_result {T} _.
Arguments result {T} _.

(** ** [src/utils/matrix.ts] *)

Module MatrixUtils.

Definition createMatrix (d : loc) (rows cols : Z) (options : MatrixCreateOptions)
  : M Matrix :=
  let layout := default ColumnMajor (opt_layout options) in
  let* len := ta_length d in
  if len <? rows * cols then throw (LapackError (-1) "createMatrix")
  else ret {| data := d; rows := rows; cols := cols; layout := layout;
              leadingDimension :=
                match layout with ColumnMajor => rows | RowMajor => cols end |}.

Definition createFloat64Matrix (rows cols : Z) (options : MatrixCreateOptions)
  : M Matrix :=
  let initialValue := default fzero (opt_initialValue options) in
  let* d := new_FloatArray Double (rows * cols) in
  (if fneq initialValue fzero then ta_fill d initialValue else ret tt) ;;
  createMatrix d rows cols options.

Definition createFloat32Matrix (rows cols : Z) (options : MatrixCreateOptions)
  : M Matrix :=
  let initialValue := default fzero (opt_initialValue options) in
  let* d := new_FloatArray Single (rows * cols) in
  (if fneq initialValue fzero then ta_fill d initialValue else ret tt) ;;
  createMatrix d rows cols options.

Definition validateIndices (matrix : Matrix) (i j : Z) : M unit :=
  if (i <? 0) || (rows matrix <=? i)
  then throw (LapackError (-1) "validateIndices")
  else if (j <? 0) || (cols matrix <=? j)
  then throw (LapackError (-1) "validateIndices")
  else ret tt.

(** The accessor is declared to return a [number]; a cell outside the buffer
    reads as [undefined], which every consumer coerces to NaN. *)
Definition getElement (matrix : Matrix) (i j : Z) : M float :=
  validateIndices matrix i j ;;
  let* v := ta_read (data matrix) (offset matrix i j) in
  ret (to_number v).

Definition setElement (matrix : Matrix) (i j : Z) (value : float) : M unit :=
  validateIndices matrix i j ;;
  ta_write (data matrix) (offset matrix i j) value.

Record Parameters := {
  n : option Z;
  nrhs : option Z;
  lda : option Z;
  ldb : option Z;
  functionName : option string
}.

Definition validateParameters (params : Parameters) : M unit :=
  let fname := default "unknown"%string (functionName params) in
  (match n params with
   | Some n => if n <? 0 then throw (LapackError (-1) fname) else ret tt
   | None => ret tt
   end) ;;
  (match nrhs params with
   | Some nrhs => if nrhs <? 0 then throw (LapackError (-2) fname) else ret tt
   | None => ret tt
   end) ;;
  (match lda params, n params with
   | Some lda, Some n =>
       if lda <? Z.max 1 n then throw (LapackError (-4) fname) else ret tt
   | _, _ => ret tt
   end) ;;
  (match ldb params, n params with
   | Some ldb, Some n =>
       if ldb <? Z.max 1 n then throw (LapackError (-7) fname) else ret tt
   | _, _ => ret tt
   end).

Definition copyMatrix (source target : Matrix) : M unit :=
  if negb (rows source =? rows target) || negb (cols source =? cols target)
  then throw (LapackError (-1) "copyMatrix")
  else if layout_eqb (layout source) (layout target)
          && (leadingDimension source =? leadingDimension target)
          && (leadingDimension source =? rows source)
  then ta_set_from (data target) (data source) (rows source * cols source)
  else
    for_each 0 (rows source) (fun i =>
      for_each 0 (cols source) (fun j =>
        let* v := getElement source i j in
        setElement target i j v)).

End MatrixUtils.

(** ** [src/linear-equations/dgesv.ts] *)

Module Dgesv.

Record DgesvInput := {
  A : Matrix;
  B : Matrix;
  overwriteInput : option bool
}.

Record DgesvOutput := {
  solution : Matrix;
  LU : Matrix;
  pivots : loc
}.

Inductive Trans := N | T | C.

(** The module's private accessors: the same offset as the public ones, no
    index check. *)
Definition getElement (matrix : Matrix) (i j : Z) : M float :=
  let* v := ta_read (data matrix) (offset matrix i j) in
  ret (to_number v).

Definition setElement (matrix : Matrix) (i j : Z) (value : float) : M unit :=
  ta_write (data matrix) (offset matrix i j) value.

(** The functions [dgetrf] and [dgetrs] are embedded loop by loop; each
    piece is named after what its lines do.

    [dgetrf], lines 121-130, the pivot search of step [k]: the locals
    [(maxRow, maxVal)] after the scan of rows [k .. n-1] of column [k]. *)
Definition pivot_search (A : Matrix) (k : Z) : M (Z * float) :=
  let n := rows A in
  let* a := getElement A k k in
  for_range (k + 1) n (fun i '(maxRow, maxVal) =>
    let* x := getElement A i k in
    let val := Math_abs x in
    if fgt val maxVal then ret (i, val) else ret (maxRow, maxVal))
    (k, Math_abs a).

(** The exchange of the rows [r1] and [r2] over [width] columns: lines
    141-145 of [dgetrf] ([width] is [n]) and 185-189 of [dgetrs] ([width] is
    [nrhs]). *)
Definition swap_rows (A : Matrix) (width r1 r2 : Z) : M unit :=
  for_each 0 width (fun j =>
    let* temp := getElement A r1 j in
    let* x := getElement A r2 j in
    setElement A r1 j x ;;
    setElement A r2 j temp).

(** [dgetrf], lines 149-158: the elimination below the pivot of step [k]. *)
Definition eliminate_column (A : Matrix) (k : Z) : M unit :=
  let n := rows A in
  let* pivot := getElement A k k in
  for_each (k + 1) n (fun i =>
    let* x := getElement A i k in
    let factor := fdiv x pivot in
    setElement A i k factor ;;
    for_each (k + 1) n (fun j =>
      let* a := getElement A i j in
      let* b := getElement A k j in
      let newVal := fsub a (fmul factor b) in
      setElement A i j newVal)).

(** [dgetrf], lines 120-158: the body of the [k] loop; [Some r] is
    [return r]. *)
Definition dgetrf_step (A : Matrix) (ipiv : loc) (k : Z) : M (option LapackResult) :=
  let n := rows A in
  let* (maxRow, maxVal) := pivot_search A k in
  ia_write ipiv k (maxRow + 1) ;;
  if feq maxVal fzero then ret (Some {| info := k + 1 |})
  else
    (if negb (maxRow =? k) then swap_rows A n k maxRow else ret tt) ;;
    eliminate_column A k ;;
    ret None.

Definition dgetrf (A : Matrix) (ipiv : loc) : M LapackResult :=
  let n := rows A in
  let* r := for_ret 0 n (dgetrf_step A ipiv) in
  match r with
  | Some res => ret res
  | None => ret {| info := 0 |}
  end.

(** [dgetrs], lines 183-190: the interchange of step [k]. In
    [ipiv[k]! - 1] an entry outside [ipiv] makes the row index NaN; the reads
    of that row then yield [undefined] and the writes to it are ignored (the
    read of [ipiv] has raised [oob] already). *)
Definition apply_interchange (ipiv : loc) (B : Matrix) (k : Z) : M unit :=
  let nrhs := cols B in
  let* p := ia_read ipiv k in
  match p with
  | Some p =>
      let pivotRow := p - 1 in
      if negb (pivotRow =? k) then swap_rows B nrhs k pivotRow else ret tt
  | None =>
      for_each 0 nrhs (fun j =>
        let* temp := getElement B k j in
        setElement B k j NaN)
  end.

(** [dgetrs], lines 194-202. *)
Definition forward_substitution (A B : Matrix) : M unit :=
  let n := rows A in
  let nrhs := cols B in
  for_each 0 (n - 1) (fun k =>
    for_each (k + 1) n (fun i =>
      let* factor := getElement A i k in
      for_each 0 nrhs (fun j =>
        let* b := getElement B i j in
        let* c := getElement B k j in
        let newVal := fsub b (fmul factor c) in
        setElement B i j newVal))).

(** [dgetrs], lines 205-218. *)
Definition back_substitution (A B : Matrix) : M unit :=
  let n := rows A in
  let nrhs := cols B in
  for_down n (fun k =>
    let* pivot := getElement A k k in
    for_each 0 nrhs (fun j =>
      let* b := getElement B k j in
      setElement B k j (fdiv b pivot)) ;;
    for_each 0 k (fun i =>
      let* factor := getElement A i k in
      for_each 0 nrhs (fun j =>
        let* b := getElement B i j in
        let* c := getElement B k j in
        let newVal := fsub b (fmul factor c) in
        setElement B i j newVal))).

Definition dgetrs (trans : Trans) (A : Matrix) (ipiv : loc) (B : Matrix)
  : M LapackResult :=
  match trans with
  | N =>
      let n := rows A in
      for_each 0 n (apply_interchange ipiv B) ;;
      forward_substitution A B ;;
      back_substitution A B ;;
      ret {| info := 0 |}
  | _ => throw (LapackError (-1) "DGETRS")
  end.

Definition failure (i : Z) : LapackResultWithData DgesvOutput :=
  {| lapack_result := {| info := i |}; result := None |}.

Definition dgesv (input : DgesvInput) : M (LapackResultWithData DgesvOutput) :=
  let A := A input in
  let B := B input in
  let overwriteInput := default false (overwriteInput input) in
  if negb (rows A =? cols A) then ret (failure (-1))
  else if negb (rows A =? rows B) then ret (failure (-1))
  else
    let n := rows A in
    let nrhs := cols B in
    let* invalid :=
      try_catch
        (MatrixUtils.validateParameters
           {| MatrixUtils.n := Some n;
              MatrixUtils.nrhs := Some nrhs;
              MatrixUtils.lda := Some (leadingDimension A);
              MatrixUtils.ldb := Some (leadingDimension B);
              MatrixUtils.functionName := Some "DGESV"%string |} ;;
         ret None)
        (fun error =>
           match error with
           | LapackError i _ => ret (Some (failure i))
           | _ => throw error
           end) in
    match invalid with
    | Some r => ret r
    | None =>
        let* workA :=
          if overwriteInput then ret A
          else MatrixUtils.createFloat64Matrix n n
                 {| opt_layout := Some (layout A); opt_initialValue := None |} in
        let* workB :=
          if overwriteInput then ret B
          else MatrixUtils.createFloat64Matrix n nrhs
                 {| opt_layout := Some (layout B); opt_initialValue := None |} in
        (if negb overwriteInput
         then MatrixUtils.copyMatrix A workA ;; MatrixUtils.copyMatrix B workB
         else ret tt) ;;
        let* pivots := new_Int32Array n in
        let* luResult := dgetrf workA pivots in
        if negb (info luResult =? 0) then ret (failure (info luResult))
        else
          let* solveResult := dgetrs N workA pivots workB in
          if negb (info solveResult =? 0) then ret (failure (info solveResult))
          else
            ret {| lapack_result := {| info := 0 |};
                   result := Some {| solution := workB; LU := workA;
                                     pivots := pivots |} |}
    end.

End Dgesv.

(** *** [dgesv] in two halves

    [dgesv_prepare] is the text of [dgesv] up to [new Int32Array(n)]: the
    shape checks, the parameter validation and then the working copies
    ([dgesv_working_copies]); it yields either the result of an early [return]
    or the working matrices and the pivot array. [dgesv_solve] is the rest.
    [dgesv_split] below shows that [dgesv] is their composition. *)

Definition dgesv_working_copies (input : Dgesv.DgesvInput)
  : M (LapackResultWithData Dgesv.DgesvOutput + Matrix * Matrix * loc) :=
  let A := Dgesv.A input in
  let B := Dgesv.B input in
  let overwriteInput := default false (Dgesv.overwriteInput input) in
  let n := rows A in
  let nrhs := cols B in
  let* workA :=
    if overwriteInput then ret A
    else MatrixUtils.createFloat64Matrix n n
           {| opt_layout := Some (layout A); opt_initialValue := None |} in
  let* workB :=
    if overwriteInput then ret B
    else MatrixUtils.createFloat64Matrix n nrhs
           {| opt_layout := Some (layout B); opt_initialValue := None |} in
  (if negb overwriteInput
   then MatrixUtils.copyMatrix A workA ;; MatrixUtils.copyMatrix B workB
   else ret tt) ;;
  let* pivots := new_Int32Array n in
  ret (inr (workA, workB, pivots)).

Definition dgesv_prepare (input : Dgesv.DgesvInput)
  : M (LapackResultWithData Dgesv.DgesvOutput + Matrix * Matrix * loc) :=
  let A := Dgesv.A input in
  let B := Dgesv.B input in
  if negb (rows A =? cols A) then ret (inl (Dgesv.failure (-1)))
  else if negb (rows A =? rows B) then ret (inl (Dgesv.failure (-1)))
  else
    let n := rows A in
    let nrhs := cols B in
    let* invalid :=
      try_catch
        (MatrixUtils.validateParameters
           {| MatrixUtils.n := Some n;
              MatrixUtils.nrhs := Some nrhs;
              MatrixUtils.lda := Some (leadingDimension A);
              MatrixUtils.ldb := Some (leadingDimension B);
              MatrixUtils.functionName := Some "DGESV"%string |} ;;
         ret None)
        (fun error =>
           match error with
           | LapackError i _ => ret (Some (Dgesv.failure i))
           | _ => throw error
           end) in
    match invalid with
    | Some r => ret (inl r)
    | None => dgesv_working_copies input
    end.

Definition dgesv_solve (workA workB : Matrix) (pivots : loc)
  : M (LapackResultWithData Dgesv.DgesvOutput) :=
  let* luResult := Dgesv.dgetrf workA pivots in
  if negb (info luResult =? 0) then ret (Dgesv.failure (info luResult))
  else
    let* solveResult := Dgesv.dgetrs Dgesv.N workA pivots workB in
    if negb (info solveResult =? 0) then ret (Dgesv.failure (info solveResult))
    else
      ret {| lapack_result := {| info := 0 |};
             result := Some {| Dgesv.solution := workB; Dgesv.LU := workA;
                               Dgesv.pivots := pivots |} |}.

(** The view and the buffer that [createFloat64Matrix] allocates when no
    initial value is given. *)
Definition fresh_matrix (l : loc) (r c : Z) (lay : MatrixLayout) : Matrix :=
  {| data := l; rows := r; cols := c; layout := lay;
     leadingDimension := match lay with ColumnMajor => r | RowMajor => c end |}.

Definition zeros (len : Z) : FloatArray :=
  {| elt := Double; cells := replicate (Z.to_nat len) fzero |}.

(** The status of the early returns of [dgesv]: the two shape checks, then
    the checks of [validateParameters] in the order in which it makes them;
    0 when they all pass. [dgesv_prepare_rejects] below relates it to the
    code. *)
Definition early_status (A B : Matrix) : Z :=
  if negb (rows A =? cols A) then -1
  else if negb (rows A =? rows B) then -1
  else if rows A <? 0 then -1
  else if cols B <? 0 then -2
  else if leadingDimension A <? Z.max 1 (rows A) then -4
  else if leadingDimension B <? Z.max 1 (rows A) then -7
  else 0.

(** ** Specifications *)

(** Total correctness without exceptions: from a heap satisfying [P], [m]
    returns a value [a] and a heap satisfying [Q a]. *)
Definition triple {A} (P : heap -> Prop) (m : M A) (Q : A -> heap -> Prop) : Prop :=
  forall h, P h -> exists a h', m h = (h', Val a) /\ Q a h'.

(** [I] is kept by a read and by a write of cell [idx] of the float array
    [l]. *)
Definition access (I : heap -> Prop) (l : loc) (idx : Z) : Prop :=
  triple I (ta_read l idx) (fun _ => I) /\
  forall v, triple I (ta_write l idx v) (fun _ => I).

(** [I] is kept by the accesses to the positions of the leading [nr] by [nc]
    block of the view [m]. *)
Definition accessible (I : heap -> Prop) (m : Matrix) (nr nc : Z) : Prop :=
  forall i j, 0 <= i < nr -> 0 <= j < nc -> access I (data m) (offset m i j).

(** ... and by the reads of those positions alone. *)
Definition readable (I : heap -> Prop) (m : Matrix) (nr nc : Z) : Prop :=
  forall i j, 0 <= i < nr -> 0 <= j < nc ->
    triple I (ta_read (data m) (offset m i j)) (fun _ => I).

(** The float arrays below location [N] are the same in [h] and [h'], and so
    are the integer arrays below [K]. *)
Definition frame (N K : nat) (h h' : heap) : Prop :=
  (N <= length (farrays h'))%nat /\ (K <= length (iarrays h'))%nat /\
  (forall l, (l < N)%nat -> farrays h' !! l = farrays h !! l) /\
  (forall l, (l < K)%nat -> iarrays h' !! l = iarrays h !! l).

(** A dense view, with the leading dimension that [createMatrix] gives,
    over a buffer that exists and has at least [rows * cols] cells. (A typed
    array has fewer than [2^53] cells.) *)
Definition dense (h : heap) (m : Matrix) : Prop :=
  leadingDimension m =
    match layout m with ColumnMajor => rows m | RowMajor => cols m end /\
  (data m < length (farrays h))%nat /\
  rows m * cols m <= Z.of_nat (length (fcells h (data m))) < 2 ^ 53.

(** An entry of the pivot array written by step [k] of the factorisation of
    a matrix of order [n]. *)
Definition pivot_in_range (n k : Z) (p : option Z) : Prop :=
  exists q, p = Some q /\ k + 1 <= q <= n.

(** The lengths of the float arrays of the heap, by location. *)
Definition shape (h : heap) : list nat := (fun a => length (cells a)) <$> farrays h.

(** The invariant of the frame proof: the arrays that existed in [h0] are
    untouched and no array has changed its length. *)
Definition framed (N K : nat) (h0 : heap) (Ls : list nat) (h : heap) : Prop :=
  frame N K h0 h /\ shape h = Ls.

(** The invariant of the bounds-safety proof: no access outside an array has
    happened and no array has changed its length. *)
Definition quiet (Ls : list nat) (h : heap) : Prop :=
  oob h = false /\ shape h = Ls.

(** ... and, during the factorisation and the solve, the pivot array has [n]
    cells, the first [k] of which are in range. *)
Definition safe (Ls : list nat) (ipiv : loc) (n k : Z) (h : heap) : Prop :=
  quiet Ls h /\
  Z.of_nat (length (icells h ipiv)) = n /\
  (ipiv < length (iarrays h))%nat /\
  forall i, 0 <= i < k -> pivot_in_range n i (icells h ipiv !! Z.to_nat i).

(** ** Layout independence *)

(** The number at the logical position [(i, j)] of a view. *)
Definition entry (h : heap) (m : Matrix) (i j : Z) : float :=
  to_number (fcells h (data m) !! Z.to_nat (offset m i j)).

(** A dense view over a [Float64Array] that holds all its positions. *)
Definition backed (h : heap) (m : Matrix) : Prop :=
  leadingDimension m =
    match layout m with ColumnMajor => rows m | RowMajor => cols m end /\
  exists a, farrays h !! data m = Some a /\ elt a = Double /\
            rows m * cols m <= Z.of_nat (length (cells a)).

(** The leading [nr] by [nc] blocks of two views hold the same numbers. *)
Definition same_entries (nr nc : Z) (h1 : heap) (m1 : Matrix) (h2 : heap) (m2 : Matrix)
  : Prop :=
  forall i j, 0 <= i < nr -> 0 <= j < nc -> entry h1 m1 i j = entry h2 m2 i j.

(** Two runs in lockstep: from heaps related by [R] both computations return,
    with the same value, in heaps related by [Q]. *)
Definition triple2 {A} (R : heap -> heap -> Prop) (m1 m2 : M A)
    (Q : A -> heap -> heap -> Prop) : Prop :=
  forall h1 h2, R h1 h2 ->
    exists a h1' h2', m1 h1 = (h1', Val a) /\ m2 h2 = (h2', Val a) /\ Q a h1' h2'.

(** [R] is kept by the private accessors at position [(i, j)] of the two
    views, which read the same number there. *)
Definition access2 (R : heap -> heap -> Prop) (m1 m2 : Matrix) (i j : Z) : Prop :=
  triple2 R (Dgesv.getElement m1 i j) (Dgesv.getElement m2 i j) (fun _ => R) /\
  forall v, triple2 R (Dgesv.setElement m1 i j v) (Dgesv.setElement m2 i j v)
              (fun _ => R).

(** The relation between the two runs of the factorisation and the solve:
    the working matrices are backed and hold the same numbers, the pivot
    arrays are equal, have [n] cells, and their first [k] cells are in
    range. *)
Definition coupled (A1 B1 A2 B2 : Matrix) (p1 p2 : loc) (n nrhs k : Z)
    (h1 h2 : heap) : Prop :=
  backed h1 A1 /\ backed h1 B1 /\ backed h2 A2 /\ backed h2 B2 /\
  same_entries n n h1 A1 h2 A2 /\ same_entries n nrhs h1 B1 h2 B2 /\
  icells h1 p1 = icells h2 p2 /\
  Z.of_nat (length (icells h1 p1)) = n /\
  (p1 < length (iarrays h1))%nat /\ (p2 < length (iarrays h2))%nat /\
  forall i, 0 <= i < k -> pivot_in_range n i (icells h1 p1 !! Z.to_nat i).

(** What a copy into [tgt] leaves alone. *)
Definition copy_frame (tgt : Matrix) (h h' : heap) : Prop :=
  iarrays h' = iarrays h /\
  length (farrays h') = length (farrays h) /\
  (forall l, l <> data tgt -> farrays h' !! l = farrays h !! l) /\
  (forall m', backed h m' -> backed h' m').

(** ** The scenarios of the test-suite *)

(** A matrix is built with [createFloat64Matrix] and filled entry by entry
    with [setElement], and a result is read back with [getElement]. *)
Fixpoint fill_row (m : Matrix) (i j : Z) (vs : list Z) : M unit :=
  match vs with
  | [] => ret tt
  | v :: vs' =>
      MatrixUtils.setElement m i j (float_of_Z v) ;; fill_row m i (j + 1) vs'
  end.

Fixpoint fill_rows (m : Matrix) (i : Z) (rs : list (list Z)) : M unit :=
  match rs with
  | [] => ret tt
  | r :: rs' => fill_row m i 0 r ;; fill_rows m (i + 1) rs'
  end.

Definition matrix_of_rows (lay : MatrixLayout) (nr nc : Z) (rs : list (list Z))
  : M Matrix :=
  let* m := MatrixUtils.createFloat64Matrix nr nc
              {| opt_layout := Some lay; opt_initialValue := None |} in
  fill_rows m 0 rs ;;
  ret m.

Fixpoint read_row (m : Matrix) (i j : Z) (cnt : nat) : M (list float) :=
  match cnt with
  | O => ret []
  | Datatypes.S c =>
      let* x := MatrixUtils.getElement m i j in
      let* xs := read_row m i (j + 1) c in
      ret (x :: xs)
  end.

Fixpoint read_rows (m : Matrix) (i : Z) (cnt : nat) : M (list (list float)) :=
  match cnt with
  | O => ret []
  | Datatypes.S c =>
      let* r := read_row m i 0 (Z.to_nat (cols m)) in
      let* rs := read_rows m (i + 1) c in
      ret (r :: rs)
  end.

Definition read_matrix (m : Matrix) : M (list (list float)) :=
  read_rows m 0 (Z.to_nat (rows m)).

(** [dgesv({A, B})] on the [n] by [n] matrix [a] and the [n] by [nrhs]
    right-hand side [b], built in the layouts [la] and [lb] from an empty
    heap: the status and, when a solution is returned, its rows. *)
Definition solve (la lb : MatrixLayout) (n nrhs : Z) (a b : list (list Z))
  : outcome (Z * option (list (list float))) :=
  snd ((let* A := matrix_of_rows la n n a in
        let* B := matrix_of_rows lb n nrhs b in
        let* r := Dgesv.dgesv {| Dgesv.A := A; Dgesv.B := B;
                                 Dgesv.overwriteInput := None |} in
        match result r with
        | None => ret (info r, None)
        | Some o =>
            let* x := read_matrix (Dgesv.solution o) in
            ret (info r, Some x)
        end) empty_heap).

(** The matcher [toBeCloseTo(expected, precision)] of [test-setup.ts]:
    [Math.abs(received - expected) < Math.pow(10, -precision)], the power
    being the binary64 number nearest to [10^-precision]. *)
Definition toBeCloseTo (received expected : float) (precision : Z) : bool :=
  SFltb (Math_abs (fsub received expected))
        (fdiv (float_of_Z 1) (float_of_Z (10 ^ precision))).

Definition all_close (received : list (list float)) (expected : list (list Z))
  (precision : Z) : bool :=
  forallb (fun '(r, e) =>
             forallb (fun '(x, y) => toBeCloseTo x (float_of_Z y) precision)
                     (zip r e))
          (zip received expected)
  && (length received =? length expected)%nat.


(** A caller's heap holding A = [[2,1],[1,3]] and B = [[3],[4]], and one
    holding the singular A = [[1,2],[2,4]] and B = [[1],[2]], column-major,
    with the views over them. *)
Definition system_heap (a b : list Z) : heap :=
  {| farrays := [ {| elt := Double; cells := float_of_Z <$> a |};
                  {| elt := Double; cells := float_of_Z <$> b |} ];
     iarrays := [];
     oob := false |}.

Definition system_input (n nrhs : Z) (overwrite : option bool) : Dgesv.DgesvInput :=
  {| Dgesv.A := fresh_matrix 0 n n ColumnMajor;
     Dgesv.B := fresh_matrix 1 n nrhs ColumnMajor;
     Dgesv.overwriteInput := overwrite |}.

Definition regular_heap : heap := system_heap [2; 1; 1; 3] [3; 4].
Definition singular_heap : heap := system_heap [1; 2; 2; 4] [1; 2].

(** A = [[2,1],[1,3]] and the two right-hand sides B = [[3,5],[4,10]],
    row-major in the first heap and column-major in the second. *)
Definition row_major_heap : heap := system_heap [2; 1; 1; 3] [3; 5; 4; 10].
Definition column_major_heap : heap := system_heap [2; 1; 1; 3] [3; 4; 5; 10].

Definition layout_input (lay : MatrixLayout) : Dgesv.DgesvInput :=
  {| Dgesv.A := fresh_matrix 0 2 2 lay;
     Dgesv.B := fresh_matrix 1 2 2 lay;
     Dgesv.overwriteInput := None |}.

(** The number literal [0.1]. *)
Definition one_tenth : float := fdiv (float_of_Z 1) (float_of_Z 10).

(** ** What the factorisation and the solve leave alone *)

(** The heap [h] differs from [h0] at most in the cells of the float array
    [lf] and of the integer array [li]: no array has been allocated or
    resized and every other array is as it was. *)
Definition touched (lf li : loc) (h0 h : heap) : Prop :=
  shape h = shape h0 /\
  length (iarrays h) = length (iarrays h0) /\
  (forall l, l <> lf -> farrays h !! l = farrays h0 !! l) /\
  (forall l, l <> li -> iarrays h !! l = iarrays h0 !! l) /\
  length (icells h li) = length (icells h0 li).

(** ... and, after [k] steps of the factorisation of a matrix of order [n],
    the first [k] pivots are in range and the others are as they were. *)
Definition factoring (lf li : loc) (n : Z) (h0 : heap) (k : Z) (h : heap) : Prop :=
  touched lf li h0 h /\
  (forall i, 0 <= i < k -> pivot_in_range n i (icells h li !! Z.to_nat i)) /\
  (forall i, k <= i -> icells h li !! Z.to_nat i = icells h0 li !! Z.to_nat i).

(** The heap [h] differs from [h0] at most in the cells of the float array
    [lb]. *)
Definition solving (lb : loc) (h0 h : heap) : Prop :=
  shape h = shape h0 /\ iarrays h = iarrays h0 /\
  forall l, l <> lb -> farrays h !! l = farrays h0 !! l.

(** ** In-place updates of a view *)

(** The heap [h] comes from [h0] by writes to the entries of the backed view
    [m], which now hold the numbers [f i j]; nothing else has changed. *)
Definition updated (m : Matrix) (h0 h : heap) (f : Z -> Z -> float) : Prop :=
  backed h m /\
  iarrays h = iarrays h0 /\
  shape h = shape h0 /\
  (forall l, l <> data m -> farrays h !! l = farrays h0 !! l) /\
  forall i j, 0 <= i < rows m -> 0 <= j < cols m -> entry h m i j = f i j.

(** The 2 by 2 scenario with a NaN in the first entry of [A]. *)
Definition nan_heap : heap :=
  {| farrays := [ {| elt := Double;
                     cells := [NaN; float_of_Z 1; float_of_Z 1; float_of_Z 3] |};
                  {| elt := Double; cells := [float_of_Z 3; float_of_Z 4] |} ];
     iarrays := [];
     oob := false |}.

(** * Proofs *)

(** ** The monad and its loops *)

Lemma dgesv_split input h :
  Dgesv.dgesv input h =
  (let* x := dgesv_prepare input in
   match x with
   | inl r => ret r
   | inr (workA, workB, pivots) => dgesv_solve workA workB pivots
   end) h.
Proof.
  unfold Dgesv.dgesv, dgesv_prepare, dgesv_working_copies, dgesv_solve.
  destruct (negb (rows (Dgesv.A input) =? cols (Dgesv.A input))); [reflexivity|].
  destruct (negb (rows (Dgesv.A input) =? rows (Dgesv.B input))); [reflexivity|].
  destruct (default false (Dgesv.overwriteInput input)); cbn [negb];
    unfold bind; destruct (try_catch _ _ h) as [h1 [[r|]|e]]; try reflexivity;
    repeat match goal with
           | |- context [match ?m ?h with _ => _ end] =>
               destruct (m h) as [? [?|?]]; try reflexivity
           end.
Qed.

Section Hoare.
Context {A B : Type}.

Lemma triple_ret (P : heap -> Prop) (a : A) (Q : A -> heap -> Prop) :
  (forall h, P h -> Q a h) -> triple P (ret a) Q.
Proof. intros H h Hh. exists a, h. split; [reflexivity | auto]. Qed.

Lemma triple_bind (P : heap -> Prop) (m : M A) (R : A -> heap -> Prop)
    (k : A -> M B) (Q : B -> heap -> Prop) :
  triple P m R -> (forall a, triple (R a) (k a) Q) -> triple P (bind m k) Q.
Proof.
  intros Hm Hk h Hh. destruct (Hm h Hh) as (a & h1 & E1 & H1).
  destruct (Hk a h1 H1) as (b & h2 & E2 & H2).
  exists b, h2. unfold bind. rewrite E1. auto.
Qed.

Lemma triple_conseq (P P' : heap -> Prop) (m : M A) (Q Q' : A -> heap -> Prop) :
  triple P' m Q' -> (forall h, P h -> P' h) -> (forall a h, Q' a h -> Q a h) ->
  triple P m Q.
Proof.
  intros Hm HP HQ h Hh. destruct (Hm h (HP h Hh)) as (a & h1 & E & H1).
  exists a, h1. auto.
Qed.

Lemma triple_assume (phi : Prop) (P : heap -> Prop) (m : M A) (Q : A -> heap -> Prop) :
  (phi -> triple P m Q) -> triple (fun h => P h /\ phi) m Q.
Proof. intros H h [Hh Hphi]. now apply H. Qed.

Lemma triple_if (b : bool) (P : heap -> Prop) (m1 m2 : M A) (Q : A -> heap -> Prop) :
  (b = true -> triple P m1 Q) -> (b = false -> triple P m2 Q) ->
  triple P (if b then m1 else m2) Q.
Proof. destruct b; auto. Qed.
End Hoare.

Lemma triple_loop_up {S} (Inv : Z -> S -> heap -> Prop) (body : Z -> S -> M S)
    (cnt : nat) : forall (lo : Z) (s : S),
  (forall k s, lo <= k < lo + Z.of_nat cnt ->
     triple (Inv k s) (body k s) (Inv (k + 1))) ->
  triple (Inv lo s) (loop_up body lo cnt s) (Inv (lo + Z.of_nat cnt)).
Proof.
  induction cnt as [|c IH]; intros lo s Hbody; simpl loop_up.
  - apply triple_ret. intros h Hh. now replace (lo + Z.of_nat 0) with lo by lia.
  - eapply triple_bind.
    + apply Hbody. lia.
    + intros s'. replace (lo + Z.of_nat (Datatypes.S c)) with (lo + 1 + Z.of_nat c) by lia.
      apply IH. intros k s0 Hk. apply Hbody. lia.
Qed.

Lemma triple_for_range {S} (Inv : Z -> S -> heap -> Prop) (lo hi : Z)
    (body : Z -> S -> M S) (s : S) :
  (forall k s, lo <= k < hi -> triple (Inv k s) (body k s) (Inv (k + 1))) ->
  triple (Inv lo s) (for_range lo hi body s) (Inv (Z.max lo hi)).
Proof.
  intros Hbody. unfold for_range.
  replace (Z.max lo hi) with (lo + Z.of_nat (Z.to_nat (hi - lo))) by lia.
  apply triple_loop_up. intros k s0 Hk. apply Hbody. lia.
Qed.

(** The loops of the program whose bodies keep one invariant. *)
Lemma triple_for_each (I : heap -> Prop) (lo hi : Z) (body : Z -> M unit) :
  (forall k, lo <= k < hi -> triple I (body k) (fun _ => I)) ->
  triple I (for_each lo hi body) (fun _ => I).
Proof.
  intros Hbody. unfold for_each.
  apply (triple_for_range (fun _ _ => I) lo hi (fun k _ => body k) tt).
  intros k _ Hk. now apply Hbody.
Qed.

Lemma triple_for_down (I : heap -> Prop) (n : Z) (body : Z -> M unit) :
  (forall k, 0 <= k < n -> triple I (body k) (fun _ => I)) ->
  triple I (for_down n body) (fun _ => I).
Proof.
  unfold for_down. intros Hbody.
  assert (G : forall cnt hi,
              (forall k, hi - Z.of_nat cnt <= k < hi -> triple I (body k) (fun _ => I)) ->
              triple I (loop_down body hi cnt) (fun _ => I)).
  { induction cnt as [|c IH]; intros hi Hhi; simpl loop_down.
    - now apply triple_ret.
    - eapply triple_bind; [apply Hhi; lia|]. intros u. apply IH.
      intros k Hk. apply Hhi. lia. }
  apply G. intros k Hk. apply Hbody. lia.
Qed.

Lemma triple_loop_ret {R} (Inv : Z -> heap -> Prop) (Q : R -> heap -> Prop)
    (body : Z -> M (option R)) (cnt : nat) : forall lo : Z,
  (forall k, lo <= k < lo + Z.of_nat cnt ->
     triple (Inv k) (body k)
       (fun r h => match r with Some x => Q x h | None => Inv (k + 1) h end)) ->
  triple (Inv lo) (loop_ret body lo cnt)
    (fun r h => match r with
                | Some x => Q x h
                | None => Inv (lo + Z.of_nat cnt) h
                end).
Proof.
  induction cnt as [|c IH]; intros lo Hbody; simpl loop_ret.
  - apply triple_ret. intros h Hh. now replace (lo + Z.of_nat 0) with lo by lia.
  - eapply triple_bind; [apply Hbody; lia|].
    intros [x|].
    + now apply triple_ret.
    + replace (lo + Z.of_nat (Datatypes.S c)) with (lo + 1 + Z.of_nat c) by lia.
      apply IH. intros k Hk. apply Hbody. lia.
Qed.

(** A loop with early return that ran [a] steps without returning goes on
    from there. *)
Lemma loop_ret_app {R} (body : Z -> M (option R)) (a : nat) :
  forall (b : nat) (lo : Z) (h h1 : heap),
  loop_ret body lo a h = (h1, Val None) ->
  loop_ret body lo (a + b) h = loop_ret body (lo + Z.of_nat a) b h1.
Proof.
  induction a as [|a IH]; intros b lo h h1 E; simpl in E |- *.
  - unfold ret in E. assert (h1 = h) as -> by congruence.
    now rewrite Z.add_0_r.
  - unfold bind in E |- *. destruct (body lo h) as [h2 [[x|]|e]]; try discriminate.
    rewrite (IH b (lo + 1) h2 h1 E). f_equal. lia.
Qed.

(** ** What the accessors and the loops of the solver keep

    The lemmas of this section follow the text of the solver once, for an
    arbitrary invariant: whatever the accesses to the cells of the views keep
    is kept by the routine. They are used below with the frame invariant
    (every access keeps it) and with the bounds-safety invariant (the accesses
    inside the buffer keep it). *)

Section Keeps.
Variable I : heap -> Prop.

Lemma getElement_reads m i j :
  triple I (ta_read (data m) (offset m i j)) (fun _ => I) ->
  triple I (Dgesv.getElement m i j) (fun _ => I).
Proof.
  intros Hr. unfold Dgesv.getElement.
  eapply triple_bind; [exact Hr|]. intros v. now apply triple_ret.
Qed.

Lemma getElement_keeps m i j :
  access I (data m) (offset m i j) ->
  triple I (Dgesv.getElement m i j) (fun _ => I).
Proof. intros [Hr _]. now apply getElement_reads. Qed.

Lemma setElement_keeps m i j v :
  access I (data m) (offset m i j) ->
  triple I (Dgesv.setElement m i j v) (fun _ => I).
Proof. intros [_ Hw]. apply Hw. Qed.

Lemma swap_rows_keeps m width r1 r2 :
  (forall j, 0 <= j < width -> access I (data m) (offset m r1 j)) ->
  (forall j, 0 <= j < width -> access I (data m) (offset m r2 j)) ->
  triple I (Dgesv.swap_rows m width r1 r2) (fun _ => I).
Proof.
  intros H1 H2. unfold Dgesv.swap_rows. apply triple_for_each. intros j Hj.
  eapply triple_bind; [apply getElement_keeps; auto|]. intros temp.
  eapply triple_bind; [apply getElement_keeps; auto|]. intros x.
  eapply triple_bind; [apply setElement_keeps; auto|]. intros u.
  apply setElement_keeps; auto.
Qed.

(** The pivot search only reads, and selects a row between [k] and the
    last. *)
Lemma pivot_search_reads m k :
  0 <= k < rows m ->
  (forall i, k <= i < rows m ->
     triple I (ta_read (data m) (offset m i k)) (fun _ => I)) ->
  triple I (Dgesv.pivot_search m k)
    (fun r h => I h /\ k <= fst r < rows m).
Proof.
  intros Hk Hacc. unfold Dgesv.pivot_search.
  eapply triple_bind; [apply getElement_reads, Hacc; lia|]. intros a.
  eapply triple_conseq with (P' := fun h => I h /\ k <= fst (k, Math_abs a) < rows m).
  - apply (triple_for_range (fun _ r h => I h /\ k <= fst r < rows m)).
    intros i [maxRow maxVal] Hi. apply triple_assume. intros Hr.
    eapply triple_bind; [apply getElement_reads, Hacc; lia|]. intros x. cbv zeta.
    destruct (fgt _ _); apply triple_ret; intros h Hh; cbn in *; (split; [exact Hh | lia]).
  - intros h Hh; cbn; split; [auto | lia].
  - intros r h Hh. exact Hh.
Qed.

Lemma pivot_search_keeps m k :
  0 <= k < rows m ->
  (forall i, k <= i < rows m -> access I (data m) (offset m i k)) ->
  triple I (Dgesv.pivot_search m k)
    (fun r h => I h /\ k <= fst r < rows m).
Proof.
  intros Hk Hacc. apply pivot_search_reads; [exact Hk|].
  intros i Hi. apply Hacc, Hi.
Qed.

Lemma eliminate_column_keeps m k :
  0 <= k < rows m ->
  accessible I m (rows m) (rows m) ->
  triple I (Dgesv.eliminate_column m k) (fun _ => I).
Proof.
  intros Hk Hacc. unfold Dgesv.eliminate_column.
  eapply triple_bind; [apply getElement_keeps, Hacc; lia|]. intros pivot.
  apply triple_for_each. intros i Hi.
  eapply triple_bind; [apply getElement_keeps, Hacc; lia|]. intros x. cbv zeta.
  eapply triple_bind; [apply setElement_keeps, Hacc; lia|]. intros u.
  apply triple_for_each. intros j Hj.
  eapply triple_bind; [apply getElement_keeps, Hacc; lia|]. intros a.
  eapply triple_bind; [apply getElement_keeps, Hacc; lia|]. intros b.
  apply setElement_keeps, Hacc; lia.
Qed.

Lemma forward_substitution_keeps mA mB :
  accessible I mA (rows mA) (rows mA) ->
  accessible I mB (rows mA) (cols mB) ->
  triple I (Dgesv.forward_substitution mA mB) (fun _ => I).
Proof.
  intros HA HB. unfold Dgesv.forward_substitution.
  apply triple_for_each. intros k Hk.
  apply triple_for_each. intros i Hi.
  eapply triple_bind; [apply getElement_keeps, HA; lia|]. intros factor.
  apply triple_for_each. intros j Hj.
  eapply triple_bind; [apply getElement_keeps, HB; lia|]. intros b.
  eapply triple_bind; [apply getElement_keeps, HB; lia|]. intros c.
  apply setElement_keeps, HB; lia.
Qed.

Lemma back_substitution_keeps mA mB :
  accessible I mA (rows mA) (rows mA) ->
  accessible I mB (rows mA) (cols mB) ->
  triple I (Dgesv.back_substitution mA mB) (fun _ => I).
Proof.
  intros HA HB. unfold Dgesv.back_substitution.
  apply triple_for_down. intros k Hk.
  eapply triple_bind; [apply getElement_keeps, HA; lia|]. intros pivot.
  eapply triple_bind.
  { apply triple_for_each. intros j Hj.
    eapply triple_bind; [apply getElement_keeps, HB; lia|]. intros b.
    apply setElement_keeps, HB; lia. }
  intros u. apply triple_for_each. intros i Hi.
  eapply triple_bind; [apply getElement_keeps, HA; lia|]. intros factor.
  apply triple_for_each. intros j Hj.
  eapply triple_bind; [apply getElement_keeps, HB; lia|]. intros b.
  eapply triple_bind; [apply getElement_keeps, HB; lia|]. intros c.
  apply setElement_keeps, HB; lia.
Qed.

(** The rows that [ipiv] designates are rows whose accesses keep [I]. *)
Lemma apply_interchange_keeps ipiv mB nr k :
  0 <= k < nr ->
  accessible I mB nr (cols mB) ->
  triple I (ia_read ipiv k)
    (fun p h => I h /\
       forall q, p = Some q ->
         forall j, 0 <= j < cols mB -> access I (data mB) (offset mB (q - 1) j)) ->
  triple I (Dgesv.apply_interchange ipiv mB k) (fun _ => I).
Proof.
  intros Hk HB Hp. unfold Dgesv.apply_interchange.
  eapply triple_bind; [exact Hp|]. intros [q|]; apply triple_assume; intros Hq.
  - apply triple_if; intros _; [|now apply triple_ret].
    apply swap_rows_keeps; [intros j Hj; apply HB; lia | now apply Hq].
  - apply triple_for_each. intros j Hj.
    eapply triple_bind; [apply getElement_keeps, HB; lia|]. intros temp.
    apply setElement_keeps, HB; lia.
Qed.

Lemma dgetrs_keeps mA ipiv mB :
  accessible I mA (rows mA) (rows mA) ->
  accessible I mB (rows mA) (cols mB) ->
  (forall k, 0 <= k < rows mA ->
     triple I (ia_read ipiv k)
       (fun p h => I h /\
          forall q, p = Some q ->
            forall j, 0 <= j < cols mB -> access I (data mB) (offset mB (q - 1) j))) ->
  triple I (Dgesv.dgetrs Dgesv.N mA ipiv mB) (fun r h => I h /\ info r = 0).
Proof.
  intros HA HB Hp. unfold Dgesv.dgetrs.
  eapply triple_bind.
  { apply triple_for_each. intros k Hk.
    apply apply_interchange_keeps with (nr := rows mA); auto. }
  intros u. eapply triple_bind; [now apply forward_substitution_keeps|].
  intros u'. eapply triple_bind; [now apply back_substitution_keeps|].
  intros u''. now apply triple_ret.
Qed.
End Keeps.

(** The factorisation, with an invariant that depends on the number of
    completed steps: the accesses to the matrix keep each [Inv k], and
    recording the pivot of step [k] leads from [Inv k] to [Inv (k + 1)]. The
    routine returns 0 after [n] steps or [k + 1] during step [k]. *)
Lemma dgetrf_keeps (Inv : Z -> heap -> Prop) (m : Matrix) (ipiv : loc) :
  (forall k, 0 <= k <= rows m -> accessible (Inv k) m (rows m) (rows m)) ->
  (forall k r, 0 <= k < rows m -> k <= r < rows m ->
     triple (Inv k) (ia_write ipiv k (r + 1)) (fun _ => Inv (k + 1))) ->
  triple (Inv 0) (Dgesv.dgetrf m ipiv)
    (fun r h => (info r = 0 /\ Inv (Z.max 0 (rows m)) h) \/
                (exists k, 0 <= k < rows m /\ info r = k + 1 /\ Inv (k + 1) h)).
Proof.
  intros Hacc Hpiv. unfold Dgesv.dgetrf.
  eapply triple_bind.
  - unfold for_ret.
    apply (triple_loop_ret Inv
             (fun r h => exists k, 0 <= k < rows m /\ info r = k + 1 /\ Inv (k + 1) h)).
    intros k Hk. assert (Hk' : 0 <= k < rows m) by lia.
    unfold Dgesv.dgetrf_step.
    eapply triple_bind.
    { apply pivot_search_keeps; [exact Hk'|]. intros i Hi. apply Hacc; lia. }
    intros [maxRow maxVal]. apply triple_assume. cbn [fst]. intros Hr.
    eapply triple_bind; [now apply Hpiv|]. intros u.
    destruct (feq maxVal fzero).
    + apply triple_ret. intros h Hh. exists k. cbn. auto.
    + eapply triple_bind with (R := fun _ => Inv (k + 1)).
      { apply triple_if; intros _; [|apply triple_ret; intros h Hh; exact Hh].
        apply swap_rows_keeps; intros j Hj; apply Hacc; lia. }
      intros u'. eapply triple_bind.
      { apply eliminate_column_keeps; [exact Hk'|]. apply Hacc; lia. }
      intros u''. now apply triple_ret.
  - intros [res|]; apply triple_ret; intros h Hh.
    + right. exact Hh.
    + left. split; [reflexivity|].
      replace (0 + Z.of_nat (Z.to_nat (rows m - 0))) with (Z.max 0 (rows m)) in Hh by lia.
      exact Hh.
Qed.

(** ** The effect of the typed-array primitives on the heap *)

Lemma in_range_spec i len : in_range i len = true <-> 0 <= i < Z.of_nat len.
Proof. unfold in_range. rewrite andb_true_iff, Z.leb_le, Z.ltb_lt. tauto. Qed.

Lemma fcells_length h l : length (fcells h l) = default 0%nat (shape h !! l).
Proof.
  unfold fcells, shape. rewrite list_lookup_fmap.
  destruct (farrays h !! l); reflexivity.
Qed.

Lemma fcells_lookup h l a : farrays h !! l = Some a -> fcells h l = cells a.
Proof. unfold fcells. now intros ->. Qed.

Lemma shape_set_farray h l a a' :
  farrays h !! l = Some a -> length (cells a') = length (cells a) ->
  shape (set_farray h l a') = shape h.
Proof.
  intros Hl Hlen. unfold shape, set_farray. cbn.
  rewrite list_fmap_insert. apply list_insert_id.
  rewrite list_lookup_fmap, Hl. cbn. now rewrite Hlen.
Qed.

Lemma ta_read_effect l idx h :
  exists v h', ta_read l idx h = (h', Val v) /\
    farrays h' = farrays h /\ iarrays h' = iarrays h /\
    (0 <= idx < Z.of_nat (length (fcells h l)) ->
       h' = h /\ v = fcells h l !! Z.to_nat idx).
Proof.
  unfold ta_read. destruct (in_range idx (length (fcells h l))) eqn:E.
  - eauto 10.
  - exists None, (flag_oob h). do 3 (split; [reflexivity|]).
    intros Hr; apply in_range_spec in Hr; congruence.
Qed.

Lemma ta_write_effect l idx v h :
  exists h', ta_write l idx v h = (h', Val tt) /\
    iarrays h' = iarrays h /\ shape h' = shape h /\
    length (farrays h') = length (farrays h) /\
    (forall l', l' <> l -> farrays h' !! l' = farrays h !! l') /\
    (0 <= idx < Z.of_nat (length (fcells h l)) ->
       oob h' = oob h /\
       exists a, farrays h !! l = Some a /\
         fcells h' l = <[Z.to_nat idx := coerce (elt a) v]> (cells a)).
Proof.
  unfold ta_write, fcells. destruct (farrays h !! l) as [a|] eqn:Hl.
  - destruct (in_range idx (length (cells a))) eqn:E.
    + eexists. split; [reflexivity|]. split; [reflexivity|]. split; [|split; [|split]].
      * eapply shape_set_farray; [exact Hl|]. cbn. apply length_insert.
      * cbn. apply length_insert.
      * intros l' Hne. cbn. now apply list_lookup_insert_ne.
      * intros _. split; [reflexivity|]. exists a. split; [reflexivity|]. cbn.
        rewrite list_lookup_insert_eq; [reflexivity|]. now apply lookup_lt_Some in Hl.
    + exists (flag_oob h). do 5 (split; [auto|]).
      intros Hr; apply in_range_spec in Hr; congruence.
  - exists (flag_oob h). do 5 (split; [auto|]). cbn; lia.
Qed.

Lemma ia_read_effect l idx h :
  exists v h', ia_read l idx h = (h', Val v) /\
    farrays h' = farrays h /\ iarrays h' = iarrays h /\
    (0 <= idx < Z.of_nat (length (icells h l)) ->
       h' = h /\ v = icells h l !! Z.to_nat idx).
Proof.
  unfold ia_read. destruct (in_range idx (length (icells h l))) eqn:E.
  - eauto 10.
  - exists None, (flag_oob h). do 3 (split; [reflexivity|]).
    intros Hr; apply in_range_spec in Hr; congruence.
Qed.

Lemma ia_write_effect l idx z h :
  exists h', ia_write l idx z h = (h', Val tt) /\
    farrays h' = farrays h /\
    length (iarrays h') = length (iarrays h) /\
    (forall l', l' <> l -> iarrays h' !! l' = iarrays h !! l') /\
    (0 <= idx < Z.of_nat (length (icells h l)) ->
       oob h' = oob h /\ icells h' l = <[Z.to_nat idx := to_int32 z]> (icells h l)).
Proof.
  unfold ia_write, icells. destruct (iarrays h !! l) as [a|] eqn:Hl.
  - destruct (in_range idx (length a)) eqn:E.
    + eexists. split; [reflexivity|]. split; [reflexivity|]. split; [|split].
      * cbn. apply length_insert.
      * intros l' Hne. cbn. now apply list_lookup_insert_ne.
      * intros _. split; [reflexivity|]. cbn.
        rewrite list_lookup_insert_eq; [reflexivity|]. now apply lookup_lt_Some in Hl.
    + exists (flag_oob h). do 4 (split; [auto|]).
      intros Hr; apply in_range_spec in Hr; congruence.
  - exists (flag_oob h). do 4 (split; [auto|]). cbn; lia.
Qed.

(** ** The frame invariant: every access to an array allocated later keeps it *)


Lemma framed_step N K h0 Ls h h' :
  framed N K h0 Ls h ->
  shape h' = shape h ->
  length (farrays h') = length (farrays h) ->
  length (iarrays h') = length (iarrays h) ->
  (forall l, (l < N)%nat -> farrays h' !! l = farrays h !! l) ->
  (forall l, (l < K)%nat -> iarrays h' !! l = iarrays h !! l) ->
  framed N K h0 Ls h'.
Proof.
  intros [(HN & HK & Hf & Hi) Hs] Es El Ei Ef Ek. split; [|congruence].
  repeat split; try lia.
  - intros l Hl. rewrite Ef by exact Hl. now apply Hf.
  - intros l Hl. rewrite Ek by exact Hl. now apply Hi.
Qed.

Ltac framed_step H :=
  eapply framed_step;
  [ exact H
  | first [congruence | unfold shape; congruence]
  | congruence
  | congruence
  | let l := fresh "l" in let Hl := fresh "Hl" in
    intros l Hl;
    first [congruence | match goal with E : forall _, _ <> _ -> _ |- _ => apply E; lia end]
  | let l := fresh "l" in let Hl := fresh "Hl" in
    intros l Hl;
    first [congruence | match goal with E : forall _, _ <> _ -> _ |- _ => apply E; lia end] ].

Lemma framed_access N K h0 Ls l idx :
  (N <= l)%nat -> access (framed N K h0 Ls) l idx.
Proof.
  intros Hl. split.
  - intros h Hh. destruct (ta_read_effect l idx h) as (v & h' & E & Ef & Ei & _).
    exists v, h'. split; [exact E|]. framed_step Hh.
  - intros v h Hh.
    destruct (ta_write_effect l idx v h) as (h' & E & Ei & Es & El & Ef & _).
    exists tt, h'. split; [exact E|]. framed_step Hh.
Qed.



(** ** The bounds-safety invariant: the accesses inside a buffer keep it *)

Lemma quiet_access Ls l L idx :
  Ls !! l = Some L -> 0 <= idx < Z.of_nat L -> access (quiet Ls) l idx.
Proof.
  intros HL Hidx. split.
  - intros h [Ho Hs].
    destruct (ta_read_effect l idx h) as (v & h' & E & _ & _ & Hin).
    destruct Hin as [-> _]; [rewrite fcells_length, Hs, HL; exact Hidx|].
    exists v, h. now repeat split.
  - intros v h [Ho Hs].
    destruct (ta_write_effect l idx v h) as (h' & E & _ & Es & _ & _ & Hin).
    destruct Hin as [Eo _]; [rewrite fcells_length, Hs, HL; exact Hidx|].
    exists tt, h'. split; [exact E|]. split; congruence.
Qed.

Lemma safe_access Ls ipiv n k l L idx :
  Ls !! l = Some L -> 0 <= idx < Z.of_nat L -> access (safe Ls ipiv n k) l idx.
Proof.
  intros HL Hidx. split.
  - intros h (Hq & Hrest).
    destruct (proj1 (quiet_access Ls l L idx HL Hidx) h Hq) as (v & h' & E & Hq').
    destruct (ta_read_effect l idx h) as (v' & h'' & E' & _ & _ & Hin).
    destruct Hin as [-> _].
    { destruct Hq as [_ Hs]. rewrite fcells_length, Hs, HL. exact Hidx. }
    exists v', h. split; [exact E'|]. now split.
  - intros v h (Hq & Hn & Hv & Hp).
    destruct (proj2 (quiet_access Ls l L idx HL Hidx) v h Hq) as (u & h' & E & Hq').
    destruct (ta_write_effect l idx v h) as (h'' & E' & Ei & _).
    assert (h'' = h') as -> by congruence.
    exists u, h'. split; [exact E|]. unfold safe, icells in *. rewrite Ei. auto.
Qed.

Lemma to_int32_small z : - 2 ^ 31 <= z < 2 ^ 31 -> to_int32 z = z.
Proof. intros H. unfold to_int32. rewrite Z.mod_small; lia. Qed.

Lemma safe_ia_write Ls ipiv n k r :
  0 <= k < n -> k <= r < n -> n < 2 ^ 31 ->
  triple (safe Ls ipiv n k) (ia_write ipiv k (r + 1)) (fun _ => safe Ls ipiv n (k + 1)).
Proof.
  intros Hk Hr Hn h ((Ho & Hs) & Hlen & Hv & Hp).
  destruct (ia_write_effect ipiv k (r + 1) h) as (h' & E & Ef & El & _ & Hin).
  destruct Hin as [Eo Ec]; [lia|].
  exists tt, h'. split; [exact E|]. repeat split.
  - congruence.
  - unfold shape. now rewrite Ef.
  - rewrite Ec, length_insert. exact Hlen.
  - lia.
  - intros i Hi. rewrite Ec. destruct (Z.eq_dec i k) as [->|Hne].
    + rewrite list_lookup_insert_eq by lia.
      exists (r + 1). split; [|lia]. f_equal. apply to_int32_small. lia.
    + rewrite list_lookup_insert_ne by lia. apply Hp. lia.
Qed.

Lemma safe_ia_read Ls ipiv n k :
  0 <= k < n ->
  triple (safe Ls ipiv n n) (ia_read ipiv k)
    (fun p h => safe Ls ipiv n n h /\ pivot_in_range n k p).
Proof.
  intros Hk h Hh. assert (Hh' := Hh). destruct Hh' as (Hq & Hlen & Hv & Hp).
  destruct (ia_read_effect ipiv k h) as (v & h' & E & _ & _ & Hin).
  destruct Hin as [-> ->]; [lia|].
  exists (icells h ipiv !! Z.to_nat k), h. split; [exact E|]. split; [exact Hh|].
  apply Hp. lia.
Qed.

Lemma safe_mono Ls ipiv n k k' h : k' <= k -> safe Ls ipiv n k h -> safe Ls ipiv n k' h.
Proof.
  intros Hk (Hq & Hlen & Hv & Hp). repeat split; auto; try apply Hq.
  intros i Hi. apply Hp. lia.
Qed.

(** The offsets of a dense view stay inside [rows * cols]. *)
Lemma dense_offset m i j :
  leadingDimension m =
    match layout m with ColumnMajor => rows m | RowMajor => cols m end ->
  0 <= i < rows m -> 0 <= j < cols m ->
  0 <= offset m i j < rows m * cols m.
Proof.
  intros Hld Hi Hj. unfold offset. rewrite Hld. destruct (layout m); nia.
Qed.

Lemma safe_accessible Ls ipiv n k m L :
  Ls !! data m = Some L ->
  leadingDimension m =
    match layout m with ColumnMajor => rows m | RowMajor => cols m end ->
  rows m * cols m <= Z.of_nat L ->
  accessible (safe Ls ipiv n k) m (rows m) (cols m).
Proof.
  intros HL Hld Hlen i j Hi Hj. apply safe_access with (L := L); [exact HL|].
  pose proof (dense_offset m i j Hld Hi Hj). lia.
Qed.

Lemma quiet_accessible Ls m L :
  Ls !! data m = Some L ->
  leadingDimension m =
    match layout m with ColumnMajor => rows m | RowMajor => cols m end ->
  rows m * cols m <= Z.of_nat L ->
  accessible (quiet Ls) m (rows m) (cols m).
Proof.
  intros HL Hld Hlen i j Hi Hj. apply quiet_access with (L := L); [exact HL|].
  pose proof (dense_offset m i j Hld Hi Hj). lia.
Qed.

(** *** The factorisation and the solve under the two invariants *)



Lemma dgetrf_safe Ls ipiv m L :
  cols m = rows m ->
  Ls !! data m = Some L ->
  leadingDimension m =
    match layout m with ColumnMajor => rows m | RowMajor => cols m end ->
  rows m * cols m <= Z.of_nat L ->
  rows m < 2 ^ 31 ->
  triple (safe Ls ipiv (rows m) 0) (Dgesv.dgetrf m ipiv)
    (fun r h => (info r = 0 /\ safe Ls ipiv (rows m) (rows m) h) \/
                (0 < info r /\ safe Ls ipiv (rows m) 0 h)).
Proof.
  intros Hsq HL Hld Hlen Hn.
  eapply triple_conseq.
  - apply (dgetrf_keeps (fun k => safe Ls ipiv (rows m) k) m ipiv).
    + intros k _. pose proof (safe_accessible Ls ipiv (rows m) k m L HL Hld Hlen) as H.
      now rewrite Hsq in H.
    + intros k r Hk Hr. now apply safe_ia_write.
  - auto.
  - intros r h [[E H]|(k & Hk & E & H)].
    + left. split; [exact E|]. eapply safe_mono; [|exact H]. lia.
    + right. split; [lia|]. eapply safe_mono; [|exact H]. lia.
Qed.

Lemma dgetrs_safe Ls ipiv mA mB LA LB :
  cols mA = rows mA -> rows mB = rows mA ->
  Ls !! data mA = Some LA -> Ls !! data mB = Some LB ->
  leadingDimension mA =
    match layout mA with ColumnMajor => rows mA | RowMajor => cols mA end ->
  leadingDimension mB =
    match layout mB with ColumnMajor => rows mB | RowMajor => cols mB end ->
  rows mA * cols mA <= Z.of_nat LA ->
  rows mB * cols mB <= Z.of_nat LB ->
  triple (safe Ls ipiv (rows mA) (rows mA)) (Dgesv.dgetrs Dgesv.N mA ipiv mB)
    (fun r h => safe Ls ipiv (rows mA) (rows mA) h /\ info r = 0).
Proof.
  intros Hsq Hrows HLA HLB HldA HldB HlenA HlenB.
  pose proof (safe_accessible Ls ipiv (rows mA) (rows mA) mA LA HLA HldA HlenA) as HA.
  pose proof (safe_accessible Ls ipiv (rows mA) (rows mA) mB LB HLB HldB HlenB) as HB.
  rewrite Hsq in HA. rewrite Hrows in HB.
  apply dgetrs_keeps; [exact HA | exact HB |].
  intros k Hk.
  eapply triple_conseq; [apply (safe_ia_read Ls); exact Hk | intros h Hh; exact Hh |].
  intros p h [Hh (q & -> & Hq)]. split; [exact Hh|].
  intros q' [= <-] j Hj. apply HB; lia.
Qed.

(** ** The public accessors, the copy and the allocation *)

Lemma validateIndices_ok m i j h :
  0 <= i < rows m -> 0 <= j < cols m ->
  MatrixUtils.validateIndices m i j h = (h, Val tt).
Proof.
  intros Hi Hj. unfold MatrixUtils.validateIndices.
  destruct (i <? 0) eqn:E1; [lia|]. destruct (rows m <=? i) eqn:E2; [lia|].
  destruct (j <? 0) eqn:E3; [lia|]. destruct (cols m <=? j) eqn:E4; [lia|].
  reflexivity.
Qed.


Lemma public_getElement_keeps I m i j :
  0 <= i < rows m -> 0 <= j < cols m ->
  triple I (ta_read (data m) (offset m i j)) (fun _ => I) ->
  triple I (MatrixUtils.getElement m i j) (fun _ => I).
Proof.
  intros Hi Hj Hr h Hh. unfold MatrixUtils.getElement, bind.
  rewrite validateIndices_ok by assumption.
  destruct (Hr h Hh) as (v & h' & E & Hh'). rewrite E. eauto.
Qed.

Lemma public_setElement_keeps I m i j v :
  0 <= i < rows m -> 0 <= j < cols m ->
  access I (data m) (offset m i j) ->
  triple I (MatrixUtils.setElement m i j v) (fun _ => I).
Proof.
  intros Hi Hj [_ Hw] h Hh. unfold MatrixUtils.setElement, bind.
  rewrite validateIndices_ok by assumption. apply Hw, Hh.
Qed.

Lemma copyMatrix_keeps I src tgt :
  rows src = rows tgt -> cols src = cols tgt ->
  readable I src (rows src) (cols src) ->
  accessible I tgt (rows tgt) (cols tgt) ->
  triple I (ta_set_from (data tgt) (data src) (rows src * cols src)) (fun _ => I) ->
  triple I (MatrixUtils.copyMatrix src tgt) (fun _ => I).
Proof.
  intros Hr Hc Hs Ht Hset. unfold MatrixUtils.copyMatrix.
  rewrite Hr, Hc, !Z.eqb_refl. cbn [negb orb].
  apply triple_if; intros _; [rewrite <- Hr, <- Hc; exact Hset|].
  apply triple_for_each. intros i Hi. apply triple_for_each. intros j Hj.
  eapply triple_bind.
  - apply public_getElement_keeps; [lia | lia |]. apply Hs; lia.
  - intros v. apply public_setElement_keeps; [lia | lia |]. apply Ht; lia.
Qed.

Lemma length_subarray_to c stop :
  0 <= stop -> Z.of_nat (length (subarray_to c stop)) <= stop.
Proof.
  intros H. unfold subarray_to. destruct (stop <? 0) eqn:E; [lia|].
  rewrite length_take. lia.
Qed.

Lemma ta_set_from_effect tgt src stop h a :
  farrays h !! tgt = Some a ->
  0 <= stop <= Z.of_nat (length (cells a)) ->
  exists h', ta_set_from tgt src stop h = (h', Val tt) /\
    iarrays h' = iarrays h /\ shape h' = shape h /\ oob h' = oob h /\
    length (farrays h') = length (farrays h) /\
    (forall l', l' <> tgt -> farrays h' !! l' = farrays h !! l').
Proof.
  intros Ht Hstop. unfold ta_set_from. rewrite Ht.
  pose proof (length_subarray_to (fcells h src) stop ltac:(lia)) as Hlen.
  destruct (length (cells a) <? length (subarray_to (fcells h src) stop))%nat eqn:E.
  { apply Nat.ltb_lt in E. lia. }
  apply Nat.ltb_ge in E.
  eexists. split; [reflexivity|]. split; [reflexivity|]. split; [|split; [reflexivity|split]].
  - eapply shape_set_farray; [exact Ht|]. cbn.
    rewrite length_app, length_fmap, length_drop. lia.
  - cbn. apply length_insert.
  - intros l' Hne. cbn. now apply list_lookup_insert_ne.
Qed.

Lemma createFloat64Matrix_eq r c opts h :
  MatrixUtils.createFloat64Matrix r c opts h =
  if r * c <? 0 then (h, Throw RangeError)
  else
    let v := default fzero (opt_initialValue opts) in
    let lay := default ColumnMajor (opt_layout opts) in
    (push_farray h {| elt := Double;
                      cells := replicate (Z.to_nat (r * c))
                                 (if feq v fzero then fzero else v) |},
     Val {| data := length (farrays h); rows := r; cols := c; layout := lay;
            leadingDimension := match lay with ColumnMajor => r | RowMajor => c end |}).
Proof.
  unfold MatrixUtils.createFloat64Matrix, bind at 1. unfold new_FloatArray.
  destruct (r * c <? 0) eqn:E; [reflexivity|]. cbv zeta.
  set (v := default fzero (opt_initialValue opts)).
  set (h1 := push_farray h _).
  assert (Hl : farrays h1 !! length (farrays h) =
               Some {| elt := Double; cells := replicate (Z.to_nat (r * c)) fzero |}).
  { unfold h1, push_farray. cbn. rewrite lookup_app_r by lia.
    now rewrite Nat.sub_diag. }
  assert (Hfill : exists h2,
    (if fneq v fzero then ta_fill (length (farrays h)) v else ret tt) h1 = (h2, Val tt) /\
    h2 = push_farray h {| elt := Double;
                          cells := replicate (Z.to_nat (r * c))
                                     (if feq v fzero then fzero else v) |}).
  { unfold fneq, feq. destruct (SFeqb v fzero); cbn [negb].
    - exists h1. split; reflexivity.
    - eexists. unfold ta_fill. rewrite Hl. split; [reflexivity|].
      unfold set_farray, h1, push_farray. cbn. f_equal.
      rewrite length_replicate, insert_app_r_alt by lia.
      now rewrite Nat.sub_diag. }
  destruct Hfill as (h2 & E2 & Eh2). unfold bind. fold v.
  change (push_farray h {| elt := Double; cells := replicate (Z.to_nat (r * c)) fzero |})
    with h1.
  rewrite E2. subst h2. unfold MatrixUtils.createMatrix, bind, ta_length, fcells.
  cbn [farrays push_farray]. rewrite lookup_app_r by lia.
  rewrite Nat.sub_diag. cbn [lookup list_lookup cells].
  rewrite length_replicate, Z2Nat.id by lia. rewrite Z.ltb_irrefl. reflexivity.
Qed.

Lemma new_Int32Array_eq n h :
  0 <= n ->
  new_Int32Array n h = (push_iarray h (replicate (Z.to_nat n) 0), Val (length (iarrays h))).
Proof. intros H. unfold new_Int32Array. destruct (n <? 0) eqn:E; [lia | reflexivity]. Qed.

Lemma createFloat64Matrix_zero r c lay h :
  0 <= r * c ->
  MatrixUtils.createFloat64Matrix r c
    {| opt_layout := Some lay; opt_initialValue := None |} h =
  (push_farray h (zeros (r * c)), Val (fresh_matrix (length (farrays h)) r c lay)).
Proof.
  intros H. rewrite createFloat64Matrix_eq.
  destruct (r * c <? 0) eqn:E; [lia | reflexivity].
Qed.

Lemma shape_lookup h l L :
  shape h !! l = Some L -> exists a, farrays h !! l = Some a /\ length (cells a) = L.
Proof.
  unfold shape. rewrite list_lookup_fmap.
  destruct (farrays h !! l) as [a|]; [|discriminate].
  intros [= <-]. eauto.
Qed.

Lemma framed_read N K h0 Ls l idx :
  triple (framed N K h0 Ls) (ta_read l idx) (fun _ => framed N K h0 Ls).
Proof.
  intros h Hh. destruct (ta_read_effect l idx h) as (v & h' & E & Ef & Ei & _).
  exists v, h'. split; [exact E|]. framed_step Hh.
Qed.

Lemma framed_set_from N K h0 Ls tgt src stop L :
  (N <= tgt)%nat -> Ls !! tgt = Some L -> 0 <= stop <= Z.of_nat L ->
  triple (framed N K h0 Ls) (ta_set_from tgt src stop) (fun _ => framed N K h0 Ls).
Proof.
  intros Ht HL Hstop h Hh. assert (Hs := proj2 Hh). rewrite <- Hs in HL.
  destruct (shape_lookup h tgt L HL) as (a & Ha & Hlen).
  destruct (ta_set_from_effect tgt src stop h a Ha ltac:(lia))
    as (h' & E & Ei & Es & Eo & El & Ef).
  exists tt, h'. split; [exact E|]. framed_step Hh.
Qed.

Lemma quiet_set_from Ls tgt src stop L :
  Ls !! tgt = Some L -> 0 <= stop <= Z.of_nat L ->
  triple (quiet Ls) (ta_set_from tgt src stop) (fun _ => quiet Ls).
Proof.
  intros HL Hstop h [Ho Hs]. rewrite <- Hs in HL.
  destruct (shape_lookup h tgt L HL) as (a & Ha & Hlen).
  destruct (ta_set_from_effect tgt src stop h a Ha ltac:(lia))
    as (h' & E & Ei & Es & Eo & El & Ef).
  exists tt, h'. split; [exact E|]. split; congruence.
Qed.

(** ** The first half of [dgesv] *)

Lemma validateParameters_dgesv A B h :
  rows A = cols A -> rows A = rows B ->
  try_catch
    (MatrixUtils.validateParameters
       {| MatrixUtils.n := Some (rows A);
          MatrixUtils.nrhs := Some (cols B);
          MatrixUtils.lda := Some (leadingDimension A);
          MatrixUtils.ldb := Some (leadingDimension B);
          MatrixUtils.functionName := Some "DGESV"%string |} ;;
     ret None)
    (fun error =>
       match error with
       | LapackError i _ => ret (Some (Dgesv.failure i))
       | _ => throw error
       end) h =
  (h, Val (if early_status A B =? 0 then None
           else Some (Dgesv.failure (early_status A B)))).
Proof.
  intros H1 H2. unfold early_status.
  rewrite <- H1, <- H2, !Z.eqb_refl. cbn [negb].
  unfold try_catch, MatrixUtils.validateParameters, bind. cbn.
  destruct (rows A <? 0); [reflexivity|].
  destruct (cols B <? 0); [reflexivity|].
  destruct (leadingDimension A <? Z.max 1 (rows A)); [reflexivity|].
  destruct (leadingDimension B <? Z.max 1 (rows A)); reflexivity.
Qed.

Lemma dgesv_prepare_rejects input h :
  early_status (Dgesv.A input) (Dgesv.B input) <> 0 ->
  dgesv_prepare input h =
  (h, Val (inl (Dgesv.failure (early_status (Dgesv.A input) (Dgesv.B input))))).
Proof.
  intros Hst. unfold dgesv_prepare.
  destruct (rows (Dgesv.A input) =? cols (Dgesv.A input)) eqn:E1; cbn [negb].
  2: { unfold early_status. now rewrite E1. }
  destruct (rows (Dgesv.A input) =? rows (Dgesv.B input)) eqn:E2; cbn [negb].
  2: { unfold early_status. now rewrite E1, E2. }
  apply Z.eqb_eq in E1, E2. unfold bind at 1.
  rewrite validateParameters_dgesv by assumption.
  destruct (early_status _ _ =? 0) eqn:E; [apply Z.eqb_eq in E; contradiction|].
  reflexivity.
Qed.

Lemma dgesv_prepare_accepts input h :
  early_status (Dgesv.A input) (Dgesv.B input) = 0 ->
  dgesv_prepare input h = dgesv_working_copies input h.
Proof.
  intros Hst. unfold dgesv_prepare. unfold early_status in Hst.
  destruct (rows (Dgesv.A input) =? cols (Dgesv.A input)) eqn:E1; cbn [negb] in *;
    [|discriminate].
  destruct (rows (Dgesv.A input) =? rows (Dgesv.B input)) eqn:E2; cbn [negb] in *;
    [|discriminate].
  apply Z.eqb_eq in E1, E2. unfold bind at 1.
  rewrite validateParameters_dgesv by assumption.
  unfold early_status. rewrite <- E1, <- E2, !Z.eqb_refl. cbn [negb].
  rewrite Hst. reflexivity.
Qed.

(** What the checks establish. *)
Lemma early_status_0 A B :
  early_status A B = 0 ->
  rows A = cols A /\ rows A = rows B /\ 0 <= rows A /\ 0 <= cols B /\
  Z.max 1 (rows A) <= leadingDimension A /\ Z.max 1 (rows A) <= leadingDimension B.
Proof.
  unfold early_status.
  destruct (rows A =? cols A) eqn:E1; cbn [negb]; [|discriminate].
  destruct (rows A =? rows B) eqn:E2; cbn [negb]; [|discriminate].
  destruct (rows A <? 0) eqn:E3; [discriminate|].
  destruct (cols B <? 0) eqn:E4; [discriminate|].
  destruct (leadingDimension A <? Z.max 1 (rows A)) eqn:E5; [discriminate|].
  destruct (leadingDimension B <? Z.max 1 (rows A)) eqn:E6; [discriminate|].
  lia.
Qed.

Lemma working_copies_overwrite input h :
  default false (Dgesv.overwriteInput input) = true ->
  0 <= rows (Dgesv.A input) ->
  dgesv_working_copies input h =
  (push_iarray h (replicate (Z.to_nat (rows (Dgesv.A input))) 0),
   Val (inr (Dgesv.A input, Dgesv.B input, length (iarrays h)))).
Proof.
  intros Ho Hn. unfold dgesv_working_copies. rewrite Ho. cbn [negb].
  unfold bind, ret. now rewrite new_Int32Array_eq.
Qed.

(** Without [overwriteInput] the working copies are two fresh views; the
    copies keep every invariant [I] that the reads of the caller's views, the
    accesses to the fresh views and the bulk transfers into them keep. *)
Lemma working_copies_fresh (I : heap -> Prop) input h :
  let A := Dgesv.A input in
  let B := Dgesv.B input in
  let n := rows A in
  let nrhs := cols B in
  let N := length (farrays h) in
  let workA := fresh_matrix N n n (layout A) in
  let workB := fresh_matrix (Datatypes.S N) n nrhs (layout B) in
  default false (Dgesv.overwriteInput input) = false ->
  early_status A B = 0 ->
  I (push_farray (push_farray h (zeros (n * n))) (zeros (n * nrhs))) ->
  readable I A n n ->
  readable I B n nrhs ->
  accessible I workA n n ->
  accessible I workB n nrhs ->
  (forall src, triple I (ta_set_from N src (n * n)) (fun _ => I)) ->
  (forall src, triple I (ta_set_from (Datatypes.S N) src (n * nrhs)) (fun _ => I)) ->
  exists h3,
    dgesv_working_copies input h =
    (push_iarray h3 (replicate (Z.to_nat n) 0), Val (inr (workA, workB, length (iarrays h3))))
    /\ I h3.
Proof.
  intros A B n nrhs N workA workB Ho Hst HI HrA HrB HA HB HsA HsB.
  destruct (early_status_0 A B Hst) as (Hsq & Hrows & Hn & Hnrhs & _).
  unfold dgesv_working_copies. rewrite Ho. cbn [negb]. fold A B n nrhs.
  unfold bind at 1. rewrite createFloat64Matrix_zero by nia.
  unfold bind at 1. rewrite createFloat64Matrix_zero by nia.
  cbn [farrays push_farray]. rewrite length_app. cbn [length].
  replace (length (farrays h) + 1)%nat with (Datatypes.S N) by (unfold N; lia).
  fold N workA workB.
  assert (HcA : triple I (MatrixUtils.copyMatrix A workA) (fun _ => I)).
  { apply copyMatrix_keeps; cbn; auto.
    - fold n. now rewrite <- Hsq.
    - fold n. rewrite <- Hsq. fold n. apply HsA. }
  assert (HcB : triple I (MatrixUtils.copyMatrix B workB) (fun _ => I)).
  { apply copyMatrix_keeps; cbn; auto.
    - fold nrhs. now replace (rows B) with n by (unfold n; lia).
    - fold nrhs. replace (rows B) with n by (unfold n; lia). apply HsB. }
  destruct (HcA _ HI) as ([] & h2 & E2 & H2).
  destruct (HcB _ H2) as ([] & h3 & E3 & H3).
  exists h3. split; [|exact H3].
  unfold bind. rewrite E2, E3. now rewrite new_Int32Array_eq.
Qed.

(** * The properties of the design document *)

Lemma dgesv_rejects input h :
  early_status (Dgesv.A input) (Dgesv.B input) <> 0 ->
  Dgesv.dgesv input h =
  (h, Val (Dgesv.failure (early_status (Dgesv.A input) (Dgesv.B input)))).
Proof.
  intros H. rewrite dgesv_split. unfold bind.
  now rewrite dgesv_prepare_rejects.
Qed.

(** ** Shape checks *)

(** C4: [dgesv] returns status -1 and the empty result, touching nothing,
    whenever [A] is not square and whenever [A] and [B] differ in their
    number of rows. *)
Theorem dgesv_shape_mismatch input h :
  rows (Dgesv.A input) <> cols (Dgesv.A input) \/
  rows (Dgesv.A input) <> rows (Dgesv.B input) ->
  exists r, Dgesv.dgesv input h = (h, Val r) /\ info r = -1 /\ result r = None.
Proof.
  intros H. exists (Dgesv.failure (-1)). split; [|split; reflexivity].
  unfold Dgesv.dgesv.
  destruct (rows (Dgesv.A input) =? cols (Dgesv.A input)) eqn:E1; cbn [negb];
    [|reflexivity].
  destruct (rows (Dgesv.A input) =? rows (Dgesv.B input)) eqn:E2; cbn [negb];
    [|reflexivity].
  lia.
Qed.

Lemma dgesv_shape_mismatch_witness :
  exists r,
    Dgesv.dgesv
      {| Dgesv.A := fresh_matrix 0 2 3 ColumnMajor;
         Dgesv.B := fresh_matrix 1 2 1 ColumnMajor;
         Dgesv.overwriteInput := None |}
      (push_farray (push_farray empty_heap (zeros 6)) (zeros 2)) =
    (push_farray (push_farray empty_heap (zeros 6)) (zeros 2), Val r)
    /\ info r = -1 /\ result r = None.
Proof. apply dgesv_shape_mismatch. left. cbn. lia. Defined.

(** ** Parameter validation *)

(** The status by the first check that fails. *)
Lemma early_status_cases A B :
  rows A = cols A -> rows A = rows B ->
  (rows A < 0 -> early_status A B = -1) /\
  (0 <= rows A -> cols B < 0 -> early_status A B = -2) /\
  (0 <= rows A -> 0 <= cols B -> leadingDimension A < Z.max 1 (rows A) ->
     early_status A B = -4) /\
  (0 <= rows A -> 0 <= cols B -> Z.max 1 (rows A) <= leadingDimension A ->
     leadingDimension B < Z.max 1 (rows A) -> early_status A B = -7).
Proof.
  intros Hsq Hrows.
  assert (E1 : (rows A =? cols A) = true) by now apply Z.eqb_eq.
  assert (E2 : (rows A =? rows B) = true) by now apply Z.eqb_eq.
  unfold early_status. rewrite E1, E2. cbn [negb].
  destruct (rows A <? 0) eqn:E; [repeat split; intros; (reflexivity || lia)|].
  destruct (cols B <? 0) eqn:E'; [repeat split; intros; (reflexivity || lia)|].
  destruct (leadingDimension A <? Z.max 1 (rows A)) eqn:Ea;
    [repeat split; intros; (reflexivity || lia)|].
  destruct (leadingDimension B <? Z.max 1 (rows A)) eqn:Eb;
    repeat split; intros; (reflexivity || lia).
Qed.

(** C5: once the shape checks have passed, [dgesv] surfaces the code of the
    first check of [validateParameters] that fails: -1 for [n < 0], -2 for
    [nrhs < 0], -4 for [lda < max(1, n)] and -7 for [ldb < max(1, n)], with
    the empty result and the heap untouched. So whenever a parameter is
    invalid the status is one of these four codes, and the parameter that
    the code names is invalid. *)
Theorem dgesv_parameter_codes input h :
  let A := Dgesv.A input in
  let B := Dgesv.B input in
  let n := rows A in
  let nrhs := cols B in
  rows A = cols A -> rows A = rows B ->
  (n < 0 -> Dgesv.dgesv input h = (h, Val (Dgesv.failure (-1)))) /\
  (0 <= n -> nrhs < 0 -> Dgesv.dgesv input h = (h, Val (Dgesv.failure (-2)))) /\
  (0 <= n -> 0 <= nrhs -> leadingDimension A < Z.max 1 n ->
     Dgesv.dgesv input h = (h, Val (Dgesv.failure (-4)))) /\
  (0 <= n -> 0 <= nrhs -> Z.max 1 n <= leadingDimension A ->
     leadingDimension B < Z.max 1 n ->
     Dgesv.dgesv input h = (h, Val (Dgesv.failure (-7)))) /\
  (n < 0 \/ nrhs < 0 \/ leadingDimension A < Z.max 1 n \/
   leadingDimension B < Z.max 1 n ->
   exists c, Dgesv.dgesv input h = (h, Val (Dgesv.failure c)) /\
     ((c = -1 /\ n < 0) \/ (c = -2 /\ nrhs < 0) \/
      (c = -4 /\ leadingDimension A < Z.max 1 n) \/
      (c = -7 /\ leadingDimension B < Z.max 1 n))).
Proof.
  intros A B n nrhs Hsq Hrows.
  destruct (early_status_cases A B Hsq Hrows) as (H1 & H2 & H4 & H7).
  assert (G : forall c, c <> 0 -> early_status A B = c ->
              Dgesv.dgesv input h = (h, Val (Dgesv.failure c))).
  { intros c Hc E. rewrite dgesv_rejects; fold A B; [now rewrite E | lia]. }
  fold n nrhs in H1, H2, H4, H7.
  split; [|split; [|split; [|split]]].
  - intros. apply G; auto; lia.
  - intros. apply G; auto; lia.
  - intros. apply G; auto; lia.
  - intros. apply G; auto; lia.
  - intros Hbad.
    destruct (Z_lt_ge_dec n 0) as [Hn|Hn].
    { exists (-1). split; [apply G; auto; lia | auto]. }
    destruct (Z_lt_ge_dec nrhs 0) as [Hr|Hr].
    { exists (-2). split; [apply G; auto; lia | auto]. }
    destruct (Z_lt_ge_dec (leadingDimension A) (Z.max 1 n)) as [Ha|Ha].
    { exists (-4). split; [apply G; [lia | apply H4; lia] | auto]. }
    exists (-7). assert (leadingDimension B < Z.max 1 n) by lia.
    split; [apply G; [lia | apply H7; lia] | auto 6].
Qed.

(** A 3 by 3 system whose views carry the leading dimension 2: status -4. *)
Lemma dgesv_parameter_codes_witness :
  Dgesv.dgesv
    {| Dgesv.A := {| data := 0%nat; rows := 3; cols := 3; layout := ColumnMajor;
                     leadingDimension := 2 |};
       Dgesv.B := {| data := 1%nat; rows := 3; cols := 1; layout := ColumnMajor;
                     leadingDimension := 2 |};
       Dgesv.overwriteInput := None |}
    (push_farray (push_farray empty_heap (zeros 9)) (zeros 3)) =
  (push_farray (push_farray empty_heap (zeros 9)) (zeros 3), Val (Dgesv.failure (-4))).
Proof.
  refine (proj1 (proj2 (proj2 (dgesv_parameter_codes _ _ _ _))) _ _ _);
    cbn; lia.
Defined.

(** ** Matrix creation *)




(** ** Element access *)




(** ** The scenarios *)

(** C1: for A = [[2,1],[1,3]] and B = [[3],[4]], with [A] in either layout
    and [B] column-major, [dgesv] returns status 0 and the solution
    [[1],[1]], exactly and so within 1e-10; with [B] row-major, whose leading
    dimension 1 is below [max(1, n)] = 2, it returns status -7 and no
    solution. *)
Theorem dgesv_example_2x2 (la : MatrixLayout) :
  solve la ColumnMajor 2 1 [[2; 1]; [1; 3]] [[3]; [4]] =
    Val (0, Some [[float_of_Z 1]; [float_of_Z 1]]) /\
  all_close [[float_of_Z 1]; [float_of_Z 1]] [[1]; [1]] 10 = true /\
  solve la RowMajor 2 1 [[2; 1]; [1; 3]] [[3]; [4]] = Val (-7, None).
Proof. destruct la; repeat split; vm_compute; reflexivity. Qed.

(** C7: the same logical system, A = I3 and B = [[5],[7],[9]], is solved
    (status 0, solution [[5],[7],[9]]) when built column-major and rejected
    (status -7, no solution) when built row-major. *)
Theorem dgesv_layout_dependent :
  solve ColumnMajor ColumnMajor 3 1
    [[1; 0; 0]; [0; 1; 0]; [0; 0; 1]] [[5]; [7]; [9]] =
    Val (0, Some [[float_of_Z 5]; [float_of_Z 7]; [float_of_Z 9]]) /\
  solve RowMajor RowMajor 3 1
    [[1; 0; 0]; [0; 1; 0]; [0; 0; 1]] [[5]; [7]; [9]] = Val (-7, None).
Proof. split; vm_compute; reflexivity. Qed.

(** X17: every dense row-major right-hand side with fewer columns than rows
    is rejected with status -7 before anything is allocated or written: its
    leading dimension is its number of columns, which is below
    [max(1, n)]. *)
Lemma dgesv_row_major_rhs_rejected input h :
  let A := Dgesv.A input in
  let B := Dgesv.B input in
  rows A = cols A -> rows A = rows B ->
  layout B = RowMajor -> leadingDimension B = cols B ->
  0 <= cols B < rows A -> rows A <= leadingDimension A ->
  Dgesv.dgesv input h = (h, Val (Dgesv.failure (-7))).
Proof.
  intros A B Hsq Hrows Hlay Hld Hc HA.
  rewrite dgesv_rejects; fold A B.
  - now rewrite (proj2 (proj2 (proj2 (early_status_cases A B Hsq Hrows)))) by lia.
  - rewrite (proj2 (proj2 (proj2 (early_status_cases A B Hsq Hrows)))) by lia. lia.
Qed.

(** The 3 by 3 system with one right-hand side, both matrices row-major. *)
Lemma dgesv_row_major_rhs_rejected_witness :
  Dgesv.dgesv {| Dgesv.A := fresh_matrix 0 3 3 RowMajor;
                 Dgesv.B := fresh_matrix 1 3 1 RowMajor;
                 Dgesv.overwriteInput := None |}
    (system_heap [1; 0; 0; 0; 1; 0; 0; 0; 1] [5; 7; 9]) =
  (system_heap [1; 0; 0; 0; 1; 0; 0; 0; 1] [5; 7; 9], Val (Dgesv.failure (-7))).
Proof.
  apply (dgesv_row_major_rhs_rejected
           {| Dgesv.A := fresh_matrix 0 3 3 RowMajor;
              Dgesv.B := fresh_matrix 1 3 1 RowMajor;
              Dgesv.overwriteInput := None |}); cbn; first [reflexivity | lia].
Defined.

(** The matrix [[1,1],[49,49]], whose second row is 49 times the first, is
    factored without a zero pivot: 1 - (1/49) * 49 is not 0 in binary64.
    [dgesv] returns status 0. *)
Lemma dgesv_dependent_rows_status_0 :
  fmul (float_of_Z 49) (float_of_Z 1) = float_of_Z 49 /\
  exists status x,
    solve ColumnMajor ColumnMajor 2 1 [[1; 1]; [49; 49]] [[3]; [4]] =
      Val (status, Some x) /\
    status = 0 /\ ~ (status > 0).
Proof.
  split; [vm_compute; reflexivity|].
  eexists _, _. split; [vm_compute; reflexivity|]. split; [reflexivity | lia].
Qed.

(** The views that [createFloat64Matrix] builds for a 0 by 0 matrix have
    the leading dimension 0, below [max(1, n)] = 1. *)
Lemma dgesv_empty_created_rejected :
  solve ColumnMajor ColumnMajor 0 1 [] [] = Val (-4, None) /\
  solve RowMajor RowMajor 0 1 [] [] = Val (-4, None) /\
  solve ColumnMajor ColumnMajor 0 0 [] [] = Val (-4, None).
Proof. repeat split; vm_compute; reflexivity. Qed.

(** ** The second half of [dgesv] under the two invariants *)

Lemma shape_push_farray h a : shape (push_farray h a) = shape h ++ [length (cells a)].
Proof. unfold shape, push_farray. cbn. now rewrite fmap_app. Qed.

Lemma shape_lookup_fcells h l :
  (l < length (farrays h))%nat -> shape h !! l = Some (length (fcells h l)).
Proof.
  intros H. unfold shape, fcells. rewrite list_lookup_fmap.
  destruct (lookup_lt_is_Some_2 _ _ H) as [a Ha]. now rewrite Ha.
Qed.



Lemma safe_push_iarray Ls h n :
  quiet Ls h -> 0 <= n ->
  safe Ls (length (iarrays h)) n 0 (push_iarray h (replicate (Z.to_nat n) 0)).
Proof.
  intros [Ho Hs] Hn. unfold safe, quiet, icells, push_iarray. cbn.
  rewrite lookup_app_r by lia. rewrite Nat.sub_diag. cbn.
  rewrite length_replicate, length_app. cbn. repeat split; auto; try lia.
Qed.

Lemma dgesv_solve_safe Ls pivots workA workB LA LB :
  cols workA = rows workA -> rows workB = rows workA ->
  Ls !! data workA = Some LA -> Ls !! data workB = Some LB ->
  leadingDimension workA =
    match layout workA with ColumnMajor => rows workA | RowMajor => cols workA end ->
  leadingDimension workB =
    match layout workB with ColumnMajor => rows workB | RowMajor => cols workB end ->
  rows workA * cols workA <= Z.of_nat LA ->
  rows workB * cols workB <= Z.of_nat LB ->
  rows workA < 2 ^ 31 ->
  triple (safe Ls pivots (rows workA) 0) (dgesv_solve workA workB pivots)
    (fun _ h => oob h = false).
Proof.
  intros Hsq Hrows HLA HLB HldA HldB HlenA HlenB Hn. unfold dgesv_solve.
  eapply triple_bind; [now apply dgetrf_safe with (L := LA)|].
  intros lu. destruct (info lu =? 0) eqn:E; cbn [negb].
  - eapply triple_conseq with
      (P' := safe Ls pivots (rows workA) (rows workA))
      (Q' := fun _ h => safe Ls pivots (rows workA) (rows workA) h).
    + eapply triple_bind; [now apply dgetrs_safe with (LA := LA) (LB := LB)|].
      intros sr. apply triple_assume. intros ->. cbn [Z.eqb negb].
      now apply triple_ret.
    + intros h [[_ H]|[H _]]; [exact H|]. apply Z.eqb_eq in E. lia.
    + intros r h H. apply H.
  - apply triple_ret. intros h [[_ H]|[_ H]]; apply H.
Qed.

(** ** Preservation of the caller's buffers *)

Lemma frame_push_two h a b :
  frame (length (farrays h)) (length (iarrays h)) h (push_farray (push_farray h a) b).
Proof.
  unfold frame, push_farray. cbn. rewrite !length_app. repeat split; try lia.
  intros l Hl. rewrite !lookup_app_l; [reflexivity | lia | rewrite length_app; lia].
Qed.

Lemma shape_push_two h a b :
  shape (push_farray (push_farray h a) b) =
  shape h ++ [length (cells a); length (cells b)].
Proof. rewrite !shape_push_farray, <- app_assoc. reflexivity. Qed.

Lemma lookup_shape_first h (x y : nat) :
  (shape h ++ [x; y]) !! length (farrays h) = Some x.
Proof.
  rewrite lookup_app_r by (unfold shape; rewrite length_fmap; lia).
  unfold shape. rewrite length_fmap, Nat.sub_diag. reflexivity.
Qed.

Lemma lookup_shape_second h (x y : nat) :
  (shape h ++ [x; y]) !! Datatypes.S (length (farrays h)) = Some y.
Proof.
  rewrite lookup_app_r by (unfold shape; rewrite length_fmap; lia).
  unfold shape. rewrite length_fmap.
  replace (Datatypes.S (length (farrays h)) - length (farrays h))%nat with 1%nat by lia.
  reflexivity.
Qed.

Lemma lookup_shape_old h (x y : nat) l :
  (l < length (farrays h))%nat ->
  (shape h ++ [x; y]) !! l = Some (length (fcells h l)).
Proof.
  intros H. rewrite lookup_app_l by (unfold shape; rewrite length_fmap; lia).
  now apply shape_lookup_fcells.
Qed.

(** Without [overwriteInput] the working copies are made and the caller's
    arrays are untouched. *)
Lemma working_copies_framed input h :
  let A := Dgesv.A input in
  let B := Dgesv.B input in
  let n := rows A in
  let nrhs := cols B in
  let N := length (farrays h) in
  let K := length (iarrays h) in
  let Ls := shape h ++ [Z.to_nat (n * n); Z.to_nat (n * nrhs)] in
  default false (Dgesv.overwriteInput input) = false ->
  early_status A B = 0 ->
  exists h3,
    dgesv_working_copies input h =
    (push_iarray h3 (replicate (Z.to_nat n) 0),
     Val (inr (fresh_matrix N n n (layout A),
               fresh_matrix (Datatypes.S N) n nrhs (layout B),
               length (iarrays h3))))
    /\ framed N K h Ls h3.
Proof.
  intros A B n nrhs N K Ls Ho Hst.
  destruct (early_status_0 A B Hst) as (Hsq & Hrows & Hn & Hnrhs & _).
  apply (working_copies_fresh (framed N K h Ls) input h Ho Hst); fold A B n nrhs N.
  - split; [apply frame_push_two|]. rewrite shape_push_two. unfold Ls, zeros. cbn.
    now rewrite !length_replicate.
  - intros i j _ _. apply framed_read.
  - intros i j _ _. apply framed_read.
  - intros i j _ _. apply framed_access. cbn. lia.
  - intros i j _ _. apply framed_access. cbn. lia.
  - intros src. apply framed_set_from with (L := Z.to_nat (n * n)); [lia | | nia].
    apply lookup_shape_first.
  - intros src. apply framed_set_from with (L := Z.to_nat (n * nrhs)); [lia | | nia].
    apply lookup_shape_second.
Qed.




(** ** Bounds safety *)

Lemma quiet_readable Ls h m :
  dense h m ->
  readable (quiet (shape h ++ Ls)) m (rows m) (cols m).
Proof.
  intros (Hld & Hd & Hlen) i j Hi Hj.
  apply (quiet_access (shape h ++ Ls) (data m) (length (fcells h (data m)))).
  - rewrite lookup_app_l by (unfold shape; rewrite length_fmap; lia).
    now apply shape_lookup_fcells.
  - pose proof (dense_offset m i j Hld Hi Hj). lia.
Qed.

Lemma dense_order_small h m :
  dense h m -> cols m = rows m -> rows m < 2 ^ 31.
Proof.
  intros (_ & _ & Hlen) Hsq. rewrite Hsq in Hlen.
  assert (rows m * rows m < 2 ^ 53) by lia.
  assert (2 ^ 53 < 2 ^ 31 * 2 ^ 31) by (vm_compute; reflexivity).
  nia.
Qed.

(** C9: on dense views over buffers that exist and are long enough, every
    typed-array access of [dgesv], those of [dgetrf] and [dgetrs] through
    the unchecked private accessors included, falls inside its array: the
    flag [oob] is still down when [dgesv] returns. *)
Theorem dgesv_accesses_in_bounds input h :
  oob h = false ->
  dense h (Dgesv.A input) -> dense h (Dgesv.B input) ->
  exists h' r, Dgesv.dgesv input h = (h', Val r) /\ oob h' = false.
Proof.
  intros Hoob HdA HdB.
  set (A := Dgesv.A input) in *. set (B := Dgesv.B input) in *.
  destruct (Z.eq_dec (early_status A B) 0) as [Hst|Hst].
  2: { exists h, (Dgesv.failure (early_status A B)).
       split; [now apply dgesv_rejects | exact Hoob]. }
  destruct (early_status_0 A B Hst) as (Hsq & Hrows & Hn & Hnrhs & _).
  pose proof (dense_order_small h A HdA (eq_sym Hsq)) as Hsmall.
  assert (HdA' := HdA). assert (HdB' := HdB).
  destruct HdA' as (HldA & HlA & HlenA).
  destruct HdB' as (HldB & HlB & HlenB).
  rewrite dgesv_split. unfold bind at 1. rewrite dgesv_prepare_accepts by exact Hst.
  destruct (default false (Dgesv.overwriteInput input)) eqn:Ho.
  - rewrite working_copies_overwrite by assumption. fold A B.
    destruct (dgesv_solve_safe (shape h) (length (iarrays h)) A B
                (length (fcells h (data A))) (length (fcells h (data B)))
                (eq_sym Hsq) (eq_sym Hrows)
                (shape_lookup_fcells h (data A) HlA)
                (shape_lookup_fcells h (data B) HlB)
                HldA HldB ltac:(lia) ltac:(lia) Hsmall
                (push_iarray h (replicate (Z.to_nat (rows A)) 0)))
      as (r & h' & E & Hq).
    { apply safe_push_iarray; [now split | exact Hn]. }
    exists h', r. auto.
  - set (N := length (farrays h)). set (n := rows A). set (nrhs := cols B).
    set (Ls := [Z.to_nat (n * n); Z.to_nat (n * nrhs)]).
    assert (Hnn : 0 <= n * n) by nia. assert (Hnr : 0 <= n * nrhs) by nia.
    destruct (working_copies_fresh (quiet (shape h ++ Ls)) input h Ho Hst)
      as (h3 & E3 & H3); fold A B n nrhs N.
    + split; [exact Hoob|]. rewrite shape_push_two. unfold Ls, zeros. cbn.
      now rewrite !length_replicate.
    + pose proof (quiet_readable Ls h A HdA) as H.
      fold n in H. now rewrite <- Hsq in H.
    + pose proof (quiet_readable Ls h B HdB) as H.
      fold nrhs in H. now rewrite <- Hrows in H.
    + apply (quiet_accessible (shape h ++ Ls) (fresh_matrix N n n (layout A))
               (Z.to_nat (n * n))); cbn; [apply lookup_shape_first | reflexivity | lia].
    + apply (quiet_accessible (shape h ++ Ls) (fresh_matrix (Datatypes.S N) n nrhs (layout B))
               (Z.to_nat (n * nrhs))); cbn; [apply lookup_shape_second | reflexivity | lia].
    + intros src. apply quiet_set_from with (L := Z.to_nat (n * n)); [|lia].
      apply lookup_shape_first.
    + intros src. apply quiet_set_from with (L := Z.to_nat (n * nrhs)); [|lia].
      apply lookup_shape_second.
    + rewrite E3.
      destruct (dgesv_solve_safe (shape h ++ Ls) (length (iarrays h3))
                  (fresh_matrix N n n (layout A))
                  (fresh_matrix (Datatypes.S N) n nrhs (layout B))
                  (Z.to_nat (n * n)) (Z.to_nat (n * nrhs))
                  eq_refl eq_refl
                  (lookup_shape_first h _ _) (lookup_shape_second h _ _)
                  eq_refl eq_refl
                  ltac:(cbn; lia) ltac:(cbn; lia) Hsmall
                  (push_iarray h3 (replicate (Z.to_nat n) 0)))
        as (r & h' & E & Hq).
      { apply safe_push_iarray; [exact H3 | exact Hn]. }
      exists h', r. auto.
Qed.

Lemma dgesv_accesses_in_bounds_witness :
  exists h' r,
    Dgesv.dgesv (system_input 2 1 (Some true)) regular_heap = (h', Val r) /\
    oob h' = false.
Proof.
  apply dgesv_accesses_in_bounds.
  - reflexivity.
  - unfold dense. cbn. repeat split; lia.
  - unfold dense. cbn. repeat split; lia.
Defined.

(** The hypothesis is needed: over a buffer of 3 cells the private accessors
    of the solver reach cell 3 of a 2 by 2 view unchecked. *)
Lemma dgesv_short_buffer_out_of_bounds :
  oob (fst (Dgesv.dgesv (system_input 2 1 (Some true))
              (system_heap [2; 1; 1] [3; 4]))) = true.
Proof. vm_compute. reflexivity. Qed.

(** ** Singular matrices *)

Lemma pivot_search_farrays m k h h' r :
  0 <= k < rows m ->
  Dgesv.pivot_search m k h = (h', Val r) ->
  farrays h' = farrays h /\ iarrays h' = iarrays h.
Proof.
  intros Hk E.
  destruct (pivot_search_reads
              (fun x => farrays x = farrays h /\ iarrays x = iarrays h) m k Hk) with (h := h)
    as (r' & h'' & E' & H & _).
  - intros i Hi x [Hf Hi'].
    destruct (ta_read_effect (data m) (offset m i k) x) as (v & x' & Ex & Ef & Ei & _).
    exists v, x'. split; [exact Ex|]. split; congruence.
  - auto.
  - rewrite E in E'. injection E' as <- <-. exact H.
Qed.

(** C2, as the code has it: when the pivot scan of column [k] ends with the
    maximum 0, [dgetrf] returns [k + 1] at once and [dgesv] returns status
    [k + 1] with the float arrays as they were at the beginning of step [k]:
    no row is swapped and nothing is eliminated in column [k] or after it.
    The singular matrix [[1,2],[2,4]] of the test-suite runs into this at
    [k = 1] and yields status 2. *)
Theorem dgetrf_zero_pivot_stops input h h1 workA workB pivots k hk hk' maxRow maxVal :
  dgesv_prepare input h = (h1, Val (inr (workA, workB, pivots))) ->
  0 <= k < rows workA ->
  loop_ret (Dgesv.dgetrf_step workA pivots) 0 (Z.to_nat k) h1 = (hk, Val None) ->
  Dgesv.pivot_search workA k hk = (hk', Val (maxRow, maxVal)) ->
  feq maxVal fzero = true ->
  (exists h',
     Dgesv.dgetrf workA pivots h1 = (h', Val {| info := k + 1 |}) /\
     Dgesv.dgesv input h = (h', Val (Dgesv.failure (k + 1))) /\
     farrays h' = farrays hk) /\
  solve ColumnMajor ColumnMajor 2 1 [[1; 2]; [2; 4]] [[1]; [2]] = Val (2, None).
Proof.
  intros Hprep Hk Hloop Hscan Hzero. split; [|vm_compute; reflexivity].
  destruct (ia_write_effect pivots k (maxRow + 1) hk') as (h' & Ew & Ef & _).
  destruct (pivot_search_farrays workA k hk hk' _ Hk Hscan) as [Ef' _].
  assert (Hstep : Dgesv.dgetrf_step workA pivots k hk = (h', Val (Some {| info := k + 1 |}))).
  { unfold Dgesv.dgetrf_step, bind. rewrite Hscan, Ew, Hzero. reflexivity. }
  assert (Hf : Dgesv.dgetrf workA pivots h1 = (h', Val {| info := k + 1 |})).
  { unfold Dgesv.dgetrf, for_ret, bind.
    replace (Z.to_nat (rows workA - 0))
      with (Z.to_nat k + Datatypes.S (Z.to_nat (rows workA - k - 1)))%nat by lia.
    rewrite (loop_ret_app _ _ _ _ _ _ Hloop).
    replace (0 + Z.of_nat (Z.to_nat k)) with k by lia.
    cbn [loop_ret]. unfold bind. rewrite Hstep. reflexivity. }
  exists h'. split; [exact Hf|]. split; [|congruence].
  rewrite dgesv_split. unfold bind. rewrite Hprep. unfold dgesv_solve, bind.
  rewrite Hf. cbn [info].
  destruct (k + 1 =? 0) eqn:E; [lia | reflexivity].
Qed.

Lemma dgetrf_zero_pivot_stops_witness :
  exists h',
    Dgesv.dgesv (system_input 2 1 (Some true)) singular_heap =
    (h', Val (Dgesv.failure (1 + 1))).
Proof.
  pose (input := system_input 2 1 (Some true)).
  pose (h1 := fst (dgesv_prepare input singular_heap)).
  pose (hk := fst (loop_ret (Dgesv.dgetrf_step (Dgesv.A input) 0%nat) 0 1 h1)).
  pose (hk' := fst (Dgesv.pivot_search (Dgesv.A input) 1 hk)).
  destruct (dgetrf_zero_pivot_stops input singular_heap h1
              (Dgesv.A input) (Dgesv.B input) 0%nat 1 hk hk' 1 fzero)
    as [(h' & _ & E & _) _].
  - vm_compute. reflexivity.
  - cbn. lia.
  - vm_compute. reflexivity.
  - vm_compute. reflexivity.
  - vm_compute. reflexivity.
  - exists h'. exact E.
Defined.

(** ** The empty system *)

Lemma dgesv_solve_empty workA workB pivots h :
  rows workA = 0 ->
  dgesv_solve workA workB pivots h =
  (h, Val {| lapack_result := {| info := 0 |};
             result := Some {| Dgesv.solution := workB; Dgesv.LU := workA;
                               Dgesv.pivots := pivots |} |}).
Proof.
  intros H. unfold dgesv_solve, Dgesv.dgetrf, Dgesv.dgetrs, for_ret,
    Dgesv.forward_substitution, Dgesv.back_substitution, for_each, for_range, for_down.
  rewrite H. reflexivity.
Qed.

(** C10, as the code has it: for a 0 by 0 [A] and a 0 by [nrhs] [B] whose
    leading dimensions are at least 1, [dgesv] returns status 0 with a
    populated result; a leading dimension below 1, as in the views that
    [createFloat64Matrix] builds for an empty matrix, is rejected with -4
    (for [A]) or -7 (for [B]). *)
Theorem dgesv_empty_system input h :
  let A := Dgesv.A input in
  let B := Dgesv.B input in
  rows A = 0 -> cols A = 0 -> rows B = 0 -> 0 <= cols B ->
  (1 <= leadingDimension A -> 1 <= leadingDimension B ->
     exists h' r o, Dgesv.dgesv input h = (h', Val r) /\
                    info r = 0 /\ result r = Some o) /\
  (leadingDimension A < 1 ->
     Dgesv.dgesv input h = (h, Val (Dgesv.failure (-4)))) /\
  (1 <= leadingDimension A -> leadingDimension B < 1 ->
     Dgesv.dgesv input h = (h, Val (Dgesv.failure (-7)))).
Proof.
  intros A B HrA HcA HrB Hnrhs.
  assert (Hsq : rows A = cols A) by lia. assert (Hrows : rows A = rows B) by lia.
  pose proof (early_status_cases A B Hsq Hrows) as (_ & _ & H4 & H7).
  split; [|split].
  - intros HldA HldB.
    assert (Hst : early_status A B = 0).
    { unfold early_status. rewrite HrA, HcA, HrB. cbn.
      change (Z.max 1 0) with 1.
      destruct (cols B <? 0) eqn:E1; [lia|].
      destruct (leadingDimension A <? 1) eqn:E2; [lia|].
      destruct (leadingDimension B <? 1) eqn:E3; [lia | reflexivity]. }
    rewrite dgesv_split. unfold bind at 1. rewrite dgesv_prepare_accepts by exact Hst.
    destruct (default false (Dgesv.overwriteInput input)) eqn:Ho.
    + rewrite working_copies_overwrite by (assumption || (fold A; lia)).
      rewrite dgesv_solve_empty by exact HrA.
      eexists _, _, _. split; [reflexivity | split; reflexivity].
    + destruct (working_copies_framed input h Ho Hst) as (h3 & E3 & _).
      rewrite E3, dgesv_solve_empty by exact HrA.
      eexists _, _, _. split; [reflexivity | split; reflexivity].
  - intros HldA. rewrite dgesv_rejects; fold A B; rewrite H4 by lia; [reflexivity | lia].
  - intros HldA HldB. rewrite dgesv_rejects; fold A B; rewrite H7 by lia; [reflexivity | lia].
Qed.

Lemma dgesv_empty_system_witness :
  exists h' r o,
    Dgesv.dgesv
      {| Dgesv.A := {| data := 0%nat; rows := 0; cols := 0; layout := ColumnMajor;
                       leadingDimension := 1 |};
         Dgesv.B := {| data := 1%nat; rows := 0; cols := 2; layout := ColumnMajor;
                       leadingDimension := 1 |};
         Dgesv.overwriteInput := None |}
      (system_heap [] []) = (h', Val r) /\
    info r = 0 /\ result r = Some o.
Proof.
  refine (proj1 (dgesv_empty_system _ _ _ _ _ _) _ _); cbn; lia.
Defined.

(** * Layout independence *)

(** ** Two runs in lockstep *)

Section Hoare2.
Context {A B : Type}.

Lemma triple2_ret (R : heap -> heap -> Prop) (a : A) (Q : A -> heap -> heap -> Prop) :
  (forall h1 h2, R h1 h2 -> Q a h1 h2) -> triple2 R (ret a) (ret a) Q.
Proof. intros H h1 h2 Hh. exists a, h1, h2. auto. Qed.

Lemma triple2_bind (R : heap -> heap -> Prop) (m1 m2 : M A)
    (S : A -> heap -> heap -> Prop) (k1 k2 : A -> M B)
    (Q : B -> heap -> heap -> Prop) :
  triple2 R m1 m2 S -> (forall a, triple2 (S a) (k1 a) (k2 a) Q) ->
  triple2 R (bind m1 k1) (bind m2 k2) Q.
Proof.
  intros Hm Hk h1 h2 Hh. destruct (Hm h1 h2 Hh) as (a & x1 & x2 & E1 & E2 & Hx).
  destruct (Hk a x1 x2 Hx) as (b & y1 & y2 & F1 & F2 & Hy).
  exists b, y1, y2. unfold bind. rewrite E1, E2. auto.
Qed.

Lemma triple2_conseq (R R' : heap -> heap -> Prop) (m1 m2 : M A)
    (Q Q' : A -> heap -> heap -> Prop) :
  triple2 R' m1 m2 Q' -> (forall h1 h2, R h1 h2 -> R' h1 h2) ->
  (forall a h1 h2, Q' a h1 h2 -> Q a h1 h2) ->
  triple2 R m1 m2 Q.
Proof.
  intros Hm HR HQ h1 h2 Hh.
  destruct (Hm h1 h2 (HR h1 h2 Hh)) as (a & x1 & x2 & E1 & E2 & Hx).
  exists a, x1, x2. auto.
Qed.

Lemma triple2_assume (phi : Prop) (R : heap -> heap -> Prop) (m1 m2 : M A)
    (Q : A -> heap -> heap -> Prop) :
  (phi -> triple2 R m1 m2 Q) -> triple2 (fun h1 h2 => R h1 h2 /\ phi) m1 m2 Q.
Proof. intros H h1 h2 [Hh Hphi]. now apply H. Qed.

Lemma triple2_if (b : bool) (R : heap -> heap -> Prop) (m1 m2 n1 n2 : M A)
    (Q : A -> heap -> heap -> Prop) :
  (b = true -> triple2 R m1 m2 Q) -> (b = false -> triple2 R n1 n2 Q) ->
  triple2 R (if b then m1 else n1) (if b then m2 else n2) Q.
Proof. destruct b; auto. Qed.
End Hoare2.

Lemma triple2_loop_up {S} (Inv : Z -> S -> heap -> heap -> Prop)
    (body1 body2 : Z -> S -> M S) (cnt : nat) : forall (lo : Z) (s : S),
  (forall k s, lo <= k < lo + Z.of_nat cnt ->
     triple2 (Inv k s) (body1 k s) (body2 k s) (Inv (k + 1))) ->
  triple2 (Inv lo s) (loop_up body1 lo cnt s) (loop_up body2 lo cnt s)
    (Inv (lo + Z.of_nat cnt)).
Proof.
  induction cnt as [|c IH]; intros lo s Hbody; simpl loop_up.
  - apply triple2_ret. intros h1 h2 Hh. now replace (lo + Z.of_nat 0) with lo by lia.
  - eapply triple2_bind.
    + apply Hbody. lia.
    + intros s'. replace (lo + Z.of_nat (Datatypes.S c)) with (lo + 1 + Z.of_nat c) by lia.
      apply IH. intros k s0 Hk. apply Hbody. lia.
Qed.

Lemma triple2_for_range {S} (Inv : Z -> S -> heap -> heap -> Prop) (lo hi : Z)
    (body1 body2 : Z -> S -> M S) (s : S) :
  (forall k s, lo <= k < hi ->
     triple2 (Inv k s) (body1 k s) (body2 k s) (Inv (k + 1))) ->
  triple2 (Inv lo s) (for_range lo hi body1 s) (for_range lo hi body2 s)
    (Inv (Z.max lo hi)).
Proof.
  intros Hbody. unfold for_range.
  replace (Z.max lo hi) with (lo + Z.of_nat (Z.to_nat (hi - lo))) by lia.
  apply triple2_loop_up. intros k s0 Hk. apply Hbody. lia.
Qed.

Lemma triple2_for_each (R : heap -> heap -> Prop) (lo hi : Z)
    (body1 body2 : Z -> M unit) :
  (forall k, lo <= k < hi -> triple2 R (body1 k) (body2 k) (fun _ => R)) ->
  triple2 R (for_each lo hi body1) (for_each lo hi body2) (fun _ => R).
Proof.
  intros Hbody. unfold for_each.
  apply (triple2_for_range (fun _ _ => R) lo hi
           (fun k _ => body1 k) (fun k _ => body2 k) tt).
  intros k _ Hk. now apply Hbody.
Qed.

Lemma triple2_for_down (R : heap -> heap -> Prop) (n : Z)
    (body1 body2 : Z -> M unit) :
  (forall k, 0 <= k < n -> triple2 R (body1 k) (body2 k) (fun _ => R)) ->
  triple2 R (for_down n body1) (for_down n body2) (fun _ => R).
Proof.
  unfold for_down. intros Hbody.
  assert (G : forall cnt hi,
              (forall k, hi - Z.of_nat cnt <= k < hi ->
                 triple2 R (body1 k) (body2 k) (fun _ => R)) ->
              triple2 R (loop_down body1 hi cnt) (loop_down body2 hi cnt) (fun _ => R)).
  { induction cnt as [|c IH]; intros hi Hhi; simpl loop_down.
    - now apply triple2_ret.
    - eapply triple2_bind; [apply Hhi; lia|]. intros u. apply IH.
      intros k Hk. apply Hhi. lia. }
  apply G. intros k Hk. apply Hbody. lia.
Qed.

Lemma triple2_loop_ret {T} (Inv : Z -> heap -> heap -> Prop)
    (Q : T -> heap -> heap -> Prop)
    (body1 body2 : Z -> M (option T)) (cnt : nat) : forall lo : Z,
  (forall k, lo <= k < lo + Z.of_nat cnt ->
     triple2 (Inv k) (body1 k) (body2 k)
       (fun r h1 h2 => match r with Some x => Q x h1 h2 | None => Inv (k + 1) h1 h2 end)) ->
  triple2 (Inv lo) (loop_ret body1 lo cnt) (loop_ret body2 lo cnt)
    (fun r h1 h2 => match r with
                    | Some x => Q x h1 h2
                    | None => Inv (lo + Z.of_nat cnt) h1 h2
                    end).
Proof.
  induction cnt as [|c IH]; intros lo Hbody; simpl loop_ret.
  - apply triple2_ret. intros h1 h2 Hh. now replace (lo + Z.of_nat 0) with lo by lia.
  - eapply triple2_bind; [apply Hbody; lia|].
    intros [x|].
    + now apply triple2_ret.
    + replace (lo + Z.of_nat (Datatypes.S c)) with (lo + 1 + Z.of_nat c) by lia.
      apply IH. intros k Hk. apply Hbody. lia.
Qed.

(** ** The solver on two views in lockstep

    As in the section on what the accessors keep, the text of the solver is
    followed once, here for two runs on two views: whatever relation the
    paired accesses keep is kept by the paired routines, which return the
    same value. *)

Section Keeps2.
Variable R : heap -> heap -> Prop.

Lemma swap_rows_keeps2 m1 m2 width r1 r2 :
  (forall j, 0 <= j < width -> access2 R m1 m2 r1 j) ->
  (forall j, 0 <= j < width -> access2 R m1 m2 r2 j) ->
  triple2 R (Dgesv.swap_rows m1 width r1 r2) (Dgesv.swap_rows m2 width r1 r2)
    (fun _ => R).
Proof.
  intros H1 H2. unfold Dgesv.swap_rows. apply triple2_for_each. intros j Hj.
  eapply triple2_bind; [apply H1, Hj|]. intros temp.
  eapply triple2_bind; [apply H2, Hj|]. intros x.
  eapply triple2_bind; [apply H1, Hj|]. intros u.
  apply H2, Hj.
Qed.

Lemma pivot_search_keeps2 m1 m2 k :
  rows m2 = rows m1 -> 0 <= k < rows m1 ->
  (forall i, k <= i < rows m1 -> access2 R m1 m2 i k) ->
  triple2 R (Dgesv.pivot_search m1 k) (Dgesv.pivot_search m2 k)
    (fun r h1 h2 => R h1 h2 /\ k <= fst r < rows m1).
Proof.
  intros Hrows Hk Hacc. unfold Dgesv.pivot_search. rewrite Hrows.
  eapply triple2_bind; [apply Hacc; lia|]. intros a.
  eapply triple2_conseq
    with (R' := fun h1 h2 => R h1 h2 /\ k <= fst (k, Math_abs a) < rows m1).
  - apply (triple2_for_range (fun _ r h1 h2 => R h1 h2 /\ k <= fst r < rows m1)).
    intros i [maxRow maxVal] Hi. apply triple2_assume. intros Hr.
    eapply triple2_bind; [apply Hacc; lia|]. intros x. cbv zeta.
    destruct (fgt _ _); apply triple2_ret; intros h1 h2 Hh; cbn in *;
      (split; [exact Hh | lia]).
  - intros h1 h2 Hh; cbn; split; [auto | lia].
  - intros r h1 h2 Hh. exact Hh.
Qed.

Lemma eliminate_column_keeps2 m1 m2 k :
  rows m2 = rows m1 -> 0 <= k < rows m1 ->
  (forall i j, 0 <= i < rows m1 -> 0 <= j < rows m1 -> access2 R m1 m2 i j) ->
  triple2 R (Dgesv.eliminate_column m1 k) (Dgesv.eliminate_column m2 k)
    (fun _ => R).
Proof.
  intros Hrows Hk Hacc. unfold Dgesv.eliminate_column. rewrite Hrows.
  eapply triple2_bind; [apply Hacc; lia|]. intros pivot.
  apply triple2_for_each. intros i Hi.
  eapply triple2_bind; [apply Hacc; lia|]. intros x. cbv zeta.
  eapply triple2_bind; [apply Hacc; lia|]. intros u.
  apply triple2_for_each. intros j Hj.
  eapply triple2_bind; [apply Hacc; lia|]. intros a.
  eapply triple2_bind; [apply Hacc; lia|]. intros b.
  apply Hacc; lia.
Qed.

Lemma forward_substitution_keeps2 a1 b1 a2 b2 :
  rows a2 = rows a1 -> cols b2 = cols b1 ->
  (forall i j, 0 <= i < rows a1 -> 0 <= j < rows a1 -> access2 R a1 a2 i j) ->
  (forall i j, 0 <= i < rows a1 -> 0 <= j < cols b1 -> access2 R b1 b2 i j) ->
  triple2 R (Dgesv.forward_substitution a1 b1) (Dgesv.forward_substitution a2 b2)
    (fun _ => R).
Proof.
  intros Hrows Hcols HA HB. unfold Dgesv.forward_substitution. rewrite Hrows, Hcols.
  apply triple2_for_each. intros k Hk.
  apply triple2_for_each. intros i Hi.
  eapply triple2_bind; [apply HA; lia|]. intros factor.
  apply triple2_for_each. intros j Hj.
  eapply triple2_bind; [apply HB; lia|]. intros b.
  eapply triple2_bind; [apply HB; lia|]. intros c.
  apply HB; lia.
Qed.

Lemma back_substitution_keeps2 a1 b1 a2 b2 :
  rows a2 = rows a1 -> cols b2 = cols b1 ->
  (forall i j, 0 <= i < rows a1 -> 0 <= j < rows a1 -> access2 R a1 a2 i j) ->
  (forall i j, 0 <= i < rows a1 -> 0 <= j < cols b1 -> access2 R b1 b2 i j) ->
  triple2 R (Dgesv.back_substitution a1 b1) (Dgesv.back_substitution a2 b2)
    (fun _ => R).
Proof.
  intros Hrows Hcols HA HB. unfold Dgesv.back_substitution. rewrite Hrows, Hcols.
  apply triple2_for_down. intros k Hk.
  eapply triple2_bind; [apply HA; lia|]. intros pivot.
  eapply triple2_bind.
  { apply triple2_for_each. intros j Hj.
    eapply triple2_bind; [apply HB; lia|]. intros b.
    apply HB; lia. }
  intros u. apply triple2_for_each. intros i Hi.
  eapply triple2_bind; [apply HA; lia|]. intros factor.
  apply triple2_for_each. intros j Hj.
  eapply triple2_bind; [apply HB; lia|]. intros b.
  eapply triple2_bind; [apply HB; lia|]. intros c.
  apply HB; lia.
Qed.

Lemma apply_interchange_keeps2 p1 p2 b1 b2 nr k :
  cols b2 = cols b1 -> 0 <= k < nr ->
  (forall i j, 0 <= i < nr -> 0 <= j < cols b1 -> access2 R b1 b2 i j) ->
  triple2 R (ia_read p1 k) (ia_read p2 k)
    (fun p h1 h2 => R h1 h2 /\ exists q, p = Some q /\ 0 <= q - 1 < nr) ->
  triple2 R (Dgesv.apply_interchange p1 b1 k) (Dgesv.apply_interchange p2 b2 k)
    (fun _ => R).
Proof.
  intros Hcols Hk HB Hp. unfold Dgesv.apply_interchange. rewrite Hcols.
  eapply triple2_bind; [exact Hp|].
  intros p. apply triple2_assume. intros (q & -> & Hq).
  apply triple2_if; intros _; [|now apply triple2_ret].
  apply swap_rows_keeps2; intros j Hj; apply HB; lia.
Qed.

Lemma dgetrs_keeps2 a1 b1 a2 b2 p1 p2 :
  rows a2 = rows a1 -> cols b2 = cols b1 ->
  (forall i j, 0 <= i < rows a1 -> 0 <= j < rows a1 -> access2 R a1 a2 i j) ->
  (forall i j, 0 <= i < rows a1 -> 0 <= j < cols b1 -> access2 R b1 b2 i j) ->
  (forall k, 0 <= k < rows a1 ->
     triple2 R (ia_read p1 k) (ia_read p2 k)
       (fun p h1 h2 => R h1 h2 /\ exists q, p = Some q /\ 0 <= q - 1 < rows a1)) ->
  triple2 R (Dgesv.dgetrs Dgesv.N a1 p1 b1) (Dgesv.dgetrs Dgesv.N a2 p2 b2)
    (fun r h1 h2 => R h1 h2 /\ info r = 0).
Proof.
  intros Hrows Hcols HA HB Hp. unfold Dgesv.dgetrs. rewrite Hrows.
  eapply triple2_bind.
  { apply triple2_for_each. intros k Hk.
    apply apply_interchange_keeps2 with (nr := rows a1); auto. }
  intros u. eapply triple2_bind; [now apply forward_substitution_keeps2|].
  intros u'. eapply triple2_bind; [now apply back_substitution_keeps2|].
  intros u''. now apply triple2_ret.
Qed.
End Keeps2.

Lemma dgetrf_keeps2 (Inv : Z -> heap -> heap -> Prop) (m1 m2 : Matrix) (p1 p2 : loc) :
  rows m2 = rows m1 ->
  (forall k i j, 0 <= k <= rows m1 -> 0 <= i < rows m1 -> 0 <= j < rows m1 ->
     access2 (Inv k) m1 m2 i j) ->
  (forall k r, 0 <= k < rows m1 -> k <= r < rows m1 ->
     triple2 (Inv k) (ia_write p1 k (r + 1)) (ia_write p2 k (r + 1))
       (fun _ => Inv (k + 1))) ->
  triple2 (Inv 0) (Dgesv.dgetrf m1 p1) (Dgesv.dgetrf m2 p2)
    (fun r h1 h2 => (info r = 0 /\ Inv (Z.max 0 (rows m1)) h1 h2) \/
                    (exists k, 0 <= k < rows m1 /\ info r = k + 1 /\ Inv (k + 1) h1 h2)).
Proof.
  intros Hrows Hacc Hpiv. unfold Dgesv.dgetrf. rewrite Hrows.
  eapply triple2_bind.
  - unfold for_ret.
    apply (triple2_loop_ret Inv
             (fun r h1 h2 => exists k, 0 <= k < rows m1 /\ info r = k + 1 /\
                                       Inv (k + 1) h1 h2)).
    intros k Hk. assert (Hk' : 0 <= k < rows m1) by lia.
    unfold Dgesv.dgetrf_step. rewrite Hrows.
    eapply triple2_bind.
    { apply pivot_search_keeps2; [exact Hrows | exact Hk' |].
      intros i Hi. apply Hacc; lia. }
    intros [maxRow maxVal]. apply triple2_assume. cbn [fst]. intros Hr.
    eapply triple2_bind; [now apply Hpiv|]. intros u.
    destruct (feq maxVal fzero).
    + apply triple2_ret. intros h1 h2 Hh. exists k. cbn. auto.
    + eapply triple2_bind with (S := fun _ => Inv (k + 1)).
      { apply triple2_if; intros _; [|apply triple2_ret; intros h1 h2 Hh; exact Hh].
        apply swap_rows_keeps2; intros j Hj; apply Hacc; lia. }
      intros u'. eapply triple2_bind.
      { apply eliminate_column_keeps2; [exact Hrows | exact Hk' |].
        intros i j Hi Hj. apply Hacc; lia. }
      intros u''. now apply triple2_ret.
  - intros [res|]; apply triple2_ret; intros h1 h2 Hh.
    + right. exact Hh.
    + left. split; [reflexivity|].
      replace (0 + Z.of_nat (Z.to_nat (rows m1 - 0))) with (Z.max 0 (rows m1)) in Hh by lia.
      exact Hh.
Qed.

(** ** Entries of dense views *)

Lemma offset_inj m i j i' j' :
  leadingDimension m =
    match layout m with ColumnMajor => rows m | RowMajor => cols m end ->
  0 <= i < rows m -> 0 <= j < cols m -> 0 <= i' < rows m -> 0 <= j' < cols m ->
  offset m i j = offset m i' j' -> i = i' /\ j = j'.
Proof.
  intros Hld Hi Hj Hi' Hj'. unfold offset. rewrite Hld.
  destruct (layout m); intros E.
  - assert (i = i') by nia. subst. lia.
  - assert (j = j') by nia. subst. lia.
Qed.

Lemma ta_write_inside l idx v h a :
  farrays h !! l = Some a -> 0 <= idx < Z.of_nat (length (cells a)) ->
  ta_write l idx v h =
  (set_farray h l {| elt := elt a;
                     cells := <[Z.to_nat idx := coerce (elt a) v]> (cells a) |},
   Val tt).
Proof.
  intros Hl Hidx. unfold ta_write. rewrite Hl.
  destruct (in_range idx (length (cells a))) eqn:E; [reflexivity|].
  apply in_range_spec in Hidx. congruence.
Qed.

Lemma getElement_inside h m i j :
  leadingDimension m =
    match layout m with ColumnMajor => rows m | RowMajor => cols m end ->
  rows m * cols m <= Z.of_nat (length (fcells h (data m))) ->
  0 <= i < rows m -> 0 <= j < cols m ->
  Dgesv.getElement m i j h = (h, Val (entry h m i j)).
Proof.
  intros Hld Hlen Hi Hj. unfold Dgesv.getElement, bind, entry.
  pose proof (dense_offset m i j Hld Hi Hj) as Hoff.
  destruct (ta_read_effect (data m) (offset m i j) h) as (v & h' & E & _ & _ & Hin).
  destruct Hin as [-> ->]; [lia|]. now rewrite E.
Qed.

Lemma backed_inside h m :
  backed h m ->
  leadingDimension m =
    match layout m with ColumnMajor => rows m | RowMajor => cols m end /\
  rows m * cols m <= Z.of_nat (length (fcells h (data m))).
Proof.
  intros (Hld & a & Ha & _ & Hlen). split; [exact Hld|].
  now rewrite (fcells_lookup h (data m) a Ha).
Qed.

Lemma dense_inside h m :
  dense h m ->
  leadingDimension m =
    match layout m with ColumnMajor => rows m | RowMajor => cols m end /\
  rows m * cols m <= Z.of_nat (length (fcells h (data m))).
Proof. intros (Hld & _ & Hlen). split; [exact Hld | lia]. Qed.

(** A write at a position of a backed view changes that entry of the view
    and nothing else: not the other entries of the view, not the arrays at
    other locations, not the integer arrays. *)
Lemma setElement_backed h m i j v :
  backed h m -> 0 <= i < rows m -> 0 <= j < cols m ->
  exists h',
    Dgesv.setElement m i j v h = (h', Val tt) /\
    iarrays h' = iarrays h /\
    length (farrays h') = length (farrays h) /\
    (forall l, l <> data m -> farrays h' !! l = farrays h !! l) /\
    (forall m', backed h m' -> backed h' m') /\
    (forall i' j', 0 <= i' < rows m -> 0 <= j' < cols m ->
       entry h' m i' j' = if (i' =? i) && (j' =? j) then v else entry h m i' j').
Proof.
  intros Hb Hi Hj. assert (Hb' := Hb). destruct Hb' as (Hld & a & Ha & Helt & Hlen).
  pose proof (dense_offset m i j Hld Hi Hj) as Hoff.
  unfold Dgesv.setElement. rewrite (ta_write_inside _ _ _ _ a Ha) by lia.
  rewrite Helt. cbn [coerce].
  eexists. split; [reflexivity|]. split; [reflexivity|]. split; [|split; [|split]].
  - cbn. apply length_insert.
  - intros l Hl. cbn. apply list_lookup_insert_ne. congruence.
  - intros m' (Hld' & a' & Ha' & Helt' & Hlen'). split; [exact Hld'|].
    destruct (Nat.eq_dec (data m') (data m)) as [E|E].
    + rewrite E in Ha'. assert (a' = a) as -> by congruence.
      eexists. split; [|split].
      * cbn. rewrite E. apply list_lookup_insert_eq. now apply lookup_lt_Some in Ha.
      * reflexivity.
      * cbn. rewrite length_insert. exact Hlen'.
    + exists a'. split; [|auto]. cbn. rewrite list_lookup_insert_ne by congruence.
      exact Ha'.
  - intros i' j' Hi' Hj'. unfold entry, fcells. cbn [farrays set_farray].
    rewrite list_lookup_insert_eq by (now apply lookup_lt_Some in Ha). cbn [cells].
    rewrite Ha.
    pose proof (dense_offset m i' j' Hld Hi' Hj') as Hoff'.
    destruct ((i' =? i) && (j' =? j)) eqn:E.
    + apply andb_true_iff in E as [E1 E2]. apply Z.eqb_eq in E1, E2. subst.
      rewrite list_lookup_insert_eq by lia. reflexivity.
    + rewrite list_lookup_insert_ne; [reflexivity|].
      intros Heq. assert (offset m i j = offset m i' j') as Ho by lia.
      destruct (offset_inj m i j i' j' Hld Hi Hj Hi' Hj' Ho) as [-> ->].
      rewrite !Z.eqb_refl in E. discriminate.
Qed.

Lemma entry_other h h' m :
  farrays h' !! data m = farrays h !! data m ->
  forall i j, entry h' m i j = entry h m i j.
Proof. intros E i j. unfold entry, fcells. now rewrite E. Qed.

(** ** The factorisation and the solve on two representations *)

Section Twin.
Variables (A1 B1 A2 B2 : Matrix) (p1 p2 : loc) (n nrhs : Z).
Hypothesis HrA1 : rows A1 = n.
Hypothesis HcA1 : cols A1 = n.
Hypothesis HrA2 : rows A2 = n.
Hypothesis HcA2 : cols A2 = n.
Hypothesis HrB1 : rows B1 = n.
Hypothesis HcB1 : cols B1 = nrhs.
Hypothesis HrB2 : rows B2 = n.
Hypothesis HcB2 : cols B2 = nrhs.
Hypothesis Hdisj1 : data A1 <> data B1.
Hypothesis Hdisj2 : data A2 <> data B2.

Let R := coupled A1 B1 A2 B2 p1 p2 n nrhs.

Lemma coupled_intro k h1 h2 :
  backed h1 A1 -> backed h1 B1 -> backed h2 A2 -> backed h2 B2 ->
  same_entries n n h1 A1 h2 A2 -> same_entries n nrhs h1 B1 h2 B2 ->
  icells h1 p1 = icells h2 p2 ->
  Z.of_nat (length (icells h1 p1)) = n ->
  (p1 < length (iarrays h1))%nat -> (p2 < length (iarrays h2))%nat ->
  (forall i, 0 <= i < k -> pivot_in_range n i (icells h1 p1 !! Z.to_nat i)) ->
  R k h1 h2.
Proof. unfold R, coupled. tauto. Qed.

Lemma coupled_read k m1 m2 nr nc h1 h2 i j :
  R k h1 h2 ->
  backed h1 m1 -> backed h2 m2 -> rows m1 = nr -> cols m1 = nc ->
  rows m2 = nr -> cols m2 = nc ->
  same_entries nr nc h1 m1 h2 m2 ->
  0 <= i < nr -> 0 <= j < nc ->
  exists a, Dgesv.getElement m1 i j h1 = (h1, Val a) /\
            Dgesv.getElement m2 i j h2 = (h2, Val a).
Proof.
  intros _ Hb1 Hb2 Hr1 Hc1 Hr2 Hc2 Hs Hi Hj.
  destruct (backed_inside _ _ Hb1) as [Hld1 Hlen1].
  destruct (backed_inside _ _ Hb2) as [Hld2 Hlen2].
  exists (entry h1 m1 i j). split.
  - apply getElement_inside; auto; lia.
  - rewrite (Hs i j Hi Hj). apply getElement_inside; auto; lia.
Qed.

Lemma coupled_access_A k i j :
  0 <= i < n -> 0 <= j < n -> access2 (R k) A1 A2 i j.
Proof.
  intros Hi Hj. split.
  - intros h1 h2 Hh. assert (Hh' := Hh).
    destruct Hh' as (Ha1 & Hb1 & Ha2 & Hb2 & HsA & HsB & Hrest).
    destruct (coupled_read k A1 A2 n n h1 h2 i j Hh Ha1 Ha2 HrA1 HcA1 HrA2 HcA2 HsA Hi Hj)
      as (a & E1 & E2).
    exists a, h1, h2. auto.
  - intros v h1 h2 (Ha1 & Hb1 & Ha2 & Hb2 & HsA & HsB & Hp & Hlen & Hv1 & Hv2 & Hpiv).
    destruct (setElement_backed h1 A1 i j v Ha1 ltac:(lia) ltac:(lia))
      as (h1' & E1 & Ei1 & El1 & Ef1 & Hk1 & He1).
    destruct (setElement_backed h2 A2 i j v Ha2 ltac:(lia) ltac:(lia))
      as (h2' & E2 & Ei2 & El2 & Ef2 & Hk2 & He2).
    exists tt, h1', h2'. split; [exact E1|]. split; [exact E2|].
    assert (Hi1 : icells h1' p1 = icells h1 p1) by (unfold icells; now rewrite Ei1).
    assert (Hi2 : icells h2' p2 = icells h2 p2) by (unfold icells; now rewrite Ei2).
    apply coupled_intro; auto; try congruence.
    + intros i' j' Hi' Hj'. rewrite He1, He2 by lia. destruct (_ && _); auto.
    + intros i' j' Hi' Hj'.
      rewrite (entry_other h1 h1' B1) by (apply Ef1; congruence).
      rewrite (entry_other h2 h2' B2) by (apply Ef2; congruence). auto.
    + intros i' Hi'. rewrite Hi1. now apply Hpiv.
Qed.

Lemma coupled_access_B k i j :
  0 <= i < n -> 0 <= j < nrhs -> access2 (R k) B1 B2 i j.
Proof.
  intros Hi Hj. split.
  - intros h1 h2 Hh. assert (Hh' := Hh).
    destruct Hh' as (Ha1 & Hb1 & Ha2 & Hb2 & HsA & HsB & Hrest).
    destruct (coupled_read k B1 B2 n nrhs h1 h2 i j Hh Hb1 Hb2 HrB1 HcB1 HrB2 HcB2 HsB Hi Hj)
      as (a & E1 & E2).
    exists a, h1, h2. auto.
  - intros v h1 h2 (Ha1 & Hb1 & Ha2 & Hb2 & HsA & HsB & Hp & Hlen & Hv1 & Hv2 & Hpiv).
    destruct (setElement_backed h1 B1 i j v Hb1 ltac:(lia) ltac:(lia))
      as (h1' & E1 & Ei1 & El1 & Ef1 & Hk1 & He1).
    destruct (setElement_backed h2 B2 i j v Hb2 ltac:(lia) ltac:(lia))
      as (h2' & E2 & Ei2 & El2 & Ef2 & Hk2 & He2).
    exists tt, h1', h2'. split; [exact E1|]. split; [exact E2|].
    assert (Hi1 : icells h1' p1 = icells h1 p1) by (unfold icells; now rewrite Ei1).
    assert (Hi2 : icells h2' p2 = icells h2 p2) by (unfold icells; now rewrite Ei2).
    apply coupled_intro; auto; try congruence.
    + intros i' j' Hi' Hj'.
      rewrite (entry_other h1 h1' A1) by (apply Ef1; congruence).
      rewrite (entry_other h2 h2' A2) by (apply Ef2; congruence). auto.
    + intros i' j' Hi' Hj'. rewrite He1, He2 by lia. destruct (_ && _); auto.
    + intros i' Hi'. rewrite Hi1. now apply Hpiv.
Qed.

Lemma backed_iarrays h h' m :
  farrays h' = farrays h -> backed h m -> backed h' m.
Proof. intros E (Hld & a & Ha & H). split; [exact Hld|]. exists a. now rewrite E. Qed.

Lemma entry_iarrays h h' m i j :
  farrays h' = farrays h -> entry h' m i j = entry h m i j.
Proof. intros E. unfold entry, fcells. now rewrite E. Qed.

Lemma coupled_ia_write k r :
  0 <= k < n -> k <= r < n -> n < 2 ^ 31 ->
  triple2 (R k) (ia_write p1 k (r + 1)) (ia_write p2 k (r + 1)) (fun _ => R (k + 1)).
Proof.
  intros Hk Hr Hn h1 h2 (Ha1 & Hb1 & Ha2 & Hb2 & HsA & HsB & Hp & Hlen & Hv1 & Hv2 & Hpiv).
  destruct (ia_write_effect p1 k (r + 1) h1) as (h1' & E1 & Ef1 & El1 & _ & Hin1).
  destruct (ia_write_effect p2 k (r + 1) h2) as (h2' & E2 & Ef2 & El2 & _ & Hin2).
  destruct Hin1 as [_ Ec1]; [lia|]. destruct Hin2 as [_ Ec2]; [rewrite <- Hp; lia|].
  exists tt, h1', h2'. split; [exact E1|]. split; [exact E2|].
  apply coupled_intro; eauto using backed_iarrays; try lia.
  - intros i j Hi Hj.
    rewrite (entry_iarrays h1 h1'), (entry_iarrays h2 h2') by assumption. auto.
  - intros i j Hi Hj.
    rewrite (entry_iarrays h1 h1'), (entry_iarrays h2 h2') by assumption. auto.
  - now rewrite Ec1, Ec2, Hp.
  - rewrite Ec1, length_insert. exact Hlen.
  - intros i Hi. rewrite Ec1. destruct (Z.eq_dec i k) as [->|Hne].
    + rewrite list_lookup_insert_eq by lia.
      exists (r + 1). split; [|lia]. f_equal. apply to_int32_small. lia.
    + rewrite list_lookup_insert_ne by lia. apply Hpiv. lia.
Qed.

Lemma coupled_ia_read k :
  0 <= k < n ->
  triple2 (R n) (ia_read p1 k) (ia_read p2 k)
    (fun p h1 h2 => R n h1 h2 /\ exists q, p = Some q /\ 0 <= q - 1 < n).
Proof.
  intros Hk h1 h2 Hh. assert (Hh' := Hh).
  destruct Hh' as (_ & _ & _ & _ & _ & _ & Hp & Hlen & _ & _ & Hpiv).
  destruct (ia_read_effect p1 k h1) as (v1 & h1' & E1 & _ & _ & Hin1).
  destruct (ia_read_effect p2 k h2) as (v2 & h2' & E2 & _ & _ & Hin2).
  destruct Hin1 as [-> ->]; [lia|]. destruct Hin2 as [-> ->]; [rewrite <- Hp; lia|].
  rewrite <- Hp in E2.
  exists (icells h1 p1 !! Z.to_nat k), h1, h2. split; [exact E1|]. split; [exact E2|].
  split; [exact Hh|]. destruct (Hpiv k ltac:(lia)) as (q & Hq & Hrange).
  exists q. split; [exact Hq | lia].
Qed.

Lemma coupled_mono k k' h1 h2 : k' <= k -> R k h1 h2 -> R k' h1 h2.
Proof.
  intros Hk (Ha1 & Hb1 & Ha2 & Hb2 & HsA & HsB & Hp & Hlen & Hv1 & Hv2 & Hpiv).
  apply coupled_intro; auto. intros i Hi. apply Hpiv. lia.
Qed.

(** From coupled heaps the two runs of the second half of [dgesv] return the
    same status, both with a result or both without, in coupled heaps: the
    factors, the solutions and the pivots agree. *)
Lemma dgesv_solve_coupled h1 h2 :
  0 <= n < 2 ^ 31 ->
  R 0 h1 h2 ->
  exists r1 r2 h1' h2',
    dgesv_solve A1 B1 p1 h1 = (h1', Val r1) /\
    dgesv_solve A2 B2 p2 h2 = (h2', Val r2) /\
    info r1 = info r2 /\
    R 0 h1' h2' /\
    ((result r1 = None /\ result r2 = None) \/
     (result r1 = Some {| Dgesv.solution := B1; Dgesv.LU := A1; Dgesv.pivots := p1 |} /\
      result r2 = Some {| Dgesv.solution := B2; Dgesv.LU := A2; Dgesv.pivots := p2 |})).
Proof.
  intros Hn Hh.
  destruct (dgetrf_keeps2 R A1 A2 p1 p2) with (h1 := h1) (h2 := h2)
    as (lu & x1 & x2 & E1 & E2 & Hx); try (rewrite ?HrA1, ?HrA2; auto; fail).
  - rewrite HrA1. intros k i j _ Hi Hj. now apply coupled_access_A.
  - rewrite HrA1. intros k r Hk Hr. apply coupled_ia_write; lia.
  - rewrite HrA1 in Hx. unfold dgesv_solve, bind. rewrite E1, E2.
    destruct (info lu =? 0) eqn:E; cbn [negb].
    + assert (Hx' : R n x1 x2).
      { destruct Hx as [[_ H]|(k & Hk & Ek & _)].
        - now replace (Z.max 0 n) with n in H by lia.
        - apply Z.eqb_eq in E. lia. }
      destruct (dgetrs_keeps2 (R n) A1 B1 A2 B2 p1 p2) with (h1 := x1) (h2 := x2)
        as (sr & y1 & y2 & F1 & F2 & Hy & Hsr); try (rewrite ?HrA1, ?HrA2, ?HcB1, ?HcB2; auto; fail).
      * rewrite HrA1. intros i j Hi Hj. now apply coupled_access_A.
      * rewrite HrA1, HcB1. intros i j Hi Hj. now apply coupled_access_B.
      * rewrite HrA1. intros k Hk. now apply coupled_ia_read.
      * rewrite F1, F2, Hsr. cbn [Z.eqb negb].
        eexists _, _, y1, y2. split; [reflexivity|]. split; [reflexivity|].
        split; [reflexivity|]. split; [eapply coupled_mono; [|exact Hy]; lia|].
        right. split; reflexivity.
    + eexists _, _, x1, x2. split; [reflexivity|]. split; [reflexivity|].
      split; [reflexivity|]. split.
      * destruct Hx as [[_ H]|(k & Hk & _ & H)]; (eapply coupled_mono; [|exact H]; lia).
      * left. split; reflexivity.
Qed.
End Twin.

(** ** The copy *)

Lemma public_getElement_private m i j h :
  0 <= i < rows m -> 0 <= j < cols m ->
  MatrixUtils.getElement m i j h = Dgesv.getElement m i j h.
Proof.
  intros Hi Hj. unfold MatrixUtils.getElement, Dgesv.getElement, bind at 1.
  now rewrite validateIndices_ok.
Qed.

Lemma public_setElement_private m i j v h :
  0 <= i < rows m -> 0 <= j < cols m ->
  MatrixUtils.setElement m i j v h = Dgesv.setElement m i j v h.
Proof.
  intros Hi Hj. unfold MatrixUtils.setElement, Dgesv.setElement, bind.
  now rewrite validateIndices_ok.
Qed.

Lemma copy_frame_refl tgt h : copy_frame tgt h h.
Proof. unfold copy_frame. auto. Qed.

Lemma copy_frame_trans tgt h h' h'' :
  copy_frame tgt h h' -> copy_frame tgt h' h'' -> copy_frame tgt h h''.
Proof.
  intros (Ei & El & Ef & Hb) (Ei' & El' & Ef' & Hb'). unfold copy_frame.
  split; [congruence|]. split; [congruence|]. split; [|auto].
  intros l Hl. rewrite Ef' by exact Hl. now apply Ef.
Qed.

Lemma copy_bulk h src tgt :
  dense h src -> backed h tgt ->
  layout src = layout tgt -> leadingDimension src = leadingDimension tgt ->
  rows src = rows tgt -> cols src = cols tgt ->
  0 <= rows src -> 0 <= cols src ->
  exists h',
    ta_set_from (data tgt) (data src) (rows src * cols src) h = (h', Val tt) /\
    copy_frame tgt h h' /\
    same_entries (rows src) (cols src) h' tgt h src.
Proof.
  intros (Hlds & Hvs & Hlens) Hbt Hlay Hld Hr Hc Hr0 Hc0.
  assert (Hbt' := Hbt). destruct Hbt' as (Hldt & a & Ha & Helt & Hlent).
  assert (Hnn : 0 <= rows src * cols src) by nia.
  assert (Hsub : subarray_to (fcells h (data src)) (rows src * cols src) =
                 take (Z.to_nat (rows src * cols src)) (fcells h (data src))).
  { unfold subarray_to. destruct (rows src * cols src <? 0) eqn:E; [lia|].
    f_equal. lia. }
  assert (Hslen : length (subarray_to (fcells h (data src)) (rows src * cols src)) =
                  Z.to_nat (rows src * cols src)).
  { rewrite Hsub, length_take. lia. }
  unfold ta_set_from. rewrite Ha, Hslen, Helt.
  destruct (length (cells a) <? Z.to_nat (rows src * cols src))%nat eqn:E.
  { apply Nat.ltb_lt in E. rewrite <- Hr, <- Hc in Hlent. lia. }
  eexists. split; [reflexivity|]. split.
  - unfold copy_frame. cbn. split; [reflexivity|]. split; [apply length_insert|]. split.
    + intros l Hl. apply list_lookup_insert_ne. congruence.
    + intros m' (Hld' & a' & Ha' & Helt' & Hlen'). split; [exact Hld'|].
      destruct (Nat.eq_dec (data m') (data tgt)) as [Et|Et].
      * rewrite Et in Ha'. assert (a' = a) as -> by congruence.
        eexists. split; [|split].
        -- rewrite Et. cbn [farrays set_farray].
           apply list_lookup_insert_eq. now apply lookup_lt_Some in Ha.
        -- reflexivity.
        -- cbn. rewrite length_app, length_fmap, Hslen, length_drop.
           apply Nat.ltb_ge in E. lia.
      * exists a'. split; [|auto]. cbn [farrays set_farray].
        now rewrite list_lookup_insert_ne by congruence.
  - intros i j Hi Hj. unfold entry at 1.
    erewrite fcells_lookup
      by (cbn [farrays set_farray]; apply list_lookup_insert_eq;
          now apply lookup_lt_Some in Ha).
    cbn [cells].
    assert (Hoff : offset tgt i j = offset src i j).
    { unfold offset. now rewrite Hlay, Hld. }
    pose proof (dense_offset src i j Hlds Hi Hj) as Hin.
    rewrite Hoff, lookup_app_l by (rewrite length_fmap, Hslen; lia).
    rewrite list_lookup_fmap, Hsub, lookup_take_lt by lia.
    unfold entry. destruct (fcells h (data src) !! Z.to_nat (offset src i j)); reflexivity.
Qed.

Lemma dense_copy_frame tgt h h' m :
  copy_frame tgt h h' -> data m <> data tgt -> dense h m -> dense h' m.
Proof.
  intros (_ & El & Ef & _) Hne (Hld & Hv & Hlen). unfold dense, fcells in *.
  rewrite Ef by exact Hne. rewrite El. auto.
Qed.

Lemma entry_copy_frame tgt h h' m i j :
  copy_frame tgt h h' -> data m <> data tgt -> entry h' m i j = entry h m i j.
Proof. intros (_ & _ & Ef & _) Hne. apply entry_other, Ef, Hne. Qed.

(** One step of the element-wise copy. *)
Lemma copy_element h0 h src tgt i j :
  dense h0 src -> backed h0 tgt -> data src <> data tgt ->
  rows src = rows tgt -> cols src = cols tgt ->
  0 <= i < rows src -> 0 <= j < cols src ->
  copy_frame tgt h0 h ->
  exists h',
    (let* v := MatrixUtils.getElement src i j in
     MatrixUtils.setElement tgt i j v) h = (h', Val tt) /\
    copy_frame tgt h0 h' /\
    forall i' j', 0 <= i' < rows src -> 0 <= j' < cols src ->
      entry h' tgt i' j' =
      if (i' =? i) && (j' =? j) then entry h0 src i j else entry h tgt i' j'.
Proof.
  intros Hds Hbt Hne Hr Hc Hi Hj Hfr.
  pose proof (dense_copy_frame tgt h0 h src Hfr Hne Hds) as Hds'.
  destruct (dense_inside _ _ Hds') as [Hld Hlen].
  assert (Hbt' : backed h tgt) by (apply Hfr; exact Hbt).
  unfold bind. rewrite public_getElement_private by assumption.
  rewrite (getElement_inside h src i j Hld Hlen Hi Hj).
  rewrite public_setElement_private by lia.
  destruct (setElement_backed h tgt i j (entry h src i j) Hbt' ltac:(lia) ltac:(lia))
    as (h' & E & Ei & El & Ef & Hk & He).
  exists h'. split; [exact E|]. split.
  - apply (copy_frame_trans tgt h0 h h' Hfr). unfold copy_frame. auto.
  - intros i' j' Hi' Hj'. rewrite He by lia.
    now rewrite (entry_copy_frame tgt h0 h src i j Hfr Hne).
Qed.

Lemma copy_elementwise h src tgt :
  dense h src -> backed h tgt -> data src <> data tgt ->
  rows src = rows tgt -> cols src = cols tgt ->
  exists h',
    for_each 0 (rows src) (fun i =>
      for_each 0 (cols src) (fun j =>
        let* v := MatrixUtils.getElement src i j in
        MatrixUtils.setElement tgt i j v)) h = (h', Val tt) /\
    copy_frame tgt h h' /\
    same_entries (rows src) (cols src) h' tgt h src.
Proof.
  intros Hds Hbt Hne Hr Hc.
  set (done_rows := fun (i : Z) (x : heap) =>
         copy_frame tgt h x /\
         forall i' j', 0 <= i' < i -> 0 <= j' < cols src ->
           entry x tgt i' j' = entry h src i' j').
  assert (T : triple (done_rows 0)
                (for_each 0 (rows src) (fun i =>
                   for_each 0 (cols src) (fun j =>
                     let* v := MatrixUtils.getElement src i j in
                     MatrixUtils.setElement tgt i j v)))
                (fun _ => done_rows (Z.max 0 (rows src)))).
  { unfold for_each at 1.
    apply (triple_for_range (fun i (_ : unit) => done_rows i)).
    intros i _ Hi.
    set (done_cols := fun (j : Z) (x : heap) =>
           done_rows i x /\
           forall j', 0 <= j' < j -> entry x tgt i j' = entry h src i j').
    eapply triple_conseq with (P' := done_cols 0)
                              (Q' := fun _ => done_cols (Z.max 0 (cols src))).
    - unfold for_each.
      apply (triple_for_range (fun j (_ : unit) => done_cols j)).
      intros j _ Hj x ((Hfr & Hrows) & Hcols).
      destruct (copy_element h x src tgt i j Hds Hbt Hne Hr Hc Hi Hj Hfr)
        as (x' & E & Hfr' & He).
      exists tt, x'. split; [exact E|]. split; [split; [exact Hfr'|]|].
      + intros i' j' Hi' Hj'. rewrite He by lia.
        destruct (i' =? i) eqn:Ei; [apply Z.eqb_eq in Ei; lia|]. cbn. now apply Hrows.
      + intros j' Hj'. rewrite He by lia. rewrite Z.eqb_refl. cbn.
        destruct (j' =? j) eqn:Ej; [apply Z.eqb_eq in Ej; now subst|].
        apply Hcols. apply Z.eqb_neq in Ej. lia.
    - intros x Hx. split; [exact Hx|]. intros j' Hj'. lia.
    - intros _ x ((Hfr & Hrows) & Hcols). split; [exact Hfr|].
      intros i' j' Hi' Hj'. destruct (Z.eq_dec i' i) as [->|Hne'].
      + apply Hcols. lia.
      + apply Hrows; lia. }
  destruct (T h) as ([] & h' & E & Hfr & Hall).
  { split; [apply copy_frame_refl|]. intros i' j' Hi'. lia. }
  exists h'. split; [exact E|]. split; [exact Hfr|].
  intros i j Hi Hj. apply Hall; lia.
Qed.

(** [copyMatrix] into a backed view at another location returns, and the
    target then holds the entries of the source. *)
Lemma copyMatrix_correct h src tgt :
  dense h src -> backed h tgt -> data src <> data tgt ->
  rows src = rows tgt -> cols src = cols tgt ->
  0 <= rows src -> 0 <= cols src ->
  exists h',
    MatrixUtils.copyMatrix src tgt h = (h', Val tt) /\
    copy_frame tgt h h' /\
    same_entries (rows src) (cols src) h' tgt h src.
Proof.
  intros Hds Hbt Hne Hr Hc Hr0 Hc0. unfold MatrixUtils.copyMatrix.
  rewrite <- Hr, <- Hc, !Z.eqb_refl. cbn [negb orb].
  destruct (layout_eqb (layout src) (layout tgt)
            && (leadingDimension src =? leadingDimension tgt)
            && (leadingDimension src =? rows src)) eqn:E.
  - apply andb_true_iff in E as [E E3]. apply andb_true_iff in E as [E1 E2].
    apply Z.eqb_eq in E2. apply copy_bulk; auto.
    destruct (layout src), (layout tgt); (discriminate || reflexivity).
  - now apply copy_elementwise.
Qed.

(** ** [dgesv] on two representations of one system *)

Lemma dense_push h m a : dense h m -> dense (push_farray h a) m.
Proof.
  intros (Hld & Hv & Hlen). unfold dense, fcells, push_farray in *. cbn.
  rewrite lookup_app_l by exact Hv. rewrite length_app. split; [exact Hld|].
  split; [lia | exact Hlen].
Qed.

Lemma entry_push h m a i j :
  (data m < length (farrays h))%nat -> entry (push_farray h a) m i j = entry h m i j.
Proof.
  intros Hv. unfold entry, fcells, push_farray. cbn. now rewrite lookup_app_l by exact Hv.
Qed.

Lemma backed_fresh h r c lay b :
  0 <= r * c ->
  backed (push_farray (push_farray h (zeros (r * c))) b)
         (fresh_matrix (length (farrays h)) r c lay).
Proof.
  intros H. split; [reflexivity|]. exists (zeros (r * c)). cbn. split; [|split].
  - rewrite lookup_app_l by (rewrite length_app; cbn; lia).
    rewrite lookup_app_r by lia. now rewrite Nat.sub_diag.
  - reflexivity.
  - rewrite length_replicate. lia.
Qed.

Lemma backed_fresh_last h r c lay :
  0 <= r * c ->
  backed (push_farray h (zeros (r * c))) (fresh_matrix (length (farrays h)) r c lay).
Proof.
  intros H. split; [reflexivity|]. exists (zeros (r * c)). cbn. split; [|split].
  - rewrite lookup_app_r by lia. now rewrite Nat.sub_diag.
  - reflexivity.
  - rewrite length_replicate. lia.
Qed.

(** Without [overwriteInput], on dense views, the working copies are backed
    and hold the entries of the caller's matrices. *)
Lemma working_copies_content input h :
  let A := Dgesv.A input in
  let B := Dgesv.B input in
  let n := rows A in
  let nrhs := cols B in
  let N := length (farrays h) in
  let workA := fresh_matrix N n n (layout A) in
  let workB := fresh_matrix (Datatypes.S N) n nrhs (layout B) in
  default false (Dgesv.overwriteInput input) = false ->
  early_status A B = 0 ->
  dense h A -> dense h B ->
  exists h3,
    dgesv_working_copies input h =
    (push_iarray h3 (replicate (Z.to_nat n) 0),
     Val (inr (workA, workB, length (iarrays h3)))) /\
    backed h3 workA /\ backed h3 workB /\
    same_entries n n h3 workA h A /\ same_entries n nrhs h3 workB h B.
Proof.
  intros A B n nrhs N workA workB Ho Hst HdA HdB.
  destruct (early_status_0 A B Hst) as (Hsq & Hrows & Hn & Hnrhs & _).
  assert (Hnn : 0 <= n * n) by (unfold n; nia).
  assert (Hnr : 0 <= n * nrhs) by (unfold n, nrhs; nia).
  assert (HvA : (data A < N)%nat) by apply HdA.
  assert (HvB : (data B < N)%nat) by apply HdB.
  unfold dgesv_working_copies. rewrite Ho. cbn [negb]. fold A B n nrhs.
  unfold bind at 1. rewrite createFloat64Matrix_zero by exact Hnn.
  unfold bind at 1. rewrite createFloat64Matrix_zero by exact Hnr.
  cbn [farrays push_farray]. rewrite length_app. cbn [length].
  replace (length (farrays h) + 1)%nat with (Datatypes.S N) by (unfold N; lia).
  fold N workA workB.
  set (h2 := push_farray (push_farray h (zeros (n * n))) (zeros (n * nrhs))).
  assert (HdA2 : dense h2 A) by (unfold h2; now apply dense_push, dense_push).
  assert (HdB2 : dense h2 B) by (unfold h2; now apply dense_push, dense_push).
  assert (HbA2 : backed h2 workA) by (unfold h2, workA, N; now apply backed_fresh).
  assert (HbB2 : backed h2 workB).
  { unfold h2, workB.
    replace (Datatypes.S N) with (length (farrays (push_farray h (zeros (n * n)))))
      by (cbn; rewrite length_app; cbn; unfold N; lia).
    now apply backed_fresh_last. }
  destruct (copyMatrix_correct h2 A workA HdA2 HbA2) as (ha & Ea & Hfa & Hsa);
    try (cbn; unfold n in *; lia).
  assert (HdBa : dense ha B) by (apply (dense_copy_frame workA h2); auto; cbn; lia).
  assert (HbBa : backed ha workB) by (apply Hfa; exact HbB2).
  destruct (copyMatrix_correct ha B workB HdBa HbBa) as (hb & Eb & Hfb & Hsb);
    try (cbn; unfold n, nrhs in *; lia).
  exists hb. split; [|split; [|split; [|split]]].
  - unfold bind. rewrite Ea, Eb. now rewrite new_Int32Array_eq.
  - apply Hfb, Hfa, HbA2.
  - apply Hfb; [exact HbBa|..]; auto.
  - intros i j Hi Hj.
    rewrite (entry_copy_frame workB ha hb workA) by (auto; cbn; lia).
    fold n in Hsa. rewrite <- Hsq in Hsa. fold n in Hsa.
    rewrite (Hsa i j Hi Hj). unfold h2. now rewrite !entry_push by (cbn; rewrite ?length_app; lia).
  - intros i j Hi Hj.
    replace (rows B) with n in Hsb by (unfold n; lia). fold nrhs in Hsb.
    rewrite (Hsb i j Hi Hj).
    rewrite (entry_copy_frame workA h2 ha B) by (auto; cbn; lia).
    unfold h2. now rewrite !entry_push by (cbn; rewrite ?length_app; lia).
Qed.

(** X15: layout independence of the solver proper. Two systems with the
    same logical contents, on dense views in whatever layouts, that both pass
    the checks of [dgesv], get without [overwriteInput] the same status and,
    on success, the same factors, solutions and pivots. *)
Theorem dgesv_layout_independent in1 in2 h1 h2 :
  let A1 := Dgesv.A in1 in
  let B1 := Dgesv.B in1 in
  let A2 := Dgesv.A in2 in
  let B2 := Dgesv.B in2 in
  let n := rows A1 in
  let nrhs := cols B1 in
  default false (Dgesv.overwriteInput in1) = false ->
  default false (Dgesv.overwriteInput in2) = false ->
  early_status A1 B1 = 0 -> early_status A2 B2 = 0 ->
  dense h1 A1 -> dense h1 B1 -> dense h2 A2 -> dense h2 B2 ->
  rows A2 = n -> cols B2 = nrhs ->
  same_entries n n h1 A1 h2 A2 -> same_entries n nrhs h1 B1 h2 B2 ->
  exists h1' h2' r1 r2,
    Dgesv.dgesv in1 h1 = (h1', Val r1) /\
    Dgesv.dgesv in2 h2 = (h2', Val r2) /\
    info r1 = info r2 /\
    ((result r1 = None /\ result r2 = None) \/
     exists o1 o2,
       result r1 = Some o1 /\ result r2 = Some o2 /\
       same_entries n n h1' (Dgesv.LU o1) h2' (Dgesv.LU o2) /\
       same_entries n nrhs h1' (Dgesv.solution o1) h2' (Dgesv.solution o2) /\
       icells h1' (Dgesv.pivots o1) = icells h2' (Dgesv.pivots o2)).
Proof.
  intros A1 B1 A2 B2 n nrhs Ho1 Ho2 Hst1 Hst2 HdA1 HdB1 HdA2 HdB2 Hrows2 Hcols2 HsA HsB.
  destruct (early_status_0 A1 B1 Hst1) as (Hsq1 & Hr1 & Hn & Hnrhs & _).
  destruct (early_status_0 A2 B2 Hst2) as (Hsq2 & Hr2 & _).
  pose proof (dense_order_small h1 A1 HdA1 (eq_sym Hsq1)) as Hsmall.
  destruct (working_copies_content in1 h1 Ho1 Hst1 HdA1 HdB1)
    as (x1 & E1 & HbA1 & HbB1 & HeA1 & HeB1).
  destruct (working_copies_content in2 h2 Ho2 Hst2 HdA2 HdB2)
    as (x2 & E2 & HbA2 & HbB2 & HeA2 & HeB2).
  fold A1 B1 n nrhs in E1, HbA1, HbB1, HeA1, HeB1.
  fold A2 B2 in E2, HbA2, HbB2, HeA2, HeB2. rewrite Hrows2, Hcols2 in *.
  set (wA1 := fresh_matrix (length (farrays h1)) n n (layout A1)) in *.
  set (wB1 := fresh_matrix (Datatypes.S (length (farrays h1))) n nrhs (layout B1)) in *.
  set (wA2 := fresh_matrix (length (farrays h2)) n n (layout A2)) in *.
  set (wB2 := fresh_matrix (Datatypes.S (length (farrays h2))) n nrhs (layout B2)) in *.
  destruct (dgesv_solve_coupled wA1 wB1 wA2 wB2 (length (iarrays x1)) (length (iarrays x2))
              n nrhs eq_refl eq_refl eq_refl eq_refl eq_refl eq_refl eq_refl eq_refl
              ltac:(cbn; lia) ltac:(cbn; lia)
              (push_iarray x1 (replicate (Z.to_nat n) 0))
              (push_iarray x2 (replicate (Z.to_nat n) 0)))
    as (r1 & r2 & y1 & y2 & F1 & F2 & Hinfo & Hy & Hres).
  { unfold n in *. lia. }
  { unfold coupled, icells, push_iarray. cbn.
    rewrite !lookup_app_r by lia. rewrite !Nat.sub_diag. cbn.
    rewrite length_replicate, !length_app. cbn.
    split; [exact HbA1|]. split; [exact HbB1|]. split; [exact HbA2|].
    split; [exact HbB2|]. split; [|split; [|repeat split; try lia]].
    - intros i j Hi Hj.
      transitivity (entry h1 A1 i j); [now apply HeA1|].
      transitivity (entry h2 A2 i j); [now apply HsA|]. symmetry. now apply HeA2.
    - intros i j Hi Hj.
      transitivity (entry h1 B1 i j); [now apply HeB1|].
      transitivity (entry h2 B2 i j); [now apply HsB|]. symmetry. now apply HeB2. }
  exists y1, y2, r1, r2.
  split; [|split; [|split; [exact Hinfo|]]].
  - rewrite dgesv_split. unfold bind.
    rewrite dgesv_prepare_accepts by exact Hst1. fold A1 B1 n nrhs. now rewrite E1.
  - rewrite dgesv_split. unfold bind.
    rewrite dgesv_prepare_accepts by exact Hst2. now rewrite E2.
  - destruct Hres as [Hnone|[Hs1 Hs2]]; [left; exact Hnone|].
    right. eexists _, _. split; [exact Hs1|]. split; [exact Hs2|]. cbn.
    destruct Hy as (_ & _ & _ & _ & HA & HB & Hp & _). auto.
Qed.

(** The theorem at work: the 2 by 2 system with two right-hand sides, stored
    row-major and column-major. *)
Lemma dgesv_layout_independent_example :
  exists h1' h2' r1 r2,
    Dgesv.dgesv (layout_input RowMajor) row_major_heap = (h1', Val r1) /\
    Dgesv.dgesv (layout_input ColumnMajor) column_major_heap = (h2', Val r2) /\
    info r1 = info r2.
Proof.
  assert (Hcases : forall i, 0 <= i < 2 -> i = 0 \/ i = 1) by (intros; lia).
  destruct (dgesv_layout_independent (layout_input RowMajor) (layout_input ColumnMajor)
              row_major_heap column_major_heap)
    as (h1' & h2' & r1 & r2 & E1 & E2 & Hinfo & _);
    try reflexivity;
    try (unfold dense; cbn; repeat split; lia).
  - intros i j Hi Hj. cbn in Hi, Hj.
    destruct (Hcases i Hi) as [->| ->], (Hcases j Hj) as [->| ->]; reflexivity.
  - intros i j Hi Hj. cbn in Hi, Hj.
    destruct (Hcases i Hi) as [->| ->], (Hcases j Hj) as [->| ->]; reflexivity.
  - exists h1', h2', r1, r2. auto.
Defined.

(** X16: layout independence in place. With [overwriteInput], two systems
    with the same logical contents on dense views over [Float64Array]s, the
    matrix and the right-hand sides of each in distinct buffers, that both
    pass the checks of [dgesv], get the same status and, on success, the
    same factors, solutions and pivots in the caller's buffers. *)
Lemma dgesv_layout_independent_overwrite in1 in2 h1 h2 :
  let A1 := Dgesv.A in1 in
  let B1 := Dgesv.B in1 in
  let A2 := Dgesv.A in2 in
  let B2 := Dgesv.B in2 in
  let n := rows A1 in
  let nrhs := cols B1 in
  default false (Dgesv.overwriteInput in1) = true ->
  default false (Dgesv.overwriteInput in2) = true ->
  early_status A1 B1 = 0 -> early_status A2 B2 = 0 ->
  n < 2 ^ 31 ->
  backed h1 A1 -> backed h1 B1 -> backed h2 A2 -> backed h2 B2 ->
  data A1 <> data B1 -> data A2 <> data B2 ->
  rows A2 = n -> cols B2 = nrhs ->
  same_entries n n h1 A1 h2 A2 -> same_entries n nrhs h1 B1 h2 B2 ->
  exists h1' h2' r1 r2,
    Dgesv.dgesv in1 h1 = (h1', Val r1) /\
    Dgesv.dgesv in2 h2 = (h2', Val r2) /\
    info r1 = info r2 /\
    ((result r1 = None /\ result r2 = None) \/
     exists o1 o2,
       result r1 = Some o1 /\ result r2 = Some o2 /\
       same_entries n n h1' (Dgesv.LU o1) h2' (Dgesv.LU o2) /\
       same_entries n nrhs h1' (Dgesv.solution o1) h2' (Dgesv.solution o2) /\
       icells h1' (Dgesv.pivots o1) = icells h2' (Dgesv.pivots o2)).
Proof.
  intros A1 B1 A2 B2 n nrhs Ho1 Ho2 Hst1 Hst2 Hsmall HbA1 HbB1 HbA2 HbB2 Hd1 Hd2
    Hrows2 Hcols2 HsA HsB.
  destruct (early_status_0 A1 B1 Hst1) as (Hsq1 & Hr1 & Hn & Hnrhs & _).
  destruct (early_status_0 A2 B2 Hst2) as (Hsq2 & Hr2 & _).
  destruct (dgesv_solve_coupled A1 B1 A2 B2 (length (iarrays h1)) (length (iarrays h2))
              n nrhs eq_refl ltac:(unfold n; lia) Hrows2 ltac:(unfold n in *; lia)
              ltac:(unfold n; lia) eq_refl ltac:(unfold n in *; lia) Hcols2
              Hd1 Hd2
              (push_iarray h1 (replicate (Z.to_nat n) 0))
              (push_iarray h2 (replicate (Z.to_nat n) 0)))
    as (r1 & r2 & y1 & y2 & F1 & F2 & Hinfo & Hy & Hres).
  { unfold n in *. lia. }
  { unfold coupled, icells, push_iarray. cbn.
    rewrite !lookup_app_r by lia. rewrite !Nat.sub_diag. cbn.
    rewrite length_replicate, !length_app. cbn.
    split; [exact HbA1|]. split; [exact HbB1|]. split; [exact HbA2|].
    split; [exact HbB2|]. split; [exact HsA|]. split; [exact HsB|].
    repeat split; try lia. }
  exists y1, y2, r1, r2.
  split; [|split; [|split; [exact Hinfo|]]].
  - rewrite dgesv_split. unfold bind.
    rewrite dgesv_prepare_accepts by exact Hst1.
    rewrite working_copies_overwrite by (assumption || (fold A1; lia)).
    exact F1.
  - rewrite dgesv_split. unfold bind.
    rewrite dgesv_prepare_accepts by exact Hst2.
    rewrite working_copies_overwrite by (assumption || (fold A2; lia)).
    fold A2 B2. rewrite Hrows2. exact F2.
  - destruct Hres as [Hnone|[Hs1 Hs2]]; [left; exact Hnone|].
    right. eexists _, _. split; [exact Hs1|]. split; [exact Hs2|]. cbn.
    destruct Hy as (_ & _ & _ & _ & HA & HB & Hp & _). auto.
Qed.

(** The 2 by 2 system with two right-hand sides, solved in place in both
    layouts. *)
Lemma dgesv_layout_independent_overwrite_witness :
  exists h1' h2' r1 r2,
    Dgesv.dgesv {| Dgesv.A := fresh_matrix 0 2 2 RowMajor;
                   Dgesv.B := fresh_matrix 1 2 2 RowMajor;
                   Dgesv.overwriteInput := Some true |} row_major_heap = (h1', Val r1) /\
    Dgesv.dgesv {| Dgesv.A := fresh_matrix 0 2 2 ColumnMajor;
                   Dgesv.B := fresh_matrix 1 2 2 ColumnMajor;
                   Dgesv.overwriteInput := Some true |} column_major_heap = (h2', Val r2) /\
    info r1 = info r2.
Proof.
  assert (Hcases : forall i, 0 <= i < 2 -> i = 0 \/ i = 1) by (intros; lia).
  assert (Hb : forall l lay b,
            farrays (system_heap [2; 1; 1; 3] b) !! l =
              Some {| elt := Double; cells := float_of_Z <$> (if Nat.eqb l 0 then [2; 1; 1; 3] else b) |} ->
            length b = 4%nat ->
            backed (system_heap [2; 1; 1; 3] b) (fresh_matrix l 2 2 lay)).
  { intros l lay b Hl Hlen. split; [reflexivity|]. eexists. split; [exact Hl|].
    split; [reflexivity|]. cbn [cells]. rewrite length_fmap.
    destruct (Nat.eqb l 0); cbn; lia. }
  destruct (dgesv_layout_independent_overwrite
              {| Dgesv.A := fresh_matrix 0 2 2 RowMajor;
                 Dgesv.B := fresh_matrix 1 2 2 RowMajor;
                 Dgesv.overwriteInput := Some true |}
              {| Dgesv.A := fresh_matrix 0 2 2 ColumnMajor;
                 Dgesv.B := fresh_matrix 1 2 2 ColumnMajor;
                 Dgesv.overwriteInput := Some true |}
              row_major_heap column_major_heap)
    as (h1' & h2' & r1 & r2 & E1 & E2 & Hinfo & _);
    try reflexivity;
    try (apply Hb; reflexivity);
    try (cbn; lia).
  - intros i j Hi Hj. cbn in Hi, Hj.
    destruct (Hcases i Hi) as [->| ->], (Hcases j Hj) as [->| ->]; reflexivity.
  - intros i j Hi Hj. cbn in Hi, Hj.
    destruct (Hcases i Hi) as [->| ->], (Hcases j Hj) as [->| ->]; reflexivity.
  - exists h1', h2', r1, r2. auto.
Defined.

(** * Further properties of the code *)

(** ** The order on numbers *)

Lemma SFltb_trans x y z : SFltb x y = true -> SFltb y z = true -> SFltb x z = true.
Proof.
  unfold SFltb, SFcompare.
  destruct x as [[]|[]| |[] m1 e1], y as [[]|[]| |[] m2 e2], z as [[]|[]| |[] m3 e3];
    try discriminate; try reflexivity;
    change (Pos.compare_cont Eq) with Pos.compare;
    destruct (Z.compare_spec e1 e2), (Z.compare_spec e2 e3), (Z.compare_spec e1 e3);
    try discriminate; try reflexivity; try lia;
    destruct (Pos.compare_spec m1 m2), (Pos.compare_spec m2 m3), (Pos.compare_spec m1 m3);
    cbn; try discriminate; try reflexivity; try lia.
Qed.

Lemma SFltb_leb_trans x y z : SFltb x y = true -> SFleb y z = true -> SFltb x z = true.
Proof.
  unfold SFltb, SFleb, SFcompare.
  destruct x as [[]|[]| |[] m1 e1], y as [[]|[]| |[] m2 e2], z as [[]|[]| |[] m3 e3];
    try discriminate; try reflexivity;
    change (Pos.compare_cont Eq) with Pos.compare;
    destruct (Z.compare_spec e1 e2), (Z.compare_spec e2 e3), (Z.compare_spec e1 e3);
    try discriminate; try reflexivity; try lia;
    destruct (Pos.compare_spec m1 m2), (Pos.compare_spec m2 m3), (Pos.compare_spec m1 m3);
    cbn; try discriminate; try reflexivity; try lia.
Qed.

Lemma SFltb_irrefl x : SFltb x x = false.
Proof.
  unfold SFltb, SFcompare. destruct x as [[]|[]| |[] m e]; try reflexivity;
    rewrite Z.compare_refl; change (Pos.compare_cont Eq) with Pos.compare;
    rewrite Pos.compare_refl; reflexivity.
Qed.

(** ** Views and their buffers *)



(** X2: [createMatrix] throws [LapackError(-1, 'createMatrix')] exactly when
    the buffer has fewer than [rows * cols] cells. Otherwise it returns,
    without allocating or writing anything, a view of the given buffer in the
    requested layout (column-major by default) whose offsets, at the positions
    inside non-negative dimensions, all fall inside the buffer. *)
Theorem createMatrix_contract d r c opts h :
  let len := Z.of_nat (length (fcells h d)) in
  (len < r * c ->
     MatrixUtils.createMatrix d r c opts h =
     (h, Throw (LapackError (-1) "createMatrix"))) /\
  (r * c <= len ->
     exists m,
       MatrixUtils.createMatrix d r c opts h = (h, Val m) /\
       data m = d /\ rows m = r /\ cols m = c /\
       layout m = default ColumnMajor (opt_layout opts) /\
       forall i j, 0 <= i < r -> 0 <= j < c -> 0 <= offset m i j < len).
Proof.
  intros len. unfold MatrixUtils.createMatrix, bind, ta_length. fold len. split.
  - intros Hlt. apply Z.ltb_lt in Hlt. now rewrite Hlt.
  - intros Hle. apply Z.ltb_ge in Hle. rewrite Hle. cbn [ret].
    eexists. split; [reflexivity|]. cbn [data rows cols layout].
    repeat (split; [reflexivity|]).
    intros i j Hi Hj. apply Z.ltb_ge in Hle.
    match goal with |- _ <= offset ?m _ _ < _ =>
      pose proof (dense_offset m i j eq_refl Hi Hj) as Ho end.
    cbn [rows cols] in Ho. lia.
Qed.






(** The initial value 0.1 is not the value the matrix holds. *)
Lemma createFloat32Matrix_rounds :
  exists h' m x,
    MatrixUtils.createFloat32Matrix 1 1
      {| opt_layout := None; opt_initialValue := Some one_tenth |} empty_heap =
    (h', Val m) /\
    MatrixUtils.getElement m 0 0 h' = (h', Val x) /\ x <> one_tenth.
Proof. eexists _, _, _. split; [vm_compute; reflexivity|]. split; [vm_compute; reflexivity | discriminate]. Qed.

(** X5: on a view with the leading dimension that [createMatrix] gives, over
    a buffer that holds all its positions, the public [getElement] reads
    without changing anything, and [setElement] at a position inside the view
    changes what [getElement] reads there (to the value as the element type of
    the buffer stores it) and nothing else: not the other entries of the
    view, not the other arrays, not the length of any array. *)
Theorem setElement_changes_one_entry h m a i j v :
  leadingDimension m =
    match layout m with ColumnMajor => rows m | RowMajor => cols m end ->
  farrays h !! data m = Some a ->
  rows m * cols m <= Z.of_nat (length (cells a)) ->
  0 <= i < rows m -> 0 <= j < cols m ->
  exists h',
    MatrixUtils.setElement m i j v h = (h', Val tt) /\
    iarrays h' = iarrays h /\ oob h' = oob h /\ shape h' = shape h /\
    (forall l, l <> data m -> farrays h' !! l = farrays h !! l) /\
    forall i' j', 0 <= i' < rows m -> 0 <= j' < cols m ->
      exists x,
        MatrixUtils.getElement m i' j' h = (h, Val x) /\
        MatrixUtils.getElement m i' j' h' =
        (h', Val (if (i' =? i) && (j' =? j) then coerce (elt a) v else x)).
Proof.
  intros Hld Ha Hlen Hi Hj.
  pose proof (dense_offset m i j Hld Hi Hj) as Hoff.
  rewrite public_setElement_private by assumption.
  unfold Dgesv.setElement. rewrite (ta_write_inside _ _ _ _ a Ha) by lia.
  set (a' := {| elt := elt a; cells := _ |}).
  assert (Hin : (data m < length (farrays h))%nat) by (now apply lookup_lt_Some in Ha).
  assert (Ha' : farrays (set_farray h (data m) a') !! data m = Some a').
  { cbn. now apply list_lookup_insert_eq. }
  eexists. split; [reflexivity|]. split; [reflexivity|]. split; [reflexivity|].
  split; [|split].
  - apply (shape_set_farray h (data m) a a' Ha). unfold a'. cbn. apply length_insert.
  - intros l Hl. cbn. apply list_lookup_insert_ne. congruence.
  - intros i' j' Hi' Hj'.
    pose proof (dense_offset m i' j' Hld Hi' Hj') as Hoff'.
    exists (entry h m i' j'). rewrite !public_getElement_private by assumption. split.
    + apply getElement_inside; auto. rewrite (fcells_lookup h _ a Ha). exact Hlen.
    + rewrite (getElement_inside _ m i' j' Hld);
        [|rewrite (fcells_lookup _ _ a' Ha'); unfold a'; cbn [cells];
          rewrite length_insert; exact Hlen|assumption..].
      do 2 f_equal. unfold entry.
      rewrite (fcells_lookup _ _ a' Ha'), (fcells_lookup h _ a Ha). unfold a'. cbn [cells].
      destruct ((i' =? i) && (j' =? j)) eqn:E.
      * apply andb_true_iff in E as [E1 E2]. apply Z.eqb_eq in E1, E2. subst.
        rewrite list_lookup_insert_eq by lia. reflexivity.
      * rewrite list_lookup_insert_ne; [reflexivity|].
        intros Heq. assert (offset m i j = offset m i' j') as Ho by lia.
        destruct (offset_inj m i j i' j' Hld Hi Hj Hi' Hj' Ho) as [-> ->].
        rewrite !Z.eqb_refl in E. discriminate.
Qed.

Lemma setElement_changes_one_entry_witness :
  exists h',
    MatrixUtils.setElement (fresh_matrix 0 2 2 RowMajor) 1 0 one_tenth
      (push_farray empty_heap (zeros 4)) = (h', Val tt) /\
    MatrixUtils.getElement (fresh_matrix 0 2 2 RowMajor) 0 1 h' = (h', Val fzero).
Proof.
  destruct (setElement_changes_one_entry
              (push_farray empty_heap (zeros 4)) (fresh_matrix 0 2 2 RowMajor)
              (zeros 4) 1 0 one_tenth)
    as (h' & E & _ & _ & _ & _ & Hget).
  - reflexivity.
  - reflexivity.
  - unfold zeros. cbn [cells]. rewrite length_replicate. cbn. lia.
  - cbn. lia.
  - cbn. lia.
  - exists h'. split; [exact E|].
    destruct (Hget 0 1) as (x & E0 & E1); [cbn; lia..|].
    vm_compute in E0. injection E0 as <-. exact E1.
Defined.

Lemma bind_val {A B} (m : M A) (k : A -> M B) h h' a :
  m h = (h', Val a) -> bind m k h = k a h'.
Proof. intros E. unfold bind. now rewrite E. Qed.

(** X6: [validateParameters] checks, in this order, [n >= 0] (code -1),
    [nrhs >= 0] (code -2), [lda >= max(1, n)] (code -4) and
    [ldb >= max(1, n)] (code -7), and throws a [LapackError] with the code of
    the first check that fails and the function name given ('unknown' when
    none is). A parameter that is absent is not checked, and no leading
    dimension is checked when [n] is absent. It returns normally, touching
    nothing, exactly when no check fails. *)
Theorem validateParameters_cases p h :
  let fname := default "unknown"%string (MatrixUtils.functionName p) in
  let throws code :=
    MatrixUtils.validateParameters p h = (h, Throw (LapackError code fname)) in
  let n_ok := forall x, MatrixUtils.n p = Some x -> 0 <= x in
  let nrhs_ok := forall x, MatrixUtils.nrhs p = Some x -> 0 <= x in
  let ld_ok ld :=
    forall x k, ld = Some x -> MatrixUtils.n p = Some k -> Z.max 1 k <= x in
  (~ n_ok -> throws (-1)) /\
  (n_ok -> ~ nrhs_ok -> throws (-2)) /\
  (n_ok -> nrhs_ok -> ~ ld_ok (MatrixUtils.lda p) -> throws (-4)) /\
  (n_ok -> nrhs_ok -> ld_ok (MatrixUtils.lda p) -> ~ ld_ok (MatrixUtils.ldb p) ->
     throws (-7)) /\
  (n_ok -> nrhs_ok -> ld_ok (MatrixUtils.lda p) -> ld_ok (MatrixUtils.ldb p) ->
     MatrixUtils.validateParameters p h = (h, Val tt)).
Proof.
  destruct p as [pn pnrhs plda pldb pf]. cbn [MatrixUtils.n MatrixUtils.nrhs
    MatrixUtils.lda MatrixUtils.ldb MatrixUtils.functionName]. cbv zeta.
  unfold MatrixUtils.validateParameters.
  cbn [MatrixUtils.n MatrixUtils.nrhs MatrixUtils.lda MatrixUtils.ldb
       MatrixUtils.functionName]. cbv zeta.
  assert (Hn : (forall x, pn = Some x -> 0 <= x) \/ exists x, pn = Some x /\ x < 0).
  { destruct pn as [x|]; [|left; discriminate].
    destruct (Z_lt_le_dec x 0); [right; eauto | left; congruence]. }
  assert (Hnrhs : (forall x, pnrhs = Some x -> 0 <= x) \/ exists x, pnrhs = Some x /\ x < 0).
  { destruct pnrhs as [x|]; [|left; discriminate].
    destruct (Z_lt_le_dec x 0); [right; eauto | left; congruence]. }
  assert (Hld : forall ld, (forall x k, ld = Some x -> pn = Some k -> Z.max 1 k <= x) \/
                  exists x k, ld = Some x /\ pn = Some k /\ x < Z.max 1 k).
  { intros [x|]; [|left; discriminate]. destruct pn as [k|]; [|left; discriminate].
    destruct (Z_lt_le_dec x (Z.max 1 k)); [right; eauto | left; congruence]. }
  destruct Hn as [Hn | (x & -> & Hx)].
  2:{ apply Z.ltb_lt in Hx as Hx'. unfold bind, throw. rewrite Hx'.
    repeat split; try reflexivity; intros Hok;
      specialize (Hok x eq_refl); lia. }
  assert (E1 : forall k, (match pn with
                          | Some n => if n <? 0 then throw (LapackError (-1) (default "unknown"%string pf)) else ret tt
                          | None => ret tt end) k = (k, Val tt)).
  { intros k. destruct pn as [x|]; [|reflexivity].
    specialize (Hn x eq_refl). apply Z.ltb_ge in Hn. now rewrite Hn. }
  rewrite (bind_val _ _ h h tt (E1 h)).
  destruct Hnrhs as [Hnrhs | (x & -> & Hx)].
  2:{ apply Z.ltb_lt in Hx as Hx'. unfold bind, throw. rewrite Hx'.
    repeat split; try reflexivity; intros; try tauto;
      match goal with H : forall x0, Some x = Some x0 -> _ |- _ =>
        specialize (H x eq_refl); lia end. }
  assert (E2 : forall k, (match pnrhs with
                          | Some n => if n <? 0 then throw (LapackError (-2) (default "unknown"%string pf)) else ret tt
                          | None => ret tt end) k = (k, Val tt)).
  { intros k. destruct pnrhs as [x|]; [|reflexivity].
    specialize (Hnrhs x eq_refl). apply Z.ltb_ge in Hnrhs. now rewrite Hnrhs. }
  rewrite (bind_val _ _ h h tt (E2 h)).
  destruct (Hld plda) as [Hlda | (x & k & -> & -> & Hx)].
  2:{ apply Z.ltb_lt in Hx as Hx'. unfold bind, throw. rewrite Hx'.
    repeat split; try reflexivity; intros; try tauto;
      match goal with H : forall x0 k0, Some x = Some x0 -> _ |- _ =>
        specialize (H x k eq_refl eq_refl); lia end. }
  assert (E3 : forall k, (match plda, pn with
                          | Some lda, Some n =>
                              if lda <? Z.max 1 n then throw (LapackError (-4) (default "unknown"%string pf)) else ret tt
                          | _, _ => ret tt end) k = (k, Val tt)).
  { intros k. destruct plda as [x|]; [|reflexivity]. destruct pn as [y|]; [|reflexivity].
    specialize (Hlda x y eq_refl eq_refl). apply Z.ltb_ge in Hlda. now rewrite Hlda. }
  rewrite (bind_val _ _ h h tt (E3 h)).
  destruct (Hld pldb) as [Hldb | (x & k & -> & -> & Hx)].
  2:{ apply Z.ltb_lt in Hx as Hx'. unfold throw. rewrite Hx'.
    repeat split; try reflexivity; intros; try tauto;
      match goal with H : forall x0 k0, Some x = Some x0 -> _ |- _ =>
        specialize (H x k eq_refl eq_refl); lia end. }
  assert (E4 : (match pldb, pn with
                | Some ldb, Some n =>
                    if ldb <? Z.max 1 n then throw (LapackError (-7) (default "unknown"%string pf)) else ret tt
                | _, _ => ret tt end) h = (h, Val tt)).
  { destruct pldb as [x|]; [|reflexivity]. destruct pn as [y|]; [|reflexivity].
    specialize (Hldb x y eq_refl eq_refl). apply Z.ltb_ge in Hldb. now rewrite Hldb. }
  rewrite E4. repeat split; intros; try tauto.
Qed.

(** X7: [copyMatrix] throws [LapackError(-1, 'copyMatrix')], changing
    nothing, when the dimensions of the two matrices differ. When they agree,
    for a dense source and a dense [Float64Array] target over another buffer,
    in whatever layouts, it returns; [getElement] then reads at every position
    of the target the number it read at that position of the source, and no
    array other than the target's buffer has changed. *)
Theorem copyMatrix_contract h src tgt :
  (rows src <> rows tgt \/ cols src <> cols tgt ->
     MatrixUtils.copyMatrix src tgt h = (h, Throw (LapackError (-1) "copyMatrix"))) /\
  (rows src = rows tgt -> cols src = cols tgt ->
   0 <= rows src -> 0 <= cols src ->
   dense h src -> backed h tgt -> data src <> data tgt ->
   exists h',
     MatrixUtils.copyMatrix src tgt h = (h', Val tt) /\
     iarrays h' = iarrays h /\
     length (farrays h') = length (farrays h) /\
     (forall l, l <> data tgt -> farrays h' !! l = farrays h !! l) /\
     forall i j, 0 <= i < rows src -> 0 <= j < cols src ->
       exists x,
         MatrixUtils.getElement src i j h = (h, Val x) /\
         MatrixUtils.getElement tgt i j h' = (h', Val x)).
Proof.
  split.
  - intros Hne. unfold MatrixUtils.copyMatrix.
    destruct (negb (rows src =? rows tgt) || negb (cols src =? cols tgt)) eqn:E;
      [reflexivity|].
    apply orb_false_iff in E as [E1 E2]. apply negb_false_iff in E1, E2.
    apply Z.eqb_eq in E1, E2. lia.
  - intros Hr Hc Hr0 Hc0 Hds Hbt Hne.
    destruct (copyMatrix_correct h src tgt Hds Hbt Hne Hr Hc Hr0 Hc0)
      as (h' & E & (Hia & Hlen & Hother & Hback) & Hsame).
    exists h'. split; [exact E|]. split; [exact Hia|]. split; [exact Hlen|].
    split; [exact Hother|].
    intros i j Hi Hj. exists (entry h src i j).
    destruct (dense_inside h src Hds) as [Hld Hin].
    destruct (backed_inside h' tgt (Hback tgt Hbt)) as [Hld' Hin'].
    rewrite !public_getElement_private by lia. split.
    + now apply getElement_inside.
    + rewrite (getElement_inside h' tgt i j Hld' Hin') by lia.
      now rewrite (Hsame i j Hi Hj).
Qed.

(** A column-major matrix copied into a row-major one. *)
Lemma copyMatrix_contract_witness :
  exists h' x,
    MatrixUtils.copyMatrix (fresh_matrix 0 2 2 ColumnMajor) (fresh_matrix 1 2 2 RowMajor)
      (push_farray (push_farray empty_heap (zeros 4)) (zeros 4)) = (h', Val tt) /\
    MatrixUtils.getElement (fresh_matrix 1 2 2 RowMajor) 0 1 h' = (h', Val x).
Proof.
  destruct (proj2 (copyMatrix_contract
                     (push_farray (push_farray empty_heap (zeros 4)) (zeros 4))
                     (fresh_matrix 0 2 2 ColumnMajor) (fresh_matrix 1 2 2 RowMajor)))
    as (h' & E & _ & _ & _ & Hget).
  - reflexivity.
  - reflexivity.
  - cbn. lia.
  - cbn. lia.
  - unfold dense. cbn. rewrite length_replicate. repeat split; lia.
  - split; [reflexivity|]. exists (zeros 4). cbn. rewrite length_replicate.
    repeat split; lia.
  - cbn. lia.
  - destruct (Hget 0 1) as (x & _ & E1); [cbn; lia..|].
    exists h', x. split; [exact E|exact E1].
Defined.

(** ** The factorisation *)

(** X8: partial pivoting. On a dense view, the pivot search of step [k]
    reads column [k] without changing anything and returns a row [r] at or
    below the diagonal together with the magnitude of the entry at [(r, k)];
    no entry of column [k] at or below the diagonal has a larger magnitude,
    and no such entry above row [r] has a magnitude as large: ties go to the
    smallest row. (Comparisons with NaN are false, as in the code.) *)
Theorem pivot_search_maximal h m k :
  leadingDimension m =
    match layout m with ColumnMajor => rows m | RowMajor => cols m end ->
  rows m * cols m <= Z.of_nat (length (fcells h (data m))) ->
  0 <= k < rows m -> k < cols m ->
  exists r v,
    Dgesv.pivot_search m k h = (h, Val (r, v)) /\
    k <= r < rows m /\ v = Math_abs (entry h m r k) /\
    (forall i, k <= i < rows m -> fgt (Math_abs (entry h m i k)) v = false) /\
    (forall i, k <= i < r -> SFleb v (Math_abs (entry h m i k)) = false).
Proof.
  intros Hld Hlen Hk Hkc.
  set (Inv := fun (i : Z) (s : Z * float) (h' : heap) =>
     h' = h /\ k <= fst s < i /\ snd s = Math_abs (entry h m (fst s) k) /\
     (forall i', k <= i' < i -> fgt (Math_abs (entry h m i' k)) (snd s) = false) /\
     (forall i', k <= i' < fst s ->
        SFleb (snd s) (Math_abs (entry h m i' k)) = false)).
  assert (T : triple (Inv (k + 1) (k, Math_abs (entry h m k k)))
                (for_range (k + 1) (rows m) (fun i '(maxRow, maxVal) =>
                   let* x := Dgesv.getElement m i k in
                   let val := Math_abs x in
                   if fgt val maxVal then ret (i, val) else ret (maxRow, maxVal))
                   (k, Math_abs (entry h m k k)))
                (Inv (Z.max (k + 1) (rows m)))).
  { apply (triple_for_range Inv). intros i [maxRow maxVal] Hi h' (-> & H1 & H2 & H3 & H4).
    cbn [fst snd] in *. unfold bind. rewrite (getElement_inside h m i k Hld Hlen) by lia.
    cbv zeta. set (val := Math_abs (entry h m i k)).
    destruct (fgt val maxVal) eqn:E; eexists _, _; (split; [reflexivity|]);
      (split; [reflexivity|]); cbn [fst snd].
    - split; [lia|]. split; [reflexivity|]. split.
      + intros i' Hi'. destruct (Z.eq_dec i' i) as [->|Hne].
        * apply SFltb_irrefl.
        * destruct (fgt (Math_abs (entry h m i' k)) val) eqn:E'; [|reflexivity].
          rewrite <- (H3 i') by lia. unfold fgt in *.
          symmetry. now apply (SFltb_trans _ val).
      + intros i' Hi'.
        destruct (SFleb val (Math_abs (entry h m i' k))) eqn:E'; [|reflexivity].
        rewrite <- (H3 i') by lia. unfold fgt in *.
        symmetry. now apply (SFltb_leb_trans _ val).
    - split; [lia|]. split; [exact H2|]. split.
      + intros i' Hi'. destruct (Z.eq_dec i' i) as [->|Hne]; [exact E|].
        apply H3. lia.
      + exact H4. }
  destruct (T h) as ([r v] & h' & E & -> & H1 & H2 & H3 & H4).
  { split; [reflexivity|]. cbn [fst snd]. split; [lia|]. split; [reflexivity|]. split.
    - intros i' Hi'. replace i' with k by lia. apply SFltb_irrefl.
    - intros i' Hi'. lia. }
  cbn [fst snd] in *. exists r, v.
  unfold Dgesv.pivot_search, bind. rewrite (getElement_inside h m k k Hld Hlen) by lia.
  split; [exact E|]. split; [lia|]. split; [exact H2|]. split; [|exact H4].
  intros i Hi. apply H3. lia.
Qed.

(** The first column of [[1, 2], [-3, 4], [3, 5]]: rows 1 and 2 tie with the
    magnitude 3 and row 1 is chosen. *)
Lemma pivot_search_maximal_witness :
  exists r v,
    Dgesv.pivot_search (fresh_matrix 0 3 2 RowMajor) 0
      (system_heap [1; 2; -3; 4; 3; 5] []) =
    (system_heap [1; 2; -3; 4; 3; 5] [], Val (r, v)) /\
    0 <= r < 3 /\
    (forall i, 0 <= i < r ->
       SFleb v (Math_abs (entry (system_heap [1; 2; -3; 4; 3; 5] [])
                            (fresh_matrix 0 3 2 RowMajor) i 0)) = false).
Proof.
  destruct (pivot_search_maximal (system_heap [1; 2; -3; 4; 3; 5] [])
              (fresh_matrix 0 3 2 RowMajor) 0)
    as (r & v & E & Hr & _ & _ & Hties).
  - reflexivity.
  - cbn. lia.
  - cbn. lia.
  - cbn. lia.
  - exists r, v. split; [exact E|]. split; [exact Hr | exact Hties].
Defined.

(** ** What the factorisation writes *)

Lemma shape_farrays h h' : farrays h' = farrays h -> shape h' = shape h.
Proof. unfold shape. now intros ->. Qed.

Lemma icells_iarrays h h' l : iarrays h' = iarrays h -> icells h' l = icells h l.
Proof. unfold icells. now intros ->. Qed.

Lemma touched_refl lf li h : touched lf li h h.
Proof. unfold touched. auto. Qed.

Lemma touched_access lf li h0 idx : access (touched lf li h0) lf idx.
Proof.
  split.
  - intros h (Hs & Hl & Hf & Hi & Hc).
    destruct (ta_read_effect lf idx h) as (v & h' & E & Ef & Ei & _).
    exists v, h'. split; [exact E|]. unfold touched.
    rewrite (shape_farrays h h' Ef), (icells_iarrays h h' li Ei), Ef, Ei. auto.
  - intros v h (Hs & Hl & Hf & Hi & Hc).
    destruct (ta_write_effect lf idx v h) as (h' & E & Ei & Es & _ & Ho & _).
    exists tt, h'. split; [exact E|]. unfold touched.
    rewrite Es, (icells_iarrays h h' li Ei), Ei. repeat split; auto.
    intros l Hl'. rewrite Ho by exact Hl'. now apply Hf.
Qed.

(** A store into an [Int32Array]: ignored outside the array, and otherwise
    changing one cell. *)
Lemma ia_write_cases l idx z h :
  exists h',
    ia_write l idx z h = (h', Val tt) /\ farrays h' = farrays h /\
    (iarrays h' = iarrays h \/
     exists a, iarrays h !! l = Some a /\ 0 <= idx < Z.of_nat (length a) /\
       iarrays h' = <[l := <[Z.to_nat idx := to_int32 z]> a]> (iarrays h)).
Proof.
  unfold ia_write. destruct (iarrays h !! l) as [a|] eqn:Ea.
  - destruct (in_range idx (length a)) eqn:Er.
    + eexists. split; [reflexivity|]. split; [reflexivity|]. right.
      exists a. apply in_range_spec in Er. auto.
    + eexists. split; [reflexivity|]. split; [reflexivity|]. now left.
  - eexists. split; [reflexivity|]. split; [reflexivity|]. now left.
Qed.

Lemma touched_ia_write lf li h0 k z :
  triple (touched lf li h0) (ia_write li k z) (fun _ => touched lf li h0).
Proof.
  intros h (Hs & Hl & Hf & Hi & Hc).
  destruct (ia_write_cases li k z h) as (h' & E & Ef & [Ei | (a & Ha & Hr & Ei)]);
    exists tt, h'; (split; [exact E|]); unfold touched;
    rewrite (shape_farrays h h' Ef), Ef.
  - rewrite (icells_iarrays h h' li Ei), Ei. auto.
  - assert (Hlt : (li < length (iarrays h))%nat) by (now apply lookup_lt_Some in Ha).
    split; [exact Hs|]. split; [rewrite Ei, length_insert; exact Hl|].
    split; [exact Hf|]. split.
    + intros l Hne. rewrite Ei, list_lookup_insert_ne by congruence. now apply Hi.
    + rewrite <- Hc. unfold icells. rewrite Ei, list_lookup_insert_eq by exact Hlt.
      rewrite Ha. apply length_insert.
Qed.

Lemma factoring_access lf li n h0 k idx : access (factoring lf li n h0 k) lf idx.
Proof.
  split.
  - intros h (Ht & Hp & Hrest).
    destruct (proj1 (touched_access lf li h0 idx) h Ht) as (v & h' & E & Ht').
    destruct (ta_read_effect lf idx h) as (v0 & h0' & E0 & _ & Ei & _).
    assert (h0' = h') by congruence. subst h0'.
    exists v, h'. split; [exact E|]. split; [exact Ht'|].
    rewrite (icells_iarrays h h' li Ei). auto.
  - intros v h (Ht & Hp & Hrest).
    destruct (proj2 (touched_access lf li h0 idx) v h Ht) as (u & h' & E & Ht').
    destruct (ta_write_effect lf idx v h) as (h0' & E0 & Ei & _).
    assert (h0' = h') by congruence. subst h0'.
    exists u, h'. split; [exact E|]. split; [exact Ht'|].
    rewrite (icells_iarrays h h' li Ei). auto.
Qed.

Lemma factoring_ia_write lf li n h0 k r :
  Z.of_nat (length (icells h0 li)) = n -> n < 2 ^ 31 ->
  0 <= k < n -> k <= r < n ->
  triple (factoring lf li n h0 k) (ia_write li k (r + 1))
    (fun _ => factoring lf li n h0 (k + 1)).
Proof.
  intros Hlen Hn Hk Hr h (Ht & Hp & Hrest).
  destruct (touched_ia_write lf li h0 k (r + 1) h Ht) as (u & h' & E & Ht').
  destruct (ia_write_effect li k (r + 1) h) as (h0' & E0 & _ & _ & _ & Hin).
  assert (h0' = h') by congruence. subst h0'.
  assert (Hc : length (icells h li) = length (icells h0 li)) by apply Ht.
  destruct Hin as [_ Hcells]; [lia|].
  exists u, h'. split; [exact E|]. split; [exact Ht'|].
  rewrite Hcells, to_int32_small by lia. split.
  - intros i Hi. destruct (Z.eq_dec i k) as [->|Hne].
    + rewrite list_lookup_insert_eq by lia. exists (r + 1). split; [reflexivity | lia].
    + rewrite list_lookup_insert_ne by lia. apply Hp. lia.
  - intros i Hi. rewrite list_lookup_insert_ne by lia. apply Hrest. lia.
Qed.

(** The factorisation with nothing assumed of the matrix or of the pivot
    array: it returns, with a status between 0 and the order. *)
Lemma dgetrf_touched m ipiv h0 :
  triple (touched (data m) ipiv h0) (Dgesv.dgetrf m ipiv)
    (fun r h => touched (data m) ipiv h0 h /\ 0 <= info r <= Z.max 0 (rows m)).
Proof.
  eapply triple_conseq.
  - apply (dgetrf_keeps (fun _ => touched (data m) ipiv h0)).
    + intros k _ i j _ _. apply touched_access.
    + intros k r _ _. apply touched_ia_write.
  - auto.
  - intros r h [[-> H]|(k & Hk & -> & H)]; (split; [exact H | lia]).
Qed.

(** The factorisation with a pivot array of [n] cells. *)
Lemma dgetrf_factoring m ipiv h0 :
  Z.of_nat (length (icells h0 ipiv)) = rows m -> rows m < 2 ^ 31 ->
  triple (factoring (data m) ipiv (rows m) h0 0) (Dgesv.dgetrf m ipiv)
    (fun r h =>
       (info r = 0 /\ factoring (data m) ipiv (rows m) h0 (rows m) h) \/
       (exists k, 0 <= k < rows m /\ info r = k + 1 /\
                  factoring (data m) ipiv (rows m) h0 (k + 1) h)).
Proof.
  intros Hlen Hn.
  eapply triple_conseq.
  - apply (dgetrf_keeps (factoring (data m) ipiv (rows m) h0)).
    + intros k _ i j _ _. apply factoring_access.
    + intros k r Hk Hr. now apply factoring_ia_write.
  - auto.
  - intros r h [[E H]|H]; [left | right; exact H].
    split; [exact E|]. now replace (Z.max 0 (rows m)) with (rows m) in H by lia.
Qed.

Lemma factoring_start lf li n h : factoring lf li n h 0 h.
Proof. split; [apply touched_refl|]. split; [intros i Hi; lia | auto]. Qed.

(** X9: the pivots of [dgetrf]. With a pivot array of [n] cells for a matrix
    of order [n] below [2^31], [dgetrf] returns a status between 0 and [n].
    Status 0: every pivot [ipiv[k]] is a 1-based row at or below the
    diagonal, between [k + 1] and [n]. Status [k + 1]: the pivots up to
    [ipiv[k]] are such rows and the cells of [ipiv] after them are as they
    were before the call. Nothing is assumed of the matrix or its buffer. *)
Theorem dgetrf_pivots h m ipiv :
  Z.of_nat (length (icells h ipiv)) = rows m -> rows m < 2 ^ 31 ->
  exists h' r,
    Dgesv.dgetrf m ipiv h = (h', Val r) /\
    0 <= info r <= rows m /\
    length (icells h' ipiv) = length (icells h ipiv) /\
    let written := if info r =? 0 then rows m else info r in
    (forall k, 0 <= k < written ->
       pivot_in_range (rows m) k (icells h' ipiv !! Z.to_nat k)) /\
    (forall k, written <= k ->
       icells h' ipiv !! Z.to_nat k = icells h ipiv !! Z.to_nat k).
Proof.
  intros Hlen Hn.
  destruct (dgetrf_factoring m ipiv h Hlen Hn h (factoring_start _ _ _ h))
    as (r & h' & E & [[Hi H]|(k & Hk & Hi & H)]);
    exists h', r; (split; [exact E|]); rewrite Hi;
    destruct H as ((_ & _ & _ & _ & Hc) & Hp & Hrest).
  - split; [lia|]. split; [exact Hc|]. cbn [Z.eqb]. auto.
  - split; [lia|]. split; [exact Hc|].
    replace (k + 1 =? 0) with false by (symmetry; apply Z.eqb_neq; lia). auto.
Qed.

(** The factorisation of the matrix of the 2 by 2 scenario. *)
Lemma dgetrf_pivots_witness :
  exists h' r,
    Dgesv.dgetrf (fresh_matrix 0 2 2 ColumnMajor) 0
      (push_iarray regular_heap [0; 0]) = (h', Val r) /\
    0 <= info r <= 2.
Proof.
  destruct (dgetrf_pivots (push_iarray regular_heap [0; 0])
              (fresh_matrix 0 2 2 ColumnMajor) 0%nat)
    as (h' & r & E & Hi & _).
  - reflexivity.
  - cbn. lia.
  - exists h', r. split; [exact E | exact Hi].
Defined.

(** X10: [dgetrf] never throws and writes only the cells of the buffer of
    its matrix and of its pivot array, whatever they are: no array is
    allocated or changes its length, and every other float array and integer
    array is after the call as it was before. The status is between 0 and the
    order of the matrix. *)
Theorem dgetrf_writes_only_its_arguments h m ipiv :
  exists h' r,
    Dgesv.dgetrf m ipiv h = (h', Val r) /\
    0 <= info r <= Z.max 0 (rows m) /\
    shape h' = shape h /\
    length (iarrays h') = length (iarrays h) /\
    length (icells h' ipiv) = length (icells h ipiv) /\
    (forall l, l <> data m -> farrays h' !! l = farrays h !! l) /\
    (forall l, l <> ipiv -> iarrays h' !! l = iarrays h !! l).
Proof.
  destruct (dgetrf_touched m ipiv h h (touched_refl _ _ h))
    as (r & h' & E & (Hs & Hl & Hf & Hi & Hc) & Hinfo).
  exists h', r. auto 10.
Qed.

(** ** What the solve writes *)

Lemma solving_refl lb h : solving lb h h.
Proof. unfold solving. auto. Qed.

Lemma solving_read lb h0 l idx :
  triple (solving lb h0) (ta_read l idx) (fun _ => solving lb h0).
Proof.
  intros h (Hs & Hi & Hf).
  destruct (ta_read_effect l idx h) as (v & h' & E & Ef & Ei & _).
  exists v, h'. split; [exact E|]. unfold solving.
  rewrite (shape_farrays h h' Ef), Ef, Ei. auto.
Qed.

Lemma solving_access lb h0 idx : access (solving lb h0) lb idx.
Proof.
  split; [apply solving_read|].
  intros v h (Hs & Hi & Hf).
  destruct (ta_write_effect lb idx v h) as (h' & E & Ei & Es & _ & Ho & _).
  exists tt, h'. split; [exact E|]. unfold solving. rewrite Es, Ei.
  repeat split; auto. intros l Hl. rewrite Ho by exact Hl. now apply Hf.
Qed.

Lemma solving_ia_read lb h0 l idx :
  triple (solving lb h0) (ia_read l idx) (fun _ => solving lb h0).
Proof.
  intros h (Hs & Hi & Hf).
  destruct (ia_read_effect l idx h) as (v & h' & E & Ef & Ei & _).
  exists v, h'. split; [exact E|]. unfold solving.
  rewrite (shape_farrays h h' Ef), Ef, Ei. auto.
Qed.

(** The substitutions read the factors and write the right-hand sides. *)
Section Reads.
Variable I : heap -> Prop.

Lemma forward_substitution_reads mA mB :
  readable I mA (rows mA) (rows mA) ->
  accessible I mB (rows mA) (cols mB) ->
  triple I (Dgesv.forward_substitution mA mB) (fun _ => I).
Proof.
  intros HA HB. unfold Dgesv.forward_substitution.
  apply triple_for_each. intros k Hk.
  apply triple_for_each. intros i Hi.
  eapply triple_bind; [apply getElement_reads, HA; lia|]. intros factor.
  apply triple_for_each. intros j Hj.
  eapply triple_bind; [apply getElement_keeps, HB; lia|]. intros b.
  eapply triple_bind; [apply getElement_keeps, HB; lia|]. intros c.
  apply setElement_keeps, HB; lia.
Qed.

Lemma back_substitution_reads mA mB :
  readable I mA (rows mA) (rows mA) ->
  accessible I mB (rows mA) (cols mB) ->
  triple I (Dgesv.back_substitution mA mB) (fun _ => I).
Proof.
  intros HA HB. unfold Dgesv.back_substitution.
  apply triple_for_down. intros k Hk.
  eapply triple_bind; [apply getElement_reads, HA; lia|]. intros pivot.
  eapply triple_bind.
  { apply triple_for_each. intros j Hj.
    eapply triple_bind; [apply getElement_keeps, HB; lia|]. intros b.
    apply setElement_keeps, HB; lia. }
  intros u. apply triple_for_each. intros i Hi.
  eapply triple_bind; [apply getElement_reads, HA; lia|]. intros factor.
  apply triple_for_each. intros j Hj.
  eapply triple_bind; [apply getElement_keeps, HB; lia|]. intros b.
  eapply triple_bind; [apply getElement_keeps, HB; lia|]. intros c.
  apply setElement_keeps, HB; lia.
Qed.

Lemma dgetrs_reads mA ipiv mB :
  readable I mA (rows mA) (rows mA) ->
  accessible I mB (rows mA) (cols mB) ->
  (forall k, 0 <= k < rows mA ->
     triple I (ia_read ipiv k)
       (fun p h => I h /\
          forall q, p = Some q ->
            forall j, 0 <= j < cols mB -> access I (data mB) (offset mB (q - 1) j))) ->
  triple I (Dgesv.dgetrs Dgesv.N mA ipiv mB) (fun r h => I h /\ info r = 0).
Proof.
  intros HA HB Hp. unfold Dgesv.dgetrs.
  eapply triple_bind.
  { apply triple_for_each. intros k Hk.
    apply apply_interchange_keeps with (nr := rows mA); auto. }
  intros u. eapply triple_bind; [now apply forward_substitution_reads|].
  intros u'. eapply triple_bind; [now apply back_substitution_reads|].
  intros u''. now apply triple_ret.
Qed.
End Reads.

Lemma dgetrs_solving mA ipiv mB h0 :
  triple (solving (data mB) h0) (Dgesv.dgetrs Dgesv.N mA ipiv mB)
    (fun r h => solving (data mB) h0 h /\ info r = 0).
Proof.
  apply dgetrs_reads.
  - intros i j _ _. apply solving_read.
  - intros i j _ _. apply solving_access.
  - intros k _ h Hh.
    destruct (solving_ia_read (data mB) h0 ipiv k h Hh) as (p & h' & E & H').
    exists p, h'. split; [exact E|]. split; [exact H'|].
    intros q _ j _. apply solving_access.
Qed.

(** X11: [dgetrs] supports 'N' only: for 'T' and 'C' it throws
    [LapackError(-1, 'DGETRS')] before touching anything. For 'N' it never
    throws and returns status 0, whatever the matrices and the pivots, and it
    writes only cells of the buffer of [B]: the factors (when they are in
    another buffer), the pivots and every other array are after the call as
    they were before, and no array changes its length. *)
Theorem dgetrs_writes_only_B trans mA ipiv mB h :
  match trans with
  | Dgesv.N =>
      exists h',
        Dgesv.dgetrs trans mA ipiv mB h = (h', Val {| info := 0 |}) /\
        shape h' = shape h /\ iarrays h' = iarrays h /\
        forall l, l <> data mB -> farrays h' !! l = farrays h !! l
  | _ => Dgesv.dgetrs trans mA ipiv mB h = (h, Throw (LapackError (-1) "DGETRS"))
  end.
Proof.
  destruct trans; [|reflexivity..].
  destruct (dgetrs_solving mA ipiv mB h h (solving_refl _ h))
    as ([i] & h' & E & (Hs & Hi & Hf) & Hinfo).
  cbn in Hinfo. subst i. exists h'. auto.
Qed.

(** ** The driver *)









(** ** The steps of the factorisation on the entries *)

Lemma triple_for_each_indexed (Inv : Z -> heap -> Prop) (lo hi : Z) (body : Z -> M unit) :
  (forall k, lo <= k < hi -> triple (Inv k) (body k) (fun _ => Inv (k + 1))) ->
  triple (Inv lo) (for_each lo hi body) (fun _ => Inv (Z.max lo hi)).
Proof.
  intros Hbody. unfold for_each.
  apply (triple_for_range (fun k (_ : unit) => Inv k)).
  intros k [] Hk. now apply Hbody.
Qed.

Lemma updated_refl h m : backed h m -> updated m h h (entry h m).
Proof. intros Hb. unfold updated. auto. Qed.

Lemma updated_ext m h0 h f g :
  updated m h0 h f ->
  (forall i j, 0 <= i < rows m -> 0 <= j < cols m -> f i j = g i j) ->
  updated m h0 h g.
Proof.
  intros (Hb & Hi & Hs & Hf & He) Hfg. repeat split; auto.
  - apply Hb.
  - apply Hb.
  - intros i j Hi' Hj'. rewrite He by assumption. now apply Hfg.
Qed.

Lemma updated_get m h0 h f i j :
  updated m h0 h f -> 0 <= i < rows m -> 0 <= j < cols m ->
  Dgesv.getElement m i j h = (h, Val (f i j)).
Proof.
  intros (Hb & _ & _ & _ & He) Hi Hj.
  destruct (backed_inside h m Hb) as [Hld Hlen].
  rewrite (getElement_inside h m i j Hld Hlen Hi Hj). now rewrite He.
Qed.

Lemma updated_set m h0 h f i j v :
  updated m h0 h f -> 0 <= i < rows m -> 0 <= j < cols m ->
  exists h',
    Dgesv.setElement m i j v h = (h', Val tt) /\
    updated m h0 h' (fun i' j' => if (i' =? i) && (j' =? j) then v else f i' j').
Proof.
  intros (Hb & Hi & Hs & Hf & He) Hi' Hj'.
  destruct (setElement_backed h m i j v Hb Hi' Hj')
    as (h' & E & Hia & Hlen & Hother & Hback & Hent).
  exists h'. split; [exact E|]. split; [now apply Hback|].
  split; [congruence|]. split; [|split].
  - rewrite <- Hs. unfold Dgesv.setElement in E.
    destruct (ta_write_effect (data m) (offset m i j) v h) as (h'' & E' & _ & Hs' & _).
    congruence.
  - intros l Hl. rewrite Hother by exact Hl. now apply Hf.
  - intros i' j' Hi'' Hj''. rewrite Hent by assumption.
    destruct ((i' =? i) && (j' =? j)); [reflexivity | now apply He].
Qed.

Ltac decide_indices :=
  repeat match goal with
         | |- context [?a =? ?b] => destruct (Z.eqb_spec a b)
         | |- context [?a <? ?b] => destruct (Z.ltb_spec a b)
         | |- context [?a <=? ?b] => destruct (Z.leb_spec a b)
         end;
  cbn [andb orb negb]; subst; try reflexivity; try lia.

(** X18: the row interchange of [dgetrf] and [dgetrs]. On a dense
    [Float64Array] view, exchanging the rows [r1] and [r2] over the first
    [width] columns leaves in each of these columns the entry of row [r2] in
    row [r1] and the entry of row [r1] in row [r2]; every other entry, every
    other array and the pivots are untouched. *)
Theorem swap_rows_exchanges h m width r1 r2 :
  backed h m ->
  0 <= r1 < rows m -> 0 <= r2 < rows m -> 0 <= width <= cols m ->
  exists h',
    Dgesv.swap_rows m width r1 r2 h = (h', Val tt) /\
    iarrays h' = iarrays h /\ shape h' = shape h /\
    (forall l, l <> data m -> farrays h' !! l = farrays h !! l) /\
    forall i j, 0 <= i < rows m -> 0 <= j < cols m ->
      entry h' m i j =
      if j <? width
      then if i =? r1 then entry h m r2 j
           else if i =? r2 then entry h m r1 j
           else entry h m i j
      else entry h m i j.
Proof.
  intros Hb Hr1 Hr2 Hw.
  set (F := fun (w i j : Z) =>
              if j <? w
              then if i =? r1 then entry h m r2 j
                   else if i =? r2 then entry h m r1 j
                   else entry h m i j
              else entry h m i j).
  assert (T : triple (fun h' => updated m h h' (F 0)) (Dgesv.swap_rows m width r1 r2)
                (fun _ h' => updated m h h' (F (Z.max 0 width)))).
  { unfold Dgesv.swap_rows.
    apply (triple_for_each_indexed (fun j h' => updated m h h' (F j))).
    intros j Hj h1 H1. unfold bind.
    rewrite (updated_get m h h1 _ r1 j H1) by lia.
    rewrite (updated_get m h h1 _ r2 j H1) by lia.
    destruct (updated_set m h h1 _ r1 j (F j r2 j) H1) as (h2 & E2 & H2); [lia..|].
    rewrite E2.
    destruct (updated_set m h h2 _ r2 j (F j r1 j) H2) as (h3 & E3 & H3); [lia..|].
    exists tt, h3. split; [exact E3|].
    apply (updated_ext _ _ _ _ _ H3). intros i' j' Hi' Hj'. unfold F. decide_indices. }
  destruct (T h) as (u & h' & E & Hb' & Hia & Hs & Hf & He).
  { apply (updated_ext m h h (entry h m)); [now apply updated_refl|].
    intros i j Hi Hj. unfold F. decide_indices. }
  exists h'. destruct u. split; [exact E|]. split; [exact Hia|]. split; [exact Hs|].
  split; [exact Hf|]. intros i j Hi Hj. rewrite He by assumption.
  unfold F. now replace (Z.max 0 width) with width by lia.
Qed.

Lemma swap_rows_exchanges_witness :
  exists h',
    Dgesv.swap_rows (fresh_matrix 0 2 2 ColumnMajor) 2 0 1 regular_heap = (h', Val tt) /\
    entry h' (fresh_matrix 0 2 2 ColumnMajor) 0 1 = float_of_Z 3.
Proof.
  destruct (swap_rows_exchanges regular_heap (fresh_matrix 0 2 2 ColumnMajor) 2 0 1)
    as (h' & E & _ & _ & _ & He).
  - split; [reflexivity|]. eexists. split; [reflexivity|]. split; [reflexivity|]. cbn. lia.
  - cbn. lia.
  - cbn. lia.
  - cbn. lia.
  - exists h'. split; [exact E|]. rewrite He by (cbn; lia). reflexivity.
Defined.

(** The elimination of step [k] in terms of the entries before the step:
    multipliers in column [k], updated entries to its right, below row [k]. *)
Lemma eliminate_column_updated h m k :
  backed h m -> cols m = rows m -> 0 <= k < rows m ->
  exists h',
    Dgesv.eliminate_column m k h = (h', Val tt) /\
    updated m h h' (fun i j =>
      if (i <=? k) || (j <? k) then entry h m i j
      else if j =? k then fdiv (entry h m i k) (entry h m k k)
      else fsub (entry h m i j)
             (fmul (fdiv (entry h m i k) (entry h m k k)) (entry h m k j))).
Proof.
  intros Hb Hsq Hk.
  set (e := entry h m).
  set (row := fun (i j : Z) =>
                if j <? k then e i j
                else if j =? k then fdiv (e i k) (e k k)
                else fsub (e i j) (fmul (fdiv (e i k) (e k k)) (e k j))).
  (* rows k+1 .. i-1 are done *)
  set (F := fun (i0 i j : Z) =>
              if (k <? i) && (i <? i0) then row i j else e i j).
  (* ... and so are the columns k .. j0-1 of row i0 *)
  set (G := fun (i0 j0 i j : Z) =>
              if (i =? i0) && (k <=? j) && (j <? j0) then row i j else F i0 i j).
  assert (T : triple (fun h' => updated m h h' (F (k + 1)))
                (Dgesv.eliminate_column m k)
                (fun _ h' => updated m h h' (F (Z.max (k + 1) (rows m))))).
  { unfold Dgesv.eliminate_column.
    eapply triple_bind with (R := fun pivot h' => updated m h h' (F (k + 1)) /\ pivot = e k k).
    { intros h1 H1. rewrite (updated_get m h h1 _ k k H1) by lia.
      eexists _, _. split; [reflexivity|]. split; [exact H1|]. unfold F. decide_indices. }
    intros pivot. apply triple_assume. intros ->.
    apply (triple_for_each_indexed (fun i h' => updated m h h' (F i))).
    intros i Hi h1 H1. unfold bind at 1.
    rewrite (updated_get m h h1 _ i k H1) by lia. cbv zeta.
    replace (F i i k) with (e i k) by (unfold F; decide_indices).
    unfold bind at 1.
    destruct (updated_set m h h1 _ i k (fdiv (e i k) (e k k)) H1) as (h2 & E2 & H2); [lia..|].
    rewrite E2.
    assert (H2' : updated m h h2 (G i (k + 1))).
    { apply (updated_ext _ _ _ _ _ H2). intros i' j' Hi' Hj'.
      unfold G, F, row. decide_indices. }
    clear H2 E2 H1.
    assert (T2 : triple (fun h' => updated m h h' (G i (k + 1)))
                   (for_each (k + 1) (rows m) (fun j =>
                      let* a := Dgesv.getElement m i j in
                      let* b := Dgesv.getElement m k j in
                      let newVal := fsub a (fmul (fdiv (e i k) (e k k)) b) in
                      Dgesv.setElement m i j newVal))
                   (fun _ h' => updated m h h' (G i (Z.max (k + 1) (rows m))))).
    { apply (triple_for_each_indexed (fun j h' => updated m h h' (G i j))).
      intros j Hj h3 H3. unfold bind.
      rewrite (updated_get m h h3 _ i j H3) by lia.
      rewrite (updated_get m h h3 _ k j H3) by lia. cbv zeta.
      replace (G i j i j) with (e i j) by (unfold G, F; decide_indices).
      replace (G i j k j) with (e k j) by (unfold G, F; decide_indices).
      destruct (updated_set m h h3 _ i j
                  (fsub (e i j) (fmul (fdiv (e i k) (e k k)) (e k j))) H3)
        as (h4 & E4 & H4); [lia..|].
      exists tt, h4. split; [exact E4|].
      apply (updated_ext _ _ _ _ _ H4). intros i' j' Hi' Hj'.
      unfold G, F, row. decide_indices. }
    destruct (T2 h2 H2') as (u & h5 & E5 & H5).
    exists u, h5. split; [exact E5|].
    apply (updated_ext _ _ _ _ _ H5). intros i' j' Hi' Hj'.
    unfold G, F, row. decide_indices. }
  destruct (T h) as (u & h' & E & H').
  { apply (updated_ext m h h (entry h m)); [now apply updated_refl|].
    intros i j Hi Hj. unfold F. decide_indices. }
  exists h'. destruct u. split; [exact E|].
  apply (updated_ext _ _ _ _ _ H'). intros i j Hi Hj.
  unfold F, row, e. decide_indices.
Qed.


(** X19: the elimination of step [k] of [dgetrf], entry by entry. On a dense
    square [Float64Array] view, with [p] the entry at [(k, k)] before the
    step: each row [i] below row [k] gets the multiplier
    [A[i][k] / p] in column [k] and, in the columns [j] to the right of [k],
    [A[i][j] - (A[i][k] / p) * A[k][j]], all in terms of the entries before
    the step; the rows up to [k], the columns to the left of [k], every
    other array and the pivots are untouched. *)
Theorem eliminate_column_entries h m k :
  backed h m -> cols m = rows m -> 0 <= k < rows m ->
  exists h',
    Dgesv.eliminate_column m k h = (h', Val tt) /\
    iarrays h' = iarrays h /\ shape h' = shape h /\
    (forall l, l <> data m -> farrays h' !! l = farrays h !! l) /\
    forall i j, 0 <= i < rows m -> 0 <= j < cols m ->
      entry h' m i j =
      if (i <=? k) || (j <? k) then entry h m i j
      else if j =? k then fdiv (entry h m i k) (entry h m k k)
      else fsub (entry h m i j)
             (fmul (fdiv (entry h m i k) (entry h m k k)) (entry h m k j)).
Proof.
  intros Hb Hsq Hk.
  destruct (eliminate_column_updated h m k Hb Hsq Hk) as (h' & E & _ & Hia & Hs & Hf & He).
  exists h'. auto.
Qed.

Lemma eliminate_column_entries_witness :
  exists h',
    Dgesv.eliminate_column (fresh_matrix 0 2 2 ColumnMajor) 0 regular_heap = (h', Val tt) /\
    entry h' (fresh_matrix 0 2 2 ColumnMajor) 1 0 = fdiv (float_of_Z 1) (float_of_Z 2).
Proof.
  destruct (eliminate_column_entries regular_heap (fresh_matrix 0 2 2 ColumnMajor) 0)
    as (h' & E & _ & _ & _ & He).
  - split; [reflexivity|]. eexists. split; [reflexivity|]. split; [reflexivity|]. cbn. lia.
  - reflexivity.
  - cbn. lia.
  - exists h'. split; [exact E|]. rewrite He by (cbn; lia). reflexivity.
Defined.

(** ** NaN in the matrix *)

Lemma fgt_NaN x : fgt x NaN = false.
Proof. destruct x as [[]|[]| |[] m e]; reflexivity. Qed.

Lemma fdiv_NaN x : fdiv x NaN = NaN.
Proof. destruct x as [[]|[]| |[] m e]; reflexivity. Qed.

Lemma fmul_NaN y : fmul NaN y = NaN.
Proof. destruct y as [[]|[]| |[] m e]; reflexivity. Qed.

Lemma fsub_NaN x : fsub x NaN = NaN.
Proof. destruct x as [[]|[]| |[] m e]; reflexivity. Qed.

(** A NaN on the diagonal wins the pivot search: no comparison with it is
    true. *)
Lemma pivot_search_NaN h m k :
  backed h m -> 0 <= k < rows m -> k < cols m ->
  entry h m k k = NaN ->
  Dgesv.pivot_search m k h = (h, Val (k, NaN)).
Proof.
  intros Hb Hk Hkc Hnan. destruct (backed_inside h m Hb) as [Hld Hlen].
  unfold Dgesv.pivot_search, bind.
  rewrite (getElement_inside h m k k Hld Hlen) by lia. rewrite Hnan.
  change (Math_abs NaN) with NaN.
  destruct (triple_for_range (fun _ (s : Z * float) h' => h' = h /\ s = (k, NaN))
              (k + 1) (rows m)
              (fun i '(maxRow, maxVal) =>
                 let* x := Dgesv.getElement m i k in
                 let val := Math_abs x in
                 if fgt val maxVal then ret (i, val) else ret (maxRow, maxVal))
              (k, NaN)) with (h := h) as (s & h' & E & -> & ->).
  - intros i s Hi h1 [-> ->]. unfold bind.
    rewrite (getElement_inside h m i k Hld Hlen) by lia. cbv zeta.
    rewrite fgt_NaN. eexists _, _. split; [reflexivity|]. auto.
  - auto.
  - exact E.
Qed.

(** The factorisation of a matrix with a NaN in its first entry: every step
    takes the NaN on the diagonal as its pivot, exchanges no rows, and turns
    the rows below into NaN. *)
Lemma dgetrf_NaN h m ipiv :
  backed h m -> cols m = rows m -> 1 <= rows m ->
  entry h m 0 0 = NaN ->
  exists h', Dgesv.dgetrf m ipiv h = (h', Val {| info := 0 |}).
Proof.
  intros Hb Hsq Hn Hnan.
  set (Inv := fun (k : Z) (h' : heap) =>
                backed h' m /\ entry h' m 0 0 = NaN /\
                (1 <= k -> forall i j, 1 <= i < rows m -> 0 <= j < cols m ->
                             entry h' m i j = NaN)).
  assert (T : triple (Inv 0) (for_ret 0 (rows m) (Dgesv.dgetrf_step m ipiv))
                (fun r h' => match r with
                             | Some _ => False
                             | None => Inv (0 + Z.of_nat (Z.to_nat (rows m - 0))) h'
                             end)).
  { unfold for_ret. apply (triple_loop_ret Inv (fun _ _ => False)).
    intros k Hk h1 (Hb1 & H00 & Hrows).
    assert (Hkk : entry h1 m k k = NaN).
    { destruct (Z.eq_dec k 0) as [->|Hne]; [exact H00 | apply Hrows; lia]. }
    unfold Dgesv.dgetrf_step, bind.
    rewrite (pivot_search_NaN h1 m k Hb1) by (assumption || lia).
    destruct (ia_write_cases ipiv k (k + 1) h1) as (h2 & E2 & Ef & _).
    rewrite E2. change (feq NaN fzero) with false. rewrite Z.eqb_refl. cbn [negb ret].
    assert (Hb2 : backed h2 m).
    { destruct Hb1 as (Hld & a & Ha & Hrest). split; [exact Hld|].
      exists a. now rewrite Ef. }
    assert (He2 : forall i j, entry h2 m i j = entry h1 m i j).
    { apply entry_other. now rewrite Ef. }
    destruct (eliminate_column_updated h2 m k Hb2 Hsq) as (h3 & E3 & Hb3 & _ & _ & _ & He3);
      [lia|].
    rewrite E3. eexists _, _. split; [reflexivity|]. cbn beta iota.
    split; [exact Hb3|]. split.
    - rewrite He3 by lia. rewrite He2.
      replace ((0 <=? k) || (0 <? k)) with true; [exact H00|].
      symmetry. apply orb_true_iff. left. apply Z.leb_le. lia.
    - intros _ i j Hi Hj. rewrite He3 by lia. rewrite !He2, Hkk.
      destruct ((i <=? k) || (j <? k)) eqn:E.
      + apply Hrows; [|lia|lia].
        apply orb_true_iff in E as [E|E]; [apply Z.leb_le in E | apply Z.ltb_lt in E]; lia.
      + destruct (j =? k); [apply fdiv_NaN|].
        rewrite fdiv_NaN, fmul_NaN. apply fsub_NaN. }
  destruct (T h) as (r & h' & E & Hr).
  { split; [exact Hb|]. split; [exact Hnan|]. intros; lia. }
  destruct r as [x|]; [contradiction|].
  exists h'. unfold Dgesv.dgetrf, bind. now rewrite E.
Qed.

(** X20: NaN is not an error. For a dense system that passes the checks of
    [dgesv], with a NaN in the first entry of [A], [dgesv] without
    [overwriteInput] returns status 0 and a populated result: the NaN is taken
    as pivot in every step (no comparison with NaN is true, and NaN is not
    0), so that the matrix is never found singular. *)
Theorem dgesv_NaN_status_0 input h :
  default false (Dgesv.overwriteInput input) = false ->
  early_status (Dgesv.A input) (Dgesv.B input) = 0 ->
  dense h (Dgesv.A input) -> dense h (Dgesv.B input) ->
  1 <= rows (Dgesv.A input) ->
  entry h (Dgesv.A input) 0 0 = NaN ->
  exists h' r o,
    Dgesv.dgesv input h = (h', Val r) /\ info r = 0 /\ result r = Some o.
Proof.
  intros Ho Hst HdA HdB Hn Hnan.
  destruct (early_status_0 _ _ Hst) as (Hsq & Hrows & _ & Hnrhs & _).
  destruct (working_copies_content input h Ho Hst HdA HdB)
    as (h3 & E3 & HbA & HbB & HeA & HeB).
  rewrite dgesv_split. unfold bind at 1. rewrite dgesv_prepare_accepts by exact Hst.
  rewrite E3.
  set (workA := fresh_matrix _ _ _ (layout (Dgesv.A input))) in *.
  set (workB := fresh_matrix _ _ _ (layout (Dgesv.B input))) in *.
  set (h4 := push_iarray h3 _).
  assert (HbA4 : backed h4 workA) by exact HbA.
  destruct (dgetrf_NaN h4 workA (length (iarrays h3)) HbA4) as (h5 & E5).
  - cbn. reflexivity.
  - cbn. exact Hn.
  - change (entry h4 workA 0 0) with (entry h3 workA 0 0).
    rewrite HeA by lia. exact Hnan.
  - destruct (dgetrs_solving workA (length (iarrays h3)) workB h5 h5 (solving_refl _ h5))
      as ([i] & h6 & E6 & _ & Hinfo).
    cbn in Hinfo. subst i.
    unfold dgesv_solve, bind. rewrite E5. cbn [info Z.eqb negb]. rewrite E6.
    cbn [info Z.eqb negb ret]. eexists _, _, _. split; [reflexivity|].
    split; reflexivity.
Qed.

Lemma dgesv_NaN_status_0_witness :
  exists h' r o,
    Dgesv.dgesv (system_input 2 1 None) nan_heap = (h', Val r) /\
    info r = 0 /\ result r = Some o.
Proof.
  apply (dgesv_NaN_status_0 (system_input 2 1 None) nan_heap).
  - reflexivity.
  - reflexivity.
  - unfold dense. cbn. repeat split; lia.
  - unfold dense. cbn. repeat split; lia.
  - cbn. lia.
  - reflexivity.
Defined.

(** ** The flag [overwriteInput] *)

(** X21: [overwriteInput] changes where the results are, not what they are.
    For dense views [A] and [B] over two distinct [Float64Array]s, [dgesv]
    returns the same status with and without [overwriteInput]; on success the
    factors, the solutions and the pivots of the two calls hold the same
    numbers, those of the call with [overwriteInput] being in [A] and [B]
    themselves. *)
Theorem dgesv_overwrite_same_result A B h :
  let n := rows A in
  let nrhs := cols B in
  dense h A -> dense h B -> backed h A -> backed h B -> data A <> data B ->
  exists h1 h2 r1 r2,
    Dgesv.dgesv {| Dgesv.A := A; Dgesv.B := B; Dgesv.overwriteInput := Some false |} h =
      (h1, Val r1) /\
    Dgesv.dgesv {| Dgesv.A := A; Dgesv.B := B; Dgesv.overwriteInput := Some true |} h =
      (h2, Val r2) /\
    info r1 = info r2 /\
    ((result r1 = None /\ result r2 = None) \/
     exists o1 o2,
       result r1 = Some o1 /\ result r2 = Some o2 /\
       Dgesv.LU o2 = A /\ Dgesv.solution o2 = B /\
       same_entries n n h1 (Dgesv.LU o1) h2 A /\
       same_entries n nrhs h1 (Dgesv.solution o1) h2 B /\
       icells h1 (Dgesv.pivots o1) = icells h2 (Dgesv.pivots o2)).
Proof.
  intros n nrhs HdA HdB HbA HbB Hdisj.
  set (in1 := {| Dgesv.A := A; Dgesv.B := B; Dgesv.overwriteInput := Some false |}).
  set (in2 := {| Dgesv.A := A; Dgesv.B := B; Dgesv.overwriteInput := Some true |}).
  destruct (Z.eq_dec (early_status A B) 0) as [Hst|Hst].
  2: { exists h, h, (Dgesv.failure (early_status A B)), (Dgesv.failure (early_status A B)).
       split; [now apply (dgesv_rejects in1)|]. split; [now apply (dgesv_rejects in2)|].
       split; [reflexivity|]. left. split; reflexivity. }
  destruct (early_status_0 A B Hst) as (Hsq & Hr & Hn & Hnrhs & _).
  pose proof (dense_order_small h A HdA (eq_sym Hsq)) as Hsmall.
  destruct (working_copies_content in1 h eq_refl Hst HdA HdB)
    as (x1 & E1 & HbA1 & HbB1 & HeA1 & HeB1).
  cbn [Dgesv.A Dgesv.B in1] in E1, HbA1, HbB1, HeA1, HeB1. fold n nrhs in E1, HbA1, HbB1, HeA1, HeB1.
  set (wA := fresh_matrix (length (farrays h)) n n (layout A)) in *.
  set (wB := fresh_matrix (Datatypes.S (length (farrays h))) n nrhs (layout B)) in *.
  destruct (dgesv_solve_coupled wA wB A B (length (iarrays x1)) (length (iarrays h))
              n nrhs eq_refl eq_refl eq_refl (eq_sym Hsq) eq_refl eq_refl (eq_sym Hr) eq_refl
              ltac:(cbn; lia) Hdisj
              (push_iarray x1 (replicate (Z.to_nat n) 0))
              (push_iarray h (replicate (Z.to_nat n) 0)))
    as (r1 & r2 & y1 & y2 & F1 & F2 & Hinfo & Hy & Hres).
  { unfold n in *. lia. }
  { unfold coupled, icells, push_iarray. cbn.
    rewrite !lookup_app_r by lia. rewrite !Nat.sub_diag. cbn.
    rewrite length_replicate, !length_app. cbn.
    split; [exact HbA1|]. split; [exact HbB1|]. split; [exact HbA|].
    split; [exact HbB|]. split; [exact HeA1|]. split; [exact HeB1|].
    repeat split; try lia. }
  exists y1, y2, r1, r2.
  split; [|split; [|split; [exact Hinfo|]]].
  - rewrite dgesv_split. unfold bind.
    rewrite dgesv_prepare_accepts by exact Hst. now rewrite E1.
  - rewrite dgesv_split. unfold bind.
    rewrite dgesv_prepare_accepts by exact Hst.
    rewrite working_copies_overwrite by (reflexivity || exact Hn). exact F2.
  - destruct Hres as [Hnone|[Hs1 Hs2]]; [left; exact Hnone|].
    right. eexists _, _. split; [exact Hs1|]. split; [exact Hs2|]. cbn.
    destruct Hy as (_ & _ & _ & _ & HA & HB & Hp & _). auto.
Qed.

Lemma dgesv_overwrite_same_result_witness :
  exists h1 h2 r1 r2,
    Dgesv.dgesv (system_input 2 1 (Some false)) regular_heap = (h1, Val r1) /\
    Dgesv.dgesv (system_input 2 1 (Some true)) regular_heap = (h2, Val r2) /\
    info r1 = info r2.
Proof.
  destruct (dgesv_overwrite_same_result (fresh_matrix 0 2 2 ColumnMajor)
              (fresh_matrix 1 2 1 ColumnMajor) regular_heap)
    as (h1 & h2 & r1 & r2 & E1 & E2 & Hinfo & _).
  - unfold dense. cbn. repeat split; lia.
  - unfold dense. cbn. repeat split; lia.
  - split; [reflexivity|]. eexists. split; [reflexivity|]. split; [reflexivity|]. cbn. lia.
  - split; [reflexivity|]. eexists. split; [reflexivity|]. split; [reflexivity|]. cbn. lia.
  - cbn. lia.
  - exists h1, h2, r1, r2. split; [exact E1|]. split; [exact E2 | exact Hinfo].
Defined.
